(** * island-di: scoped dependency resolution (src/di.ts)

    A shallow embedding of [Di.Container], [Di.Scope] and [Di.ScopeContext]
    and the properties of the resolution protocol of [Scope.run].

    JavaScript objects live in a heap indexed by references; every method is
    a state transformer that may throw.  The binding registry (inversify's
    container), the promise combinators (bluebird) and the reflection
    metadata are collaborators outside the repository; they are modelled
    from the contract the design document gives for them. *)

From stdpp Require Import base numbers strings pretty list sorting gmap.


(** ** Values, errors and results *)

(** [new Error(message)]. *)
Inductive exn := Error (message : string).

(** A primitive value: a string, an integral number, a boolean, [null] or
    [undefined].  Numbers with a fraction, symbols and functions are not
    among the values of the model. *)
Inductive Primitive :=
| PString (s : string)
| PNumber (n : Z)
| PBoolean (b : bool)
| PNull
| PUndefined.

Coercion PString : string >-> Primitive.

(** A JavaScript value: a reference to an object, which is not a function,
    or a primitive. *)
Inductive Value := VObject (ref : nat) | VPrimitive (data : Primitive).

Definition undefined : Value := VPrimitive PUndefined.

(** The outcome of a call: a returned value or a thrown exception. *)
Inductive Result (A : Type) := Ok (a : A) | Throw (e : exn).
Arguments Ok {A} a.
Arguments Throw {A} e.

(** A class (constructor function): its identity and its [name]. *)
Record Class := { class_id : nat; class_name : string }.

(** [type InjectionIdentifier<T> = string | (new (...args) => T)]. *)
Inductive InjectionIdentifier := IdString (s : string) | IdClass (c : Class).

(** A settled promise. *)
Inductive Settled := Fulfilled (v : Value) | Rejected (e : exn).

(** A [Promise.Disposer]: the promise of the acquired resource together with
    a cleanup callback.  The callback is opaque; the object is told apart by
    the reference it was allocated at. *)
Record Disposer := { disposer_ref : nat; disposer_promise : Settled }.

(** [interface DisposerFactory<T> { (resource: T): Promise.Disposer<T> }]:
    applied to an instance the factory either throws or returns a disposer
    whose promise settles as given. *)
Definition DisposerFactory := Value → Result Settled.

(** [interface ScopeResource]. *)
Record ScopeResource := {
  constructor : Class;
  disposerFactory : DisposerFactory
}.

#[global] Instance exn_eq_dec : EqDecision exn.
Proof. solve_decision. Defined.
#[global] Instance Result_eq_dec `{EqDecision A} : EqDecision (Result A).
Proof. solve_decision. Defined.
#[global] Instance Primitive_eq_dec : EqDecision Primitive.
Proof. solve_decision. Defined.
#[global] Instance Value_eq_dec : EqDecision Value.
Proof. solve_decision. Defined.
#[global] Instance Class_eq_dec : EqDecision Class.
Proof. solve_decision. Defined.
#[global] Instance InjectionIdentifier_eq_dec : EqDecision InjectionIdentifier.
Proof. solve_decision. Defined.
#[global] Instance Settled_eq_dec : EqDecision Settled.
Proof. solve_decision. Defined.
#[global] Instance Disposer_eq_dec : EqDecision Disposer.
Proof. solve_decision. Defined.

(** ** The binding registry *)

(** Modelled from the spec: the cardinality of a binding, one instance per
    resolution or one instance for the life of the binding. *)
Inductive BindingScope := TransientScope | SingletonScope.

(** Modelled from the spec: what a binding produces, [.to(c)],
    [.toConstantValue(v)] or [.toDynamicValue(f)].  The closure
    [bindScopeResources] passes to [toDynamicValue] is represented by the
    resource it is written for.  The closure of [Container.bindObjectWrapper],
    which hands the resolution over to [ObjectFactory], is not represented:
    the registries of this development hold no binding made by
    [bindObjectWrapper]. *)
Inductive Implementation :=
| ToClass (c : Class)
| ToConstantValue (v : Value)
| ToDynamicValue (resource : ScopeResource).

(** Modelled from the spec: a binding maps "an identifier to a producer";
    a singleton binding keeps the instance it produced. *)
Record Binding := {
  serviceIdentifier : InjectionIdentifier;
  implementation : Implementation;
  bindingScope : BindingScope;
  cache : option Value
}.

(** Modelled from the spec: the binding registry is inversify's container,
    which is not part of the repository.  It is "an opaque key-value store
    mapping an identifier to a producer" that "supports bind, unbind,
    isBound, get, and a snapshot/restore pair that checkpoints and rolls back
    the entire binding set".  Checkpoints are kept on a stack. *)
Record Kernel := {
  bindings : list Binding;
  snapshots : list (list Binding)
}.

(** ** Plain objects

    [ScopeContext.context], [Scope.disposers] and [ObjectFactory.models] are
    plain objects, [{}], used as dictionaries.  A read [object[name]] finds
    the own property of that name and otherwise what the object inherits
    from [Object.prototype]. *)

(** The names of the properties of [Object.prototype]. *)
Definition objectPrototypeNames : list string :=
  ["constructor"; "__defineGetter__"; "__defineSetter__"; "hasOwnProperty";
   "__lookupGetter__"; "__lookupSetter__"; "isPrototypeOf";
   "propertyIsEnumerable"; "toString"; "valueOf"; "__proto__";
   "toLocaleString"].

(** Whether [{}[name]] is an inherited property.  Each of them is a function
    or, for [__proto__], [Object.prototype] itself: none is falsy. *)
Definition inherited (name : string) : bool :=
  bool_decide (name ∈ objectPrototypeNames).

(** The prototype of a plain object: [Object.prototype], until an
    assignment to [__proto__] replaces it by an object or by [null].  The
    objects of the model are instances of classes; they are taken to inherit
    the properties of [Object.prototype] as they are, so that a plain object
    whose prototype is one of them inherits these as well. *)
Inductive Prototype := ObjectPrototype | ObjectAt (ref : nat) | NullPrototype.

#[global] Instance Prototype_eq_dec : EqDecision Prototype.
Proof. solve_decision. Defined.

(** ** Data objects

    The object given to [Scope.context] is a plain object that holds data:
    own enumerable properties with string keys.  It is given by the members
    it was built from, in their order, as [JSON.parse] builds an object from
    the members of a JSON text: a member whose key occurred before replaces
    the value of that key and keeps its place.  So every list of members is
    an object, and an object holds each key once. *)
Definition DataObject := list (string * Value).

(** [object[name]] for an own property: the value of the last member with
    that key. *)
Definition ownProperty (name : string) (object : DataObject) : option Value :=
  snd <$> last (filter (λ member, member.1 = name) object).

(** The number a string of decimal digits denotes, after [acc]. *)
Fixpoint parseDecimal (key : string) (acc : N) : option N :=
  match key with
  | EmptyString => Some acc
  | String c rest =>
      let d := Ascii.N_of_ascii c in
      if decide (48 ≤ d ≤ 57)%N
      then parseDecimal rest (10 * acc + (d - 48))%N
      else None
  end.

(** An array index: a key that is the canonical numeral of an integer below
    [2^32 - 1]. *)
Definition arrayIndex (key : string) : option N :=
  match parseDecimal key 0 with
  | Some n => if decide (pretty n = key ∧ (n < 4294967295)%N) then Some n else None
  | None => None
  end.

(** The keys of the members, each once, in the order of their first
    occurrence. *)
Definition definedKeys (object : DataObject) : list string :=
  reverse (remove_dups (reverse object.*1)).

(** [Object.keys(object)]: JavaScript enumerates the own properties that
    are array indices first, in ascending order, and then the other ones in
    the order in which they were created. *)
Definition ownKeys (object : DataObject) : list string :=
  (pretty <$> merge_sort N.le (omap arrayIndex (definedKeys object))) ++
  filter (λ key, arrayIndex key = None) (definedKeys object).

(** The own properties in that order. *)
Definition ownEntries (object : DataObject) : list (string * Value) :=
  (λ key, (key, default undefined (ownProperty key object))) <$> ownKeys object.

(** [isLength(value)] of lodash: a number that can be the length of an
    array. *)
Definition MAX_SAFE_INTEGER : Z := 9007199254740991.

Definition isLength (value : Value) : option nat :=
  match value with
  | VPrimitive (PNumber n) =>
      if decide (0 ≤ n ≤ MAX_SAFE_INTEGER)%Z then Some (Z.to_nat n) else None
  | _ => None
  end.

(** What [_.forEach(collection, iteratee)] of lodash calls [iteratee] with
    for a data object, as pairs of the second argument and the first.  An
    object whose [length] is a valid length is taken for an array: the
    iteratee is called for every index below the length, with
    [collection[index]], which is [undefined] where the object has no such
    property.  Any other object is visited by its own keys.  The index is
    passed as a number; as a property key and in a template string it is its
    decimal numeral. *)
Definition forEachEntries (collection : DataObject) : list (string * Value) :=
  match ownProperty "length" collection ≫= isLength with
  | Some n =>
      (λ index : nat,
         (pretty index, default undefined (ownProperty (pretty index) collection)))
        <$> seq 0 n
  | None => ownEntries collection
  end.

(** ** The heap and the state of a run *)

(** [class ScopeContext { private context: {[name: string]: any} = {}; }]:
    the plain object [context], given by its own properties and its
    prototype. *)
Record ScopeContextFields := {
  context : gmap string Value;
  contextPrototype : Prototype
}.

(** The objects of the heap: instances of the classes the registry
    constructs, each with the arguments of its constructor, and scope
    contexts. *)
Inductive HeapObject :=
| Instance (c : Class) (args : list Value)
| ContextObject (fields : ScopeContextFields).

(** [class Scope]: the fields of a scope object.  [kernel] is a reference
    to the container's registry and lives in the shared state below.
    [disposers] is the plain object [{[name: string]: Disposer}], given by
    its own properties in the order in which they were created, which is the
    order [_.map] enumerates them in (the name of a class is no array
    index). *)
Record Scope := {
  objToBindScopeContext : option DataObject;
  injections : list InjectionIdentifier;
  disposers : list (string * Disposer);
  scopeResources : list ScopeResource
}.

(** Calls that leave the library: to the disposer factory of the resource
    registered under [name], with what the call returned or threw, to the
    unit of work and to the cleanup callback of a disposer. *)
Inductive Event :=
| CallDisposerFactory (name : string) (instance : Value) (outcome : Result Disposer)
| CallTask (args : list Value)
| CallCleanup (d : Disposer).

#[global] Instance Event_eq_dec : EqDecision Event.
Proof. solve_decision. Defined.

(** The state a method runs in: the receiver [this] of the running scope
    and the world it shares with every other scope of the container. *)
Record State := {
  this : Scope;
  kernel : Kernel;
  heap : gmap nat HeapObject;
  next_ref : nat;
  trace : list Event
}.

(** A computation that reads and writes the state and may throw; the state
    reached when an exception is thrown is kept, as in JavaScript. *)
Definition M (A : Type) : Type := State → Result A * State.

Definition ret {A} (a : A) : M A := λ st, (Ok a, st).
Definition throw {A} (e : exn) : M A := λ st, (Throw e, st).
Definition bind {A B} (m : M A) (k : A → M B) : M B :=
  λ st, match m st with
        | (Ok a, st') => k a st'
        | (Throw e, st') => (Throw e, st')
        end.

Declare Scope js_scope.
Delimit Scope js_scope with js.
Notation "'let*' x := m 'in' k" := (bind m (λ x, k))
  (at level 10, x name, m at level 100, k at level 200) : js_scope.
Notation "m ;; k" := (bind m (λ _, k))
  (at level 100, k at level 200, right associativity) : js_scope.
Open Scope js_scope.

Fixpoint mapM {A B} (f : A → M B) (l : list A) : M (list B) :=
  match l with
  | [] => ret []
  | x :: xs => let* y := f x in let* ys := mapM f xs in ret (y :: ys)
  end.

Fixpoint forEach {A} (f : A → M unit) (l : list A) : M unit :=
  match l with
  | [] => ret tt
  | x :: xs => f x ;; forEach f xs
  end.

(** Field updates of the state. *)
Definition set_this (s : Scope) (st : State) : State :=
  {| this := s; kernel := kernel st; heap := heap st;
     next_ref := next_ref st; trace := trace st |}.
Definition set_kernel (k : Kernel) (st : State) : State :=
  {| this := this st; kernel := k; heap := heap st;
     next_ref := next_ref st; trace := trace st |}.
Definition set_heap (h : gmap nat HeapObject) (st : State) : State :=
  {| this := this st; kernel := kernel st; heap := h;
     next_ref := next_ref st; trace := trace st |}.

(** [new]: the object is stored at the next free reference. *)
Definition alloc (o : HeapObject) : M Value :=
  λ st, (Ok (VObject (next_ref st)),
         {| this := this st; kernel := kernel st;
            heap := <[next_ref st := o]> (heap st);
            next_ref := S (next_ref st); trace := trace st |}).

(** Records a call that leaves the library. *)
Definition emit (e : Event) : M unit :=
  λ st, (Ok tt,
         {| this := this st; kernel := kernel st; heap := heap st;
            next_ref := next_ref st; trace := trace st ++ [e] |}).

(** ** ScopeContext (di.ts, class ScopeContext) *)

Module ScopeContext.

(** [new ScopeContext()]: [context = {}]. *)
Definition empty : ScopeContextFields :=
  {| context := ∅; contextPrototype := ObjectPrototype |}.

(** The class token under which the scope context is bound. *)
Definition class : Class :=
  {| class_id := 0; class_name := "ScopeContext" |}.

Definition duplicate_key (name : string) : exn :=
  Error (name +:+ " is supposed to be set only once").
Definition missing_key (name : string) : exn :=
  Error (name +:+ " was not set").
(** Calling a method on a receiver that is not a scope context. *)
Definition not_a_context : exn := Error "not a function".

(** Calling [this.context.hasOwnProperty] when it is not a function. *)
Definition not_a_function : exn :=
  Error "this.context.hasOwnProperty is not a function".

(** Whether [this.context.hasOwnProperty] is the method of
    [Object.prototype]: [context] inherits it unless its prototype is
    [null], and an own property of that name, whose value is not a function,
    shadows it. *)
Definition callable (fields : ScopeContextFields) : bool :=
  bool_decide (context fields !! "hasOwnProperty" = None ∧
               contextPrototype fields ≠ NullPrototype).

(** [this.context.hasOwnProperty(name)]. *)
Definition hasOwnProperty (fields : ScopeContextFields) (name : string)
    : Result bool :=
  if callable fields
  then Ok (bool_decide (is_Some (context fields !! name)))
  else Throw not_a_function.

(** [this.context[name] = value].  The name [__proto__] is an accessor that
    [context] inherits: the assignment replaces the prototype when the value
    is an object or [null], does nothing for another value, and never
    creates an own property.  Only an object whose prototype is [null]
    inherits no such accessor. *)
Definition assign (name : string) (val : Value) (fields : ScopeContextFields)
    : ScopeContextFields :=
  if decide (name = "__proto__" ∧ contextPrototype fields ≠ NullPrototype)
  then match val with
       | VObject ref =>
           {| context := context fields; contextPrototype := ObjectAt ref |}
       | VPrimitive PNull =>
           {| context := context fields; contextPrototype := NullPrototype |}
       | VPrimitive _ => fields
       end
  else {| context := <[name := val]> (context fields);
          contextPrototype := contextPrototype fields |}.

(** [setOnce(name, value)]: throws when [name] is an own property of
    [context], otherwise assigns the value and returns [this]. *)
Definition setOnce (self : nat) (name : string) (val : Value) : M Value :=
  λ st, match heap st !! self with
        | Some (ContextObject fields) =>
            match hasOwnProperty fields name with
            | Throw e => (Throw e, st)
            | Ok true => (Throw (duplicate_key name), st)
            | Ok false =>
                (Ok (VObject self),
                 set_heap (<[self := ContextObject (assign name val fields)]>
                             (heap st)) st)
            end
        | _ => (Throw not_a_context, st)
        end.

(** [get(name)]: throws when [name] is not an own property of [context],
    otherwise returns [this.context[name]]. *)
Definition get (self : nat) (name : string) : M Value :=
  λ st, match heap st !! self with
        | Some (ContextObject fields) =>
            match hasOwnProperty fields name with
            | Throw e => (Throw e, st)
            | Ok false => (Throw (missing_key name), st)
            | Ok true => (Ok (default undefined (context fields !! name)), st)
            end
        | _ => (Throw not_a_context, st)
        end.

End ScopeContext.

(** [inversify.getServiceIdentifierAsString]: the name of a class, a string
    identifier as it is. *)
Definition getServiceIdentifierAsString (id : InjectionIdentifier) : string :=
  match id with
  | IdString s => s
  | IdClass c => class_name c
  end.

(** The own property [name] of [this.disposers]. *)
Definition lookupDisposer (name : string) (ds : list (string * Disposer))
    : option Disposer :=
  snd <$> head (filter (λ p, p.1 = name) ds).

(** [this.disposers[name]] as a condition: an own property is a disposer
    and an inherited one a function or an object, all of them truthy; what
    is neither is [undefined]. *)
Definition hasDisposer (name : string) (ds : list (string * Disposer)) : bool :=
  match lookupDisposer name ds with
  | Some _ => true
  | None => inherited name
  end.

(** [this.disposers[name] = d], for a name that is not [__proto__]: the
    closure below assigns only where [this.disposers[name]] is falsy. *)
Definition setDisposer (name : string) (d : Disposer) : M unit :=
  λ st, (Ok tt,
         set_this {| objToBindScopeContext := objToBindScopeContext (this st);
                     injections := injections (this st);
                     disposers :=
                       match lookupDisposer name (disposers (this st)) with
                       | Some _ =>
                           (λ p, if decide (p.1 = name) then (name, d) else p)
                             <$> disposers (this st)
                       | None => disposers (this st) ++ [(name, d)]
                       end;
                     scopeResources := scopeResources (this st) |} st).

(** [resource.disposerFactory(instance)]: when the factory returns, the
    disposer is a new object; the call is recorded with its outcome. *)
Definition callDisposerFactory (name : string) (resource : ScopeResource)
    (instance : Value) : M Disposer :=
  λ st,
    match disposerFactory resource instance with
    | Throw e =>
        (emit (CallDisposerFactory name instance (Throw e)) ;; throw e) st
    | Ok p =>
        let d := {| disposer_ref := next_ref st; disposer_promise := p |} in
        (Ok d,
         {| this := this st; kernel := kernel st; heap := heap st;
            next_ref := S (next_ref st);
            trace := trace st ++ [CallDisposerFactory name instance (Ok d)] |})
    end.

(** [this.disposers[name] = resource.disposerFactory(instance)]. *)
Definition acquire (name : string) (resource : ScopeResource) (instance : Value) : M unit :=
  let* d := callDisposerFactory name resource instance in
  setDisposer name d.

(** The closure [bindScopeResources] binds to a resource's constructor
    (di.ts, the argument of [toDynamicValue]); [kernel_get] is
    [this.kernel.get]. *)
Definition scopeResourceValue (kernel_get : InjectionIdentifier → M Value)
    (resource : ScopeResource) : M Value :=
  let name := getServiceIdentifierAsString (IdClass (constructor resource)) in
  let instanceBindName := name +:+ "@instance" in
  let* instance := kernel_get (IdString instanceBindName) in
  let* _ := (λ st,
    if hasDisposer name (disposers (this st))
    then (Ok tt, st)
    else acquire name resource instance st) in
  ret instance.

(** ** Operations of the binding registry *)

Module Kernel.

(** Modelled from the spec: the errors of the registry, for an identifier
    without a binding, for one with several, for a rollback without a
    checkpoint and for a resolution that nests too deep. *)
Definition not_bound (id : InjectionIdentifier) : exn :=
  Error ("No matching bindings found for serviceIdentifier: "
         +:+ getServiceIdentifierAsString id).
Definition ambiguous (id : InjectionIdentifier) : exn :=
  Error ("Ambiguous match found for serviceIdentifier: "
         +:+ getServiceIdentifierAsString id).
Definition no_snapshot : exn := Error "No snapshot available to restore.".
Definition stack_exhausted : exn := Error "Maximum call stack size exceeded".

(** Modelled from the spec: the bindings registered for an identifier. *)
Definition lookup (id : InjectionIdentifier) (k : Kernel) : list Binding :=
  filter (λ b, serviceIdentifier b = id) (bindings k).

(** Modelled from the spec: [kernel.isBound(id)]. *)
Definition isBound (id : InjectionIdentifier) (k : Kernel) : bool :=
  bool_decide (lookup id k ≠ []).

(** The identifiers that are bound: what an observer of the registry sees. *)
Definition boundIdentifiers (k : Kernel) : list InjectionIdentifier :=
  serviceIdentifier <$> bindings k.

Definition newBinding (id : InjectionIdentifier) (impl : Implementation)
    (sc : BindingScope) : Binding :=
  {| serviceIdentifier := id; implementation := impl;
     bindingScope := sc; cache := None |}.

(** Modelled from the spec: [kernel.bind(id).to...] adds a binding; an
    identifier may end up with several bindings, which [get] then refuses
    as ambiguous. *)
Definition bind (id : InjectionIdentifier) (impl : Implementation)
    (sc : BindingScope) : M unit :=
  λ st, (Ok tt,
         set_kernel {| bindings := bindings (kernel st) ++ [newBinding id impl sc];
                       snapshots := snapshots (kernel st) |} st).

(** Modelled from the spec: [kernel.unbind(id)] removes every binding of
    the identifier and throws when there is none. *)
Definition unbind (id : InjectionIdentifier) : M unit :=
  λ st, if isBound id (kernel st)
        then (Ok tt,
              set_kernel {| bindings := filter (λ b, serviceIdentifier b ≠ id)
                                               (bindings (kernel st));
                            snapshots := snapshots (kernel st) |} st)
        else (Throw (not_bound id), st).

(** Modelled from the spec: [kernel.snapshot()] pushes a checkpoint of the
    entire binding set. *)
Definition snapshot : M unit :=
  λ st, (Ok tt,
         set_kernel {| bindings := bindings (kernel st);
                       snapshots := bindings (kernel st) :: snapshots (kernel st) |} st).

(** Modelled from the spec: [kernel.restore()] pops the last checkpoint
    and rolls the binding set back to it. *)
Definition restore : M unit :=
  λ st, match snapshots (kernel st) with
        | [] => (Throw no_snapshot, st)
        | saved :: older =>
            (Ok tt, set_kernel {| bindings := saved; snapshots := older |} st)
        end.

(** Modelled from the spec: a singleton binding keeps the instance of its
    first resolution. *)
Definition activate (id : InjectionIdentifier) (v : Value) : M unit :=
  λ st, (Ok tt,
         set_kernel
           {| bindings :=
                (λ b, if decide (serviceIdentifier b = id)
                      then {| serviceIdentifier := serviceIdentifier b;
                              implementation := implementation b;
                              bindingScope := bindingScope b;
                              cache := Some v |}
                      else b) <$> bindings (kernel st);
              snapshots := snapshots (kernel st) |} st).

(** [new c(...args)]: a new object that holds the arguments of its
    constructor.  Constructors are taken not to throw. *)
Definition construct (c : Class) (args : list Value) : M Value :=
  if decide (c = ScopeContext.class)
  then alloc (ContextObject ScopeContext.empty)
  else alloc (Instance c args).

Section Resolution.

(** The identifiers of a class's constructor parameters, as the reflection
    metadata gives them. *)
Variable paramTypes : Class → list InjectionIdentifier.

(** [class ScopeContext] declares no constructor, so it has no parameters. *)
Definition constructorParameters (c : Class) : list InjectionIdentifier :=
  if decide (c = ScopeContext.class) then [] else paramTypes c.

(** The instance a singleton binding holds once it has been activated. *)
Definition cached (b : Binding) : option Value :=
  match bindingScope b with
  | SingletonScope => cache b
  | TransientScope => None
  end.

(** Modelled from the spec: what a binding produces.  A class is
    constructed from the resolved identifiers of its constructor parameters,
    a constant is itself, a dynamic value is computed by its closure at
    every resolution.  [kernel_get] resolves the identifiers the producer
    depends on. *)
Definition instantiate (kernel_get : InjectionIdentifier → M Value)
    (b : Binding) : M Value :=
  match implementation b with
  | ToClass c =>
      let* args := mapM kernel_get (constructorParameters c) in
      construct c args
  | ToConstantValue v => ret v
  | ToDynamicValue resource => scopeResourceValue kernel_get resource
  end.

(** Modelled from the spec: resolution "triggers construction per
    producer's declared cardinality"; a singleton is constructed on first
    use and kept in its binding, a transient is constructed every time. *)
Definition resolveBinding (kernel_get : InjectionIdentifier → M Value)
    (id : InjectionIdentifier) (b : Binding) : M Value :=
  match cached b with
  | Some v => ret v
  | None =>
      let* v := instantiate kernel_get b in
      match bindingScope b with
      | SingletonScope => activate id v
      | TransientScope => ret tt
      end ;;
      ret v
  end.

(** Modelled from the spec: [kernel.get(id)] resolves an identifier with
    exactly one binding and throws for an identifier with none or with
    several.  [depth] is the call depth that is left: a resolution that
    nests deeper throws, as a cyclic dependency does. *)
Fixpoint get (depth : nat) (id : InjectionIdentifier) {struct depth} : M Value :=
  match depth with
  | O => throw stack_exhausted
  | S d => λ st,
      match lookup id (kernel st) with
      | [] => (Throw (not_bound id), st)
      | [b] => resolveBinding (get d) id b st
      | _ :: _ :: _ => (Throw (ambiguous id), st)
      end
  end.

End Resolution.

End Kernel.


(** ** Promises and the unit of work *)

(** What the unit of work does with the injected objects: it returns a
    plain value, throws, or returns a promise.  What it does to the objects
    themselves is its own business and is not modelled. *)
Inductive TaskOutcome :=
| TaskReturns (r : Value)
| TaskThrows (e : exn)
| TaskReturnsPromise (p : Settled).

Definition Task := list Value → TaskOutcome.

Module Promise.

(** Modelled from the spec: [Promise.resolve(x)] for a plain value or a
    promise [x]; the result of the unit of work "may be an immediate value
    or an asynchronous result". *)
Definition resolve (x : Value + Settled) : Settled :=
  match x with
  | inl r => Fulfilled r
  | inr p => p
  end.

(** Modelled from the spec: the acquisition error of a disposer array, the
    error of the first disposer whose promise is rejected. *)
Fixpoint firstRejected (ds : list Disposer) : option exn :=
  match ds with
  | [] => None
  | d :: ds' =>
      match disposer_promise d with
      | Rejected e => Some e
      | Fulfilled _ => firstRejected ds'
      end
  end.

(** Modelled from the spec: the cleanup of every disposer whose resource
    was acquired is run, in the order of the array.  Cleanup callbacks are
    taken not to fail. *)
Definition dispose (ds : list Disposer) : M unit :=
  forEach (λ d, match disposer_promise d with
                | Fulfilled _ => emit (CallCleanup d)
                | Rejected _ => ret tt
                end) ds.

(** Modelled from the spec: [Promise.using(disposers, handler)] is
    bluebird's, which is not part of the repository.  It is "a guarantee
    that every deferred release accumulated in the Disposer Set during step
    3 executes after task completes, whether task returns normally, throws,
    or returns a failed asynchronous result"; an acquisition error is to
    "abort run before invoking the unit of work" while "any resources
    already acquired earlier in the same scope must still be released".
    The name [using] is reserved, hence the underscore. *)
Definition using_ (ds : list Disposer) (handler : M Settled) : M Settled :=
  match firstRejected ds with
  | Some e => dispose ds ;; ret (Rejected e)
  | None => λ st,
      match handler st with
      | (Ok p, st') => (dispose ds ;; ret p) st'
      | (Throw e, st') => (dispose ds ;; ret (Rejected e)) st'
      end
  end.

End Promise.

(** [task.apply(null, injectedObjects)]. *)
Definition applyTask (task : Task) (injectedObjects : list Value)
    : M (Value + Settled) :=
  emit (CallTask injectedObjects) ;;
  match task injectedObjects with
  | TaskReturns r => ret (inl r)
  | TaskThrows e => throw e
  | TaskReturnsPromise p => ret (inr p)
  end.

(** ** Scope (di.ts, class Scope) *)

(** [new Scope(kernel, scopeResources)]. *)
Definition newScope (resources : list ScopeResource) : Scope :=
  {| objToBindScopeContext := None;
     injections := [];
     disposers := [];
     scopeResources := resources |}.

Module Scope.

(** [context(contextToBind)]. *)
Definition context (contextToBind : DataObject) (s : Scope) : Scope :=
  {| objToBindScopeContext := Some contextToBind;
     injections := injections s;
     disposers := disposers s;
     scopeResources := scopeResources s |}.

(** [inject(...args)]. *)
Definition inject (args : list InjectionIdentifier) (s : Scope) : Scope :=
  {| objToBindScopeContext := objToBindScopeContext s;
     injections := args;
     disposers := disposers s;
     scopeResources := scopeResources s |}.

(** [scopeContext.setOnce(name, value)] on what the registry returned. *)
Definition invokeSetOnce (scopeContext : Value) (name : string) (val : Value)
    : M unit :=
  match scopeContext with
  | VObject self => ScopeContext.setOnce self name val ;; ret tt
  | VPrimitive _ => throw ScopeContext.not_a_context
  end.

Section Run.

Variable paramTypes : Class → list InjectionIdentifier.
Variable depth : nat.

(** [private bindScopeContext()]. *)
Definition bindScopeContext : M unit :=
  Kernel.bind (IdClass ScopeContext.class) (ToClass ScopeContext.class)
              SingletonScope ;;
  λ st, match objToBindScopeContext (this st) with
        | Some obj =>
            (let* scopeContext :=
               Kernel.get paramTypes depth (IdClass ScopeContext.class) in
             forEach (λ entry, invokeSetOnce scopeContext entry.1 entry.2)
                     (forEachEntries obj)) st
        | None => (Ok tt, st)
        end.

(** The body of the loop of [bindScopeResources]. *)
Definition bindScopeResource (resource : ScopeResource) : M unit :=
  let name := getServiceIdentifierAsString (IdClass (constructor resource)) in
  let instanceBindName := name +:+ "@instance" in
  Kernel.bind (IdString instanceBindName) (ToClass (constructor resource))
              SingletonScope ;;
  Kernel.bind (IdClass (constructor resource)) (ToDynamicValue resource)
              TransientScope.

(** [private bindScopeResources()]. *)
Definition bindScopeResources : M unit :=
  λ st, forEach bindScopeResource (scopeResources (this st)) st.

(** [private injectScopeParameters()]. *)
Definition injectScopeParameters : M (list Value) :=
  λ st, mapM (Kernel.get paramTypes depth) (injections (this st)) st.

(** Steps 1 to 4 of the protocol: what [run] does before it restores the
    registry. *)
Definition resolve : M (list Value) :=
  Kernel.snapshot ;;
  bindScopeContext ;;
  bindScopeResources ;;
  injectScopeParameters.

(** Step 6: the unit of work under the disposers of the scope. *)
Definition runTask (task : Task) (injectedObjects : list Value) : M Settled :=
  λ st,
    let disposerArray := (disposers (this st)).*2 in
    Promise.using_ disposerArray
      (let* r := applyTask task injectedObjects in ret (Promise.resolve r)) st.

(** [run(task)].  The result is [Throw e] when [run] throws, and [Ok p]
    when it returns a promise, which settles as [p]. *)
Definition run (task : Task) : M Settled :=
  Kernel.snapshot ;;
  bindScopeContext ;;
  bindScopeResources ;;
  let* injectedObjects := injectScopeParameters in
  Kernel.restore ;;
  λ st,
    let disposerArray := (disposers (this st)).*2 in
    Promise.using_ disposerArray
      (let* r := applyTask task injectedObjects in ret (Promise.resolve r)) st.

End Run.

End Scope.

(** ** Container (di.ts, class Container)

    The methods return the container for chaining.  [decorateInjectable]
    only writes reflection metadata and logging is left out.
    [bindObjectWrapper], whose binding resolves by [ObjectFactory.get], is
    not among the methods below: [ObjectFactory] is embedded on its own,
    and no registry here holds such a binding. *)

Module Container.

Record t := {
  scopeResources : list ScopeResource;
  boundConstants : list InjectionIdentifier
}.

(** [new Container()], over a registry without bindings. *)
Definition empty : t := {| scopeResources := []; boundConstants := [] |}.

(** [if (this.kernel.isBound(id)) { this.kernel.unbind(id); }]. *)
Definition unbindIfBound (id : InjectionIdentifier) : M unit :=
  λ st, if Kernel.isBound id (kernel st) then Kernel.unbind id st else (Ok tt, st).

Definition bindTransientClass (aClass : Class) (bClass : option Class) (c : t) : M t :=
  let bClass := default aClass bClass in
  unbindIfBound (IdClass aClass) ;;
  Kernel.bind (IdClass aClass) (ToClass bClass) TransientScope ;;
  ret c.

Definition bindScopeResource (aClass : Class) (factory : DisposerFactory) (c : t) : M t :=
  ret {| scopeResources :=
           scopeResources c ++ [{| constructor := aClass; disposerFactory := factory |}];
         boundConstants := boundConstants c |}.

Definition getConstantIdentifierList (c : t) : list InjectionIdentifier :=
  boundConstants c.

Definition bindConstant (identifier : InjectionIdentifier) (val : Value) (c : t) : M t :=
  unbindIfBound identifier ;;
  Kernel.bind identifier (ToConstantValue val) TransientScope ;;
  ret {| scopeResources := scopeResources c;
         boundConstants := boundConstants c ++ [identifier] |}.

(** [scope()]. *)
Definition scope (c : t) : Scope := newScope (scopeResources c).

End Container.

(** A scope as [Container.scope] makes it, configured by [context] and
    [inject] and not yet run: its disposer set is empty. *)
Definition fresh (s : Scope) : Prop := disposers s = [].

(** The state in which scope [s] is the receiver. *)
Definition enter (s : Scope) (st : State) : State := set_this s st.

(** ** Observations on a run *)

(** The exception a call ended with, if any. *)
Definition outcome {A} (r : Result A) : option exn :=
  match r with
  | Ok _ => None
  | Throw e => Some e
  end.

(** What resolution leaves alone: the checkpoints of the registry and the
    configuration of the scope ([Quiet]), and of every binding all but its
    cache, which is only ever filled ([Frame]); references are handed out in
    increasing order. *)
Definition sameBinding (b b' : Binding) : Prop :=
  serviceIdentifier b = serviceIdentifier b' ∧
  implementation b = implementation b' ∧
  bindingScope b = bindingScope b' ∧
  (cache b' = None → cache b = None).

Record Quiet (st st' : State) : Prop := {
  quiet_snapshots : snapshots (kernel st') = snapshots (kernel st);
  quiet_context : objToBindScopeContext (this st') = objToBindScopeContext (this st);
  quiet_injections : injections (this st') = injections (this st);
  quiet_resources : scopeResources (this st') = scopeResources (this st);
  quiet_next_ref : next_ref st ≤ next_ref st'
}.

Definition Frame (st st' : State) : Prop :=
  Quiet st st' ∧ Forall2 sameBinding (bindings (kernel st)) (bindings (kernel st')).

(** The disposers the factory calls of a trace returned, by resource name. *)
Fixpoint recorded (τ : list Event) : list (string * Disposer) :=
  match τ with
  | [] => []
  | CallDisposerFactory name _ (Ok d) :: τ' => (name, d) :: recorded τ'
  | _ :: τ' => recorded τ'
  end.

(** A trace of resolution: only disposer factories are called, each for a
    name that has no disposer yet, and a factory that throws ends it with
    its exception. *)
Fixpoint acquisitions (names : list string) (τ : list Event) (o : option exn) : Prop :=
  match τ with
  | [] => True
  | CallDisposerFactory name _ (Ok _) :: τ' =>
      (name ∉ names) ∧ acquisitions (names ++ [name]) τ' o
  | CallDisposerFactory name _ (Throw e) :: τ' =>
      (name ∉ names) ∧ τ' = [] ∧ o = Some e
  | _ :: _ => False
  end.

(** The calls made between two states and the disposers they left. *)
Definition Steps (st : State) (o : option exn) (st' : State) : Prop :=
  ∃ τ, trace st' = trace st ++ τ ∧
       disposers (this st') = disposers (this st) ++ recorded τ ∧
       acquisitions (disposers (this st)).*1 τ o.

(** Disposers are distinct objects, allocated below the next reference. *)
Definition disposersAllocated (st : State) : Prop :=
  NoDup (disposer_ref <$> (disposers (this st)).*2) ∧
  Forall (λ d, disposer_ref d < next_ref st) (disposers (this st)).*2.

(** What every step of steps 2 to 4 of the protocol satisfies. *)
Definition Calm (st : State) (o : option exn) (st' : State) : Prop :=
  Quiet st st' ∧ Steps st o st' ∧ (disposersAllocated st → disposersAllocated st').

(** The promise [run] returns when the unit of work is invoked. *)
Definition settle (o : TaskOutcome) : Settled :=
  match o with
  | TaskReturns r => Fulfilled r
  | TaskThrows e => Rejected e
  | TaskReturnsPromise p => p
  end.

(** Whether the resource of a disposer was acquired. *)
Definition acquired (d : Disposer) : bool :=
  match disposer_promise d with
  | Fulfilled _ => true
  | Rejected _ => false
  end.

(** The cleanup calls [Promise.using] makes for a list of disposers. *)
Definition cleanups (ds : list Disposer) : list Event :=
  CallCleanup <$> filter (λ d, acquired d = true) ds.

(** The state with further calls recorded. *)
Definition addTrace (τ : list Event) (st : State) : State :=
  {| this := this st; kernel := kernel st; heap := heap st;
     next_ref := next_ref st; trace := trace st ++ τ |}.

(** The number of times a call occurs in a trace. *)
Definition occurrences (ev : Event) (τ : list Event) : nat :=
  length (filter (λ x, x = ev) τ).

(** The resource names of the disposer-factory calls of a trace. *)
Fixpoint factoryCalls (τ : list Event) : list string :=
  match τ with
  | [] => []
  | CallDisposerFactory name _ _ :: τ' => name :: factoryCalls τ'
  | _ :: τ' => factoryCalls τ'
  end.

Definition isFactoryCall (ev : Event) : Prop :=
  ∃ name instance o, ev = CallDisposerFactory name instance o.

(** Identifiers resolved one after the other in the order of the list, each
    in the state its predecessor left, with the objects they resolved to. *)
Inductive resolvedInOrder (paramTypes : Class → list InjectionIdentifier) (depth : nat)
  : list InjectionIdentifier → State → list Value → State → Prop :=
| resolved_nil st : resolvedInOrder paramTypes depth [] st [] st
| resolved_cons id ids st v st1 vs st2 :
    Kernel.get paramTypes depth id st = (Ok v, st1) →
    resolvedInOrder paramTypes depth ids st1 vs st2 →
    resolvedInOrder paramTypes depth (id :: ids) st (v :: vs) st2.

(** ** The instance of a resource in a scope *)

(** The identifier [name + '@instance'] of [bindScopeResources]. *)
Definition instanceBindName (name : string) : InjectionIdentifier :=
  IdString (name +:+ "@instance").

(** The two bindings [bindScopeResources] installs for a resource. *)
Definition isInstanceBinding (name : string) (b : Binding) : Prop :=
  serviceIdentifier b = instanceBindName name ∧
  bindingScope b = SingletonScope ∧
  ∃ c, implementation b = ToClass c.

Definition isResourceBinding (resource : ScopeResource) (b : Binding) : Prop :=
  serviceIdentifier b = IdClass (constructor resource) ∧
  bindingScope b = TransientScope ∧
  implementation b = ToDynamicValue resource.

(** The instance the registry holds for the resource [name]: the cache of
    the one binding of [name + '@instance']. *)
Definition instanceOf (name : string) (st : State) : option Value :=
  match Kernel.lookup (instanceBindName name) (kernel st) with
  | [b] => Kernel.cached b
  | _ => None
  end.

(** Every object was allocated below the next reference. *)
Definition heapAllocated (st : State) : Prop :=
  ∀ ref, next_ref st ≤ ref → heap st !! ref = None.

(** Who is handed the value [v] for the resource in a run that starts in
    [st], makes the calls [calls] and ends in [st']: the unit of work, for a
    declared identifier that is the resource's class; an object constructed
    during the run, for a constructor parameter of that class; the disposer
    factory of the resource. *)
Definition receives (paramTypes : Class → list InjectionIdentifier)
    (resource : ScopeResource) (st : State) (calls : list Event) (st' : State)
    (v : Value) : Prop :=
  (∃ args i, CallTask args ∈ calls ∧
             injections (this st) !! i = Some (IdClass (constructor resource)) ∧
             args !! i = Some v) ∨
  (∃ ref c args j, next_ref st ≤ ref ∧
                   heap st' !! ref = Some (Instance c args) ∧
                   Kernel.constructorParameters paramTypes c !! j =
                     Some (IdClass (constructor resource)) ∧
                   args !! j = Some v) ∨
  (∃ o, CallDisposerFactory (class_name (constructor resource)) v o ∈ calls).

(** What holds of a resource throughout the resolution of a scope that
    started at reference [n0]: its two bindings are installed, the instance
    the registry holds for it was allocated by this scope, and every object
    this scope constructed with a parameter of the resource's class was
    given that instance. *)
Record ResourceInv (paramTypes : Class → list InjectionIdentifier)
    (resource : ScopeResource) (n0 : nat) (st : State) : Prop := {
  inv_instance :
    Exists (isInstanceBinding (class_name (constructor resource)))
           (bindings (kernel st));
  inv_resource : Exists (isResourceBinding resource) (bindings (kernel st));
  inv_next : n0 ≤ next_ref st;
  inv_fresh : ∀ v, instanceOf (class_name (constructor resource)) st = Some v →
                   ∃ ref, v = VObject ref ∧ n0 ≤ ref < next_ref st;
  inv_heap : ∀ ref c args j,
    n0 ≤ ref → heap st !! ref = Some (Instance c args) →
    Kernel.constructorParameters paramTypes c !! j = Some (IdClass (constructor resource)) →
    ∃ v, args !! j = Some v ∧
         instanceOf (class_name (constructor resource)) st = Some v
}.

(** What a resolution that returns adds to it: the instance of the
    resource, once made, stays; it is what the resource's class and its
    instance name resolve to; and it is what the resource's disposer factory
    is called with. *)
Definition Delivered (paramTypes : Class → list InjectionIdentifier)
    (resource : ScopeResource) (n0 : nat) (st st' : State) : Prop :=
  ResourceInv paramTypes resource n0 st' ∧
  (∀ w, instanceOf (class_name (constructor resource)) st = Some w →
        instanceOf (class_name (constructor resource)) st' = Some w) ∧
  (∃ τ, trace st' = trace st ++ τ ∧
        ∀ i o, CallDisposerFactory (class_name (constructor resource)) i o ∈ τ →
               instanceOf (class_name (constructor resource)) st' = Some i).

(** The resource [name] has a disposer in the disposer set of the scope. *)
Definition held (name : string) (st : State) : Prop :=
  name ∈ (disposers (this st)).*1.

(** Every object a scope that started at reference [n0] constructed with a
    parameter of the resource's class was constructed when the resource had
    its disposer. *)
Definition constructedHeld (paramTypes : Class → list InjectionIdentifier)
    (resource : ScopeResource) (n0 : nat) (st : State) : Prop :=
  ∀ ref c args j,
    n0 ≤ ref → heap st !! ref = Some (Instance c args) →
    Kernel.constructorParameters paramTypes c !! j = Some (IdClass (constructor resource)) →
    held (class_name (constructor resource)) st.

(** ** Dependencies between identifiers *)

(** What resolving through a binding resolves next. *)
Definition needs (paramTypes : Class → list InjectionIdentifier) (b : Binding)
    (id : InjectionIdentifier) : Prop :=
  match implementation b with
  | ToClass c => id ∈ Kernel.constructorParameters paramTypes c
  | ToConstantValue _ => False
  | ToDynamicValue resource =>
      id = instanceBindName (class_name (constructor resource))
  end.

(** [id] is resolved through a binding that holds no instance and needs
    [id']. *)
Definition Link (paramTypes : Class → list InjectionIdentifier) (st : State)
    (id id' : InjectionIdentifier) : Prop :=
  ∃ b, Kernel.lookup id (kernel st) = [b] ∧ Kernel.cached b = None ∧
       needs paramTypes b id'.

(** Resolving [id] leads to resolving [target]. *)
Inductive Path (paramTypes : Class → list InjectionIdentifier) (st : State)
    (target : InjectionIdentifier) : InjectionIdentifier → Prop :=
| path_here : Path paramTypes st target target
| path_step id id' :
    Link paramTypes st id id' →
    Path paramTypes st target id' →
    Path paramTypes st target id.

(** Resolving [target] leads back to resolving [target]. *)
Definition Cyclic (paramTypes : Class → list InjectionIdentifier) (st : State)
    (target : InjectionIdentifier) : Prop :=
  ∃ id', Link paramTypes st target id' ∧ Path paramTypes st target id'.

(** ** Histories of a scope context *)

(** The state after a call, whether it returned or threw. *)
Definition after {A} (m : M A) (st : State) : State := (m st).2.

(** A sequence of [setOnce] calls on the context object [self], each
    attempted whether or not the previous one threw. *)
Definition setOnceAll (self : nat) (calls : list (string * Value)) (st : State) : State :=
  foldl (λ st' call, after (ScopeContext.setOnce self call.1 call.2) st') st calls.

(** The value of the first call that names [name]. *)
Definition firstSet (name : string) (calls : list (string * Value)) : option Value :=
  snd <$> head (filter (λ call, call.1 = name) calls).

(** Whether a string ends with another one. *)
Fixpoint endsWith (suffix s : string) : bool :=
  if decide (s = suffix) then true
  else match s with
       | EmptyString => false
       | String _ s' => endsWith suffix s'
       end.

(** ** The container of the test suite *)

Module Fixture.

Definition Foo : Class := {| class_id := 1; class_name := "Foo" |}.
Definition Bar : Class := {| class_id := 2; class_name := "Bar" |}.
Definition FooFoo : Class := {| class_id := 3; class_name := "FooFoo" |}.
Definition Resource : Class := {| class_id := 4; class_name := "Resource" |}.
Definition Baz : Class := {| class_id := 5; class_name := "Baz" |}.
Definition BazBaz : Class := {| class_id := 6; class_name := "BazBaz" |}.
Definition Lock : Class := {| class_id := 7; class_name := "Lock" |}.

(** [constructor(@inject public foo: Foo)] and the like. *)
Definition paramTypes (c : Class) : list InjectionIdentifier :=
  if decide (c = Bar) then [IdClass Foo]
  else if decide (c = FooFoo) then [IdClass ScopeContext.class]
  else if decide (c = Baz) then [IdClass Resource]
  else if decide (c = BazBaz) then [IdClass Resource]
  else [].

(** [Bluebird.resolve(resource.acquire()).disposer(() => resource.release())]
    with [acquire] returning [this]. *)
Definition disposerFactory : DisposerFactory := λ resource, Ok (Fulfilled resource).

(** A factory whose [acquire] throws before a promise is made. *)
Definition throwingFactory : DisposerFactory := λ _, Throw (Error "busy").

(** A factory whose [acquire] returns a rejected promise. *)
Definition rejectingFactory : DisposerFactory := λ _, Ok (Rejected (Error "busy")).

Definition initial : State :=
  {| this := newScope [];
     kernel := {| bindings := []; snapshots := [] |};
     heap := ∅; next_ref := 1; trace := [] |}.

(** [beforeAll]: the bindings of the test suite. *)
Definition beforeAll : M Container.t :=
  let* c := Container.bindTransientClass Foo None Container.empty in
  let* c := Container.bindTransientClass Bar None c in
  let* c := Container.bindTransientClass Baz None c in
  let* c := Container.bindTransientClass FooFoo None c in
  let* c := Container.bindTransientClass BazBaz None c in
  let* c := Container.bindScopeResource Resource disposerFactory c in
  Container.bindConstant (IdString "Constant") (VPrimitive "constant") c.

(** The container and the state after [beforeAll]. *)
Definition container : Container.t :=
  match beforeAll initial with
  | (Ok c, _) => c
  | (Throw _, _) => Container.empty
  end.
Definition world : State := after beforeAll initial.

(** The same container with a second resource, [Lock]. *)
Definition withLock (factory : DisposerFactory) : Container.t :=
  match Container.bindScopeResource Lock factory container world with
  | (Ok c, _) => c
  | (Throw _, _) => container
  end.

(** A resource whose class has the name of a method every object
    inherits, registered with the container after [Resource]. *)
Definition valueOf : Class := {| class_id := 8; class_name := "valueOf" |}.

Definition withValueOf : Container.t :=
  match Container.bindScopeResource valueOf disposerFactory container world with
  | (Ok c, _) => c
  | (Throw _, _) => container
  end.

(** A state in which reference 0 is a scope context holding [fooField]. *)
Definition contextWorld : State :=
  set_heap {[ 0 := ContextObject {| context := {[ "fooField" := VPrimitive "foo" ]};
                                    contextPrototype := ObjectPrototype |} ]}
           initial.

Definition task : Task := λ _, TaskReturns (VPrimitive "done").
Definition failingTask : Task := λ _, TaskThrows (Error "task failed").

End Fixture.

(** ** Reading constants (di.ts, Container.getConstantValue) *)

(** [getConstantValue(identifier)]: [this.kernel.get(identifier)], outside
    of any scope. *)
Definition getConstantValue (paramTypes : Class → list InjectionIdentifier)
    (depth : nat) (identifier : InjectionIdentifier) : M Value :=
  Kernel.get paramTypes depth identifier.

(** The calls of a trace to the unit of work. *)
Definition taskCalls (τ : list Event) : list (list Value) :=
  omap (λ ev, match ev with CallTask args => Some args | _ => None end) τ.

(** ** Observations on registration *)

(** The registry after an identifier was bound anew: its earlier bindings
    are removed and the new one is added. *)
Definition rebound (id : InjectionIdentifier) (impl : Implementation)
    (sc : BindingScope) (st : State) : State :=
  set_kernel {| bindings := filter (λ b, serviceIdentifier b ≠ id) (bindings (kernel st))
                              ++ [Kernel.newBinding id impl sc];
                snapshots := snapshots (kernel st) |} st.

(** An identifier that cannot be resolved: it has several bindings, or its
    one binding is the closure of a resource whose instance name has
    several. *)
Definition Doomed (st : State) (id : InjectionIdentifier) : Prop :=
  2 ≤ length (Kernel.lookup id (kernel st)) ∨
  ∃ b resource,
    Kernel.lookup id (kernel st) = [b] ∧
    implementation b = ToDynamicValue resource ∧
    bindingScope b = TransientScope ∧
    2 ≤ length (Kernel.lookup (instanceBindName (class_name (constructor resource)))
                              (kernel st)).

(** ** The scope context in a run *)

(** The binding [bindScopeContext] installs. *)
Definition isContextBinding (b : Binding) : Prop :=
  serviceIdentifier b = IdClass ScopeContext.class ∧
  implementation b = ToClass ScopeContext.class ∧
  bindingScope b = SingletonScope.

(** The scope context the registry holds: the cache of the one binding of
    [ScopeContext]. *)
Definition contextOf (st : State) : option Value :=
  match Kernel.lookup (IdClass ScopeContext.class) (kernel st) with
  | [b] => Kernel.cached b
  | _ => None
  end.

(** Who is handed the value [v] for the scope context in a run that starts
    in [st], makes the calls [calls] and ends in [st']: the unit of work, for
    a declared identifier that is [ScopeContext]; an object constructed
    during the run, for a constructor parameter of that class. *)
Definition receivesContext (paramTypes : Class → list InjectionIdentifier)
    (st : State) (calls : list Event) (st' : State) (v : Value) : Prop :=
  (∃ args i, CallTask args ∈ calls ∧
             injections (this st) !! i = Some (IdClass ScopeContext.class) ∧
             args !! i = Some v) ∨
  (∃ ref c args j, next_ref st ≤ ref < next_ref st' ∧
                   heap st' !! ref = Some (Instance c args) ∧
                   Kernel.constructorParameters paramTypes c !! j =
                     Some (IdClass ScopeContext.class) ∧
                   args !! j = Some v).

(** Context data that [_.forEach] visits by its own keys, none of which is
    [__proto__] or [hasOwnProperty]. *)
Definition plainData (data : DataObject) : Prop :=
  ownProperty "length" data ≫= isLength = None ∧
  ("__proto__" ∉ data.*1) ∧ ("hasOwnProperty" ∉ data.*1).

(** What holds of the scope context throughout the resolution of a scope
    that started at reference [n0]: it has its one binding; the object the
    registry holds for it was allocated by this scope and has the fields
    [F]; and every object this scope constructed with a parameter of class
    [ScopeContext] was given that object. *)
Record ContextInv (paramTypes : Class → list InjectionIdentifier)
    (F : ScopeContextFields) (n0 : nat) (st : State) : Prop := {
  ctx_binding : ∃ b, Kernel.lookup (IdClass ScopeContext.class) (kernel st) = [b] ∧
                     isContextBinding b;
  ctx_fresh : ∀ v, contextOf st = Some v →
                   ∃ ref, v = VObject ref ∧ n0 ≤ ref < next_ref st ∧
                          heap st !! ref = Some (ContextObject F);
  ctx_empty : contextOf st = None → F = ScopeContext.empty;
  ctx_heap : ∀ ref c args j,
    n0 ≤ ref < next_ref st → heap st !! ref = Some (Instance c args) →
    Kernel.constructorParameters paramTypes c !! j = Some (IdClass ScopeContext.class) →
    ∃ v, args !! j = Some v ∧ contextOf st = Some v;
  ctx_allocated : heapAllocated st;
  ctx_next : n0 ≤ next_ref st
}.

(** What a resolution that returns adds to it: the scope context, once
    made, stays. *)
Definition ContextKept (paramTypes : Class → list InjectionIdentifier)
    (F : ScopeContextFields) (n0 : nat) (st st' : State) : Prop :=
  ContextInv paramTypes F n0 st' ∧ next_ref st ≤ next_ref st' ∧
  (∀ w, contextOf st = Some w → contextOf st' = Some w).

(** ** ObjectFactory (object-factory.ts) *)

Module ObjectFactory.

(** The calls the factory makes on a wrapper class, by the name of the
    class. *)
Inductive WrapperCall :=
| CallNew (name : string)
| CallInitialize (name : string)
| CallOnInitialized (name : string).

#[global] Instance WrapperCall_eq_dec : EqDecision WrapperCall.
Proof. solve_decision. Defined.

Section Wrappers.

(** The fields of a wrapper object.  [ObjectWrapper] is not among the
    sources: what the constructor of a wrapper class, its methods
    [initialize] and [onInitialized] and its getter [Object] do is given
    with the class.  A method returns or throws and leaves the fields of its
    wrapper in some state either way; it is taken to act on its own wrapper
    only.  The getter reads the fields: it returns a value, [None] for
    [undefined], or throws, and changes nothing. *)
Variable W : Type.

Record WrapperClass := {
  wrapper_name : string;
  wrapper_new : Result W;
  wrapper_initialize : W → Result unit * W;
  wrapper_onInitialized : W → Result unit * W;
  wrapper_Object : W → Result (option Value)
}.

(** A wrapper object: an instance of its class. *)
Record Wrapper := {
  wrapper_class : WrapperClass;
  wrapper_fields : W
}.

(** [private static models: { [name: string]: any } = {}], and the calls
    made so far.  [models] holds the own properties of the object, which
    inherits the properties of [Object.prototype]. *)
Record Factory := {
  models : gmap string Wrapper;
  calls : list WrapperCall
}.

Definition empty : Factory := {| models := ∅; calls := [] |}.

(** [this.models[name] = instance], and what a method call left of the
    fields of [instance]. *)
Definition store (name : string) (Class : WrapperClass) (w : W) (call : WrapperCall)
    (f : Factory) : Factory :=
  {| models := <[name := {| wrapper_class := Class; wrapper_fields := w |}]> (models f);
     calls := calls f ++ [call] |}.

(** [instance.Object]: [None] is [undefined]. *)
Definition Object (instance : Wrapper) : Result (option Value) :=
  wrapper_Object (wrapper_class instance) (wrapper_fields instance).

(** [ObjectFactory.get(Class)].  For a class named as a property of
    [Object.prototype], [this.models[name]] is that property, which is
    truthy and has no property [Object]: the class is never constructed and
    [get] returns [undefined]. *)
Definition get (Class : WrapperClass) (f : Factory) : Result (option Value) * Factory :=
  let name := wrapper_name Class in
  match models f !! name with
  | Some instance => (Object instance, f)
  | None =>
      if inherited name then (Ok None, f) else
      match wrapper_new Class with
      | Throw e =>
          (Throw e, {| models := models f; calls := calls f ++ [CallNew name] |})
      | Ok w0 =>
          let f0 := store name Class w0 (CallNew name) f in
          let '(r1, w1) := wrapper_initialize Class w0 in
          let f1 := store name Class w1 (CallInitialize name) f0 in
          match r1 with
          | Throw e => (Throw e, f1)
          | Ok _ =>
              let '(r2, w2) := wrapper_onInitialized Class w1 in
              let f2 := store name Class w2 (CallOnInitialized name) f1 in
              match r2 with
              | Throw e => (Throw e, f2)
              | Ok _ => (wrapper_Object Class w2, f2)
              end
          end
      end
  end.

(** A sequence of [get] calls, each made whether or not the previous one
    threw. *)
Definition getAll (classes : list WrapperClass) (f : Factory) : Factory :=
  foldl (λ f' Class, (get Class f').2) f classes.

End Wrappers.

Arguments wrapper_name {W} _.
Arguments wrapper_new {W} _.
Arguments wrapper_initialize {W} _ _.
Arguments wrapper_onInitialized {W} _ _.
Arguments wrapper_Object {W} _ _.
Arguments wrapper_class {W} _.
Arguments wrapper_fields {W} _.
Arguments models {W} _.
Arguments calls {W} _.
Arguments empty {W}.
Arguments store {W} _ _ _ _ _.
Arguments Object {W} _.
Arguments get {W} _ _.
Arguments getAll {W} _ _.

(** The number of times a call was made. *)
Definition timesCalled {W} (call : WrapperCall) (f : Factory W) : nat :=
  length (filter (λ x, x = call) (calls f)).

End ObjectFactory.

(** The wrapper of the test suite, [FooWrapper], whose [initialize] sets
    [this.object = new Foo()], and a wrapper whose [initialize] throws
    before it sets the object.  The fields of a wrapper are its [object];
    the getter returns it, and the getter of [Guarded] throws while it is
    not set. *)
Module FixtureWrappers.

Definition FooWrapper (foo : Value) : ObjectFactory.WrapperClass (option Value) :=
  {| ObjectFactory.wrapper_name := "FooWrapper";
     ObjectFactory.wrapper_new := Ok None;
     ObjectFactory.wrapper_initialize := λ _, (Ok tt, Some foo);
     ObjectFactory.wrapper_onInitialized := λ object, (Ok tt, object);
     ObjectFactory.wrapper_Object := λ object, Ok object |}.

Definition Unready : ObjectFactory.WrapperClass (option Value) :=
  {| ObjectFactory.wrapper_name := "Unready";
     ObjectFactory.wrapper_new := Ok None;
     ObjectFactory.wrapper_initialize := λ object, (Throw (Error "not ready"), object);
     ObjectFactory.wrapper_onInitialized := λ object, (Ok tt, object);
     ObjectFactory.wrapper_Object := λ object, Ok object |}.

Definition Guarded : ObjectFactory.WrapperClass (option Value) :=
  {| ObjectFactory.wrapper_name := "Guarded";
     ObjectFactory.wrapper_new := Ok None;
     ObjectFactory.wrapper_initialize := λ object, (Throw (Error "not ready"), object);
     ObjectFactory.wrapper_onInitialized := λ object, (Ok tt, object);
     ObjectFactory.wrapper_Object := λ object,
       match object with
       | Some _ => Ok object
       | None => Throw (Error "not initialized")
       end |}.

(** A wrapper class named as a method of [Object.prototype]. *)
Definition toString (foo : Value) : ObjectFactory.WrapperClass (option Value) :=
  {| ObjectFactory.wrapper_name := "toString";
     ObjectFactory.wrapper_new := Ok None;
     ObjectFactory.wrapper_initialize := λ _, (Ok tt, Some foo);
     ObjectFactory.wrapper_onInitialized := λ object, (Ok tt, object);
     ObjectFactory.wrapper_Object := λ object, Ok object |}.

End FixtureWrappers.

(** ** Decorators (di.ts, Di.inject and Di.scope) *)

Module Di.

(** An entry of the metadata ['island:injectiontag'] of a method: the index
    of a parameter and the identifier to inject there.  [None] is
    [undefined]. *)
Record InjectionTag := {
  tag_index : nat;
  tag_id : option InjectionIdentifier
}.

(** The reflection metadata the decorators read and write, by target object
    and property key; the key of a constructor is [undefined], [None].
    ['design:paramtypes'] is what the compiler emits for the parameters of a
    method.  [inversify.inject(id)(target, key, index)] is inversify's: its
    calls are recorded and taken to return. *)
Record Metadata := {
  designParamTypes : gmap (nat * option string) (list InjectionIdentifier);
  islandInjectionTags : gmap (nat * string) (list InjectionTag);
  inversifyInject : list (nat * nat * option InjectionIdentifier)
}.

Definition metadataError : exn :=
  Error "error on collecting metadata. check compiler option emitDecoratorMetadata is true".

(** [getParamType(target, key, index)]: [paramTypes[index]], which is
    [undefined] past the end of the array. *)
Definition getParamType (target : nat) (key : option string) (index : nat)
    (md : Metadata) : Result (option InjectionIdentifier) :=
  match designParamTypes md !! (target, key) with
  | None => Throw metadataError
  | Some paramTypes => Ok (paramTypes !! index)
  end.

(** [injectDecoratorFactory(id)(target, key, index)]. *)
Definition injectDecoratorFactory (id : option InjectionIdentifier)
    (target : nat) (key : option string) (index : nat) (md : Metadata) : Metadata :=
  match key with
  | None =>
      {| designParamTypes := designParamTypes md;
         islandInjectionTags := islandInjectionTags md;
         inversifyInject := inversifyInject md ++ [(target, index, id)] |}
  | Some key =>
      let injectionTags := default [] (islandInjectionTags md !! (target, key)) in
      {| designParamTypes := designParamTypes md;
         islandInjectionTags :=
           <[(target, key) := injectionTags ++ [{| tag_index := index; tag_id := id |}]]>
             (islandInjectionTags md);
         inversifyInject := inversifyInject md |}
  end.

(** [inject(target, key, index)] with a numeric [index], the use as
    [@inject] on a parameter.  Without an index, the use as [@inject(id)],
    [inject(id)] returns [injectDecoratorFactory(id)], the definition
    above. *)
Definition inject (target : nat) (key : option string) (index : nat)
    (md : Metadata) : Result unit * Metadata :=
  match getParamType target key index md with
  | Throw e => (Throw e, md)
  | Ok id => (Ok tt, injectDecoratorFactory id target key index md)
  end.

(** [args[index] = x] on a JavaScript array: an index past the end extends
    the array, and the elements in between are [undefined]. *)
Definition assign (index : nat) (x : option Value) (args : list (option Value))
    : list (option Value) :=
  if decide (index < length args) then <[index := x]> args
  else args ++ replicate (index - length args) None ++ [x].

(** [injectionTags.forEach((tag, i) => { args[tag.index] = injectedObjects[i]; })],
    from the tag at position [i] on. *)
Fixpoint overrideParameters (i : nat) (injectionTags : list InjectionTag)
    (injectedObjects : list Value) (args : list (option Value))
    : list (option Value) :=
  match injectionTags with
  | [] => args
  | tag :: tags =>
      overrideParameters (S i) tags injectedObjects
        (assign (tag_index tag) (injectedObjects !! i) args)
  end.

(** [injectionTags.map(tag => tag.id)], when no identifier is [undefined]. *)
Fixpoint tagIdentifiers (injectionTags : list InjectionTag)
    : option (list InjectionIdentifier) :=
  match injectionTags with
  | [] => Some []
  | tag :: tags =>
      match tag_id tag, tagIdentifiers tags with
      | Some id, Some ids => Some (id :: ids)
      | _, _ => None
      end
  end.

(** A method: what [method.apply(this, args)] does with its arguments. *)
Definition Method := list (option Value) → TaskOutcome.

(** The function [scope(target, name, descriptor)] stores in
    [descriptor.value], called with [args] when the metadata is [md].  The
    scope is made by the container [Di.container].  A tag without an
    identifier makes the scope ask the registry for [undefined], which is
    not modelled: the call is then [None].  The own properties of the
    method, which [scope] copies to the function, play no part in a call
    and are left out. *)
Definition scope (paramTypes : Class → list InjectionIdentifier) (depth : nat)
    (container : Container.t) (target : nat) (name : string) (method : Method)
    (md : Metadata) (args : list (option Value)) : option (M Settled) :=
  let injectionTags := default [] (islandInjectionTags md !! (target, name)) in
  match tagIdentifiers injectionTags with
  | None => None
  | Some identifiers =>
      Some (λ st,
        Scope.run paramTypes depth
          (λ injectedObjects,
             method (overrideParameters 0 injectionTags injectedObjects args))
          (enter (Scope.inject identifiers (Container.scope container)) st))
  end.

(** [bindTransientClass(aClass)]: on the container [Di.container]. *)
Definition bindTransientClass (aClass : Class) (container : Container.t) : M Container.t :=
  Container.bindTransientClass aClass None container.

End Di.

(** [TestScopeMethod.method(s: string, @inject foo?: Foo, @inject(Bar) bar?)]
    of the test suite: the metadata after its parameter decorators ran, the
    last parameter first. *)
Module FixtureDecorators.

Definition String : Class := {| class_id := 20; class_name := "String" |}.
Definition Object : Class := {| class_id := 21; class_name := "Object" |}.

(** The prototype of [TestScopeMethod]. *)
Definition prototype : nat := 100.

Definition emitted : Di.Metadata :=
  {| Di.designParamTypes :=
       {[ (prototype, Some "method") :=
            [IdClass String; IdClass Fixture.Foo; IdClass Object] ]};
     Di.islandInjectionTags := ∅;
     Di.inversifyInject := [] |}.

Definition decorated : Di.Metadata :=
  (Di.inject prototype (Some "method") 1
     (Di.injectDecoratorFactory (Some (IdClass Fixture.Bar)) prototype (Some "method") 2
        emitted)).2.

(** [return {foo, bar}], here the second of the two. *)
Definition method : Di.Method :=
  λ args, match args !! 2 with
          | Some (Some bar) => TaskReturns bar
          | _ => TaskThrows (Error "bar is undefined")
          end.

End FixtureDecorators.

(** ** Demand for a resource *)

(** Resolving [id] in [st] leads to the closure of a resource named
    [name]: to an identifier whose one binding, holding no instance, is the
    dynamic value [bindScopeResources] makes for such a resource. *)
Definition Demanded (paramTypes : Class → list InjectionIdentifier) (st : State)
    (name : string) (id : InjectionIdentifier) : Prop :=
  ∃ target b resource,
    Path paramTypes st target id ∧
    Kernel.lookup target (kernel st) = [b] ∧
    Kernel.cached b = None ∧
    implementation b = ToDynamicValue resource ∧
    class_name (constructor resource) = name.

(** * Properties *)

(** ** Inversion of sequencing *)

Lemma bind_Ok {A B} (m : M A) (k : A → M B) st a st1 :
  m st = (Ok a, st1) → bind m k st = k a st1.
Proof. intros H. unfold bind. by rewrite H. Qed.

Lemma bind_Throw {A B} (m : M A) (k : A → M B) st e st1 :
  m st = (Throw e, st1) → bind m k st = (Throw e, st1).
Proof. intros H. unfold bind. by rewrite H. Qed.

Lemma bind_inv {A B} (m : M A) (k : A → M B) st r st' :
  bind m k st = (r, st') →
  (∃ a st1, m st = (Ok a, st1) ∧ k a st1 = (r, st')) ∨
  (∃ e, m st = (Throw e, st') ∧ r = Throw e).
Proof.
  unfold bind. destruct (m st) as [[a|e] st1]; intros H.
  - left. eauto.
  - right. inversion H; subst. eauto.
Qed.

(** A string that is not among the strings of a list given in full. *)
Ltac not_member :=
  let H := fresh in
  simpl; intros H;
  repeat (apply elem_of_cons in H as [H|H]; [discriminate H|]);
  by apply elem_of_nil in H.

(** ** The methods of a scope context *)

Lemma callable_spec fields :
  ScopeContext.callable fields = true ↔
  context fields !! "hasOwnProperty" = None ∧ contextPrototype fields ≠ NullPrototype.
Proof. unfold ScopeContext.callable. apply bool_decide_eq_true. Qed.

Lemma hasOwnProperty_callable fields name :
  ScopeContext.callable fields = true →
  ScopeContext.hasOwnProperty fields name =
    Ok (bool_decide (is_Some (context fields !! name))).
Proof. intros H. unfold ScopeContext.hasOwnProperty. by rewrite H. Qed.

Lemma hasOwnProperty_shadowed fields name :
  ScopeContext.callable fields = false →
  ScopeContext.hasOwnProperty fields name = Throw ScopeContext.not_a_function.
Proof. intros H. unfold ScopeContext.hasOwnProperty. by rewrite H. Qed.

Lemma assign_key name val fields :
  name ≠ "__proto__" →
  ScopeContext.assign name val fields =
    {| context := <[name := val]> (context fields);
       contextPrototype := contextPrototype fields |}.
Proof.
  intros Hne. unfold ScopeContext.assign. rewrite decide_False; [done|]. by intros [? _].
Qed.

(** An assignment never takes an own property away, and adds at most the
    one of its name. *)
Lemma assign_lookup_ne name val fields other :
  other ≠ name →
  context (ScopeContext.assign name val fields) !! other = context fields !! other.
Proof.
  intros Hne. unfold ScopeContext.assign. case_decide.
  - by destruct val as [ref|[]].
  - simpl. by rewrite lookup_insert_ne.
Qed.

Lemma setOnce_unset st self fields name val :
  heap st !! self = Some (ContextObject fields) →
  ScopeContext.callable fields = true →
  context fields !! name = None →
  ScopeContext.setOnce self name val st =
    (Ok (VObject self),
     set_heap (<[self := ContextObject (ScopeContext.assign name val fields)]>
                 (heap st)) st).
Proof.
  intros Hh Hc Hn. unfold ScopeContext.setOnce.
  rewrite Hh, (hasOwnProperty_callable _ _ Hc), Hn.
  rewrite bool_decide_eq_false_2; [done|]. by intros [? ?].
Qed.

Lemma setOnce_set st self fields name val old :
  heap st !! self = Some (ContextObject fields) →
  ScopeContext.callable fields = true →
  context fields !! name = Some old →
  ScopeContext.setOnce self name val st = (Throw (ScopeContext.duplicate_key name), st).
Proof.
  intros Hh Hc Hn. unfold ScopeContext.setOnce.
  rewrite Hh, (hasOwnProperty_callable _ _ Hc), Hn. by rewrite bool_decide_eq_true_2.
Qed.

Lemma setOnce_shadowed st self fields name val :
  heap st !! self = Some (ContextObject fields) →
  ScopeContext.callable fields = false →
  ScopeContext.setOnce self name val st = (Throw ScopeContext.not_a_function, st).
Proof.
  intros Hh Hc. unfold ScopeContext.setOnce.
  by rewrite Hh, (hasOwnProperty_shadowed _ _ Hc).
Qed.

Lemma get_spec st self fields name :
  heap st !! self = Some (ContextObject fields) →
  ScopeContext.callable fields = true →
  ScopeContext.get self name st =
    (match context fields !! name with
     | Some v => Ok v
     | None => Throw (ScopeContext.missing_key name)
     end, st).
Proof.
  intros Hh Hc. unfold ScopeContext.get.
  rewrite Hh, (hasOwnProperty_callable _ _ Hc).
  destruct (context fields !! name) as [v|] eqn:Hn.
  - by rewrite bool_decide_eq_true_2.
  - rewrite bool_decide_eq_false_2; [done|]. by intros [? ?].
Qed.

Lemma get_shadowed st self fields name :
  heap st !! self = Some (ContextObject fields) →
  ScopeContext.callable fields = false →
  ScopeContext.get self name st = (Throw ScopeContext.not_a_function, st).
Proof.
  intros Hh Hc. unfold ScopeContext.get.
  by rewrite Hh, (hasOwnProperty_shadowed _ _ Hc).
Qed.

(** A step of [setOnce]: whatever it does, it leaves everything but the
    fields of its receiver alone. *)
Lemma setOnce_inv self name val st r st' :
  ScopeContext.setOnce self name val st = (r, st') →
  st' = st ∨
  ∃ fields, heap st !! self = Some (ContextObject fields) ∧
            st' = set_heap (<[self := ContextObject (ScopeContext.assign name val fields)]>
                              (heap st)) st.
Proof.
  unfold ScopeContext.setOnce. intros H.
  destruct (heap st !! self) as [[|fields]|]; try (inversion H; by left).
  destruct (ScopeContext.hasOwnProperty fields name) as [[]|];
    inversion H; subst; [by left| |by left].
  right. by exists fields.
Qed.

(** ** Data objects *)

Lemma arrayIndex_Some key n : arrayIndex key = Some n → pretty n = key.
Proof.
  unfold arrayIndex. destruct (parseDecimal key 0) as [m|]; [|done].
  case_decide as H; [|done]. intros [= <-]. by destruct H.
Qed.

Lemma NoDup_definedKeys object : NoDup (definedKeys object).
Proof. unfold definedKeys. rewrite reverse_Permutation. apply NoDup_remove_dups. Qed.

Lemma elem_of_definedKeys object key : key ∈ definedKeys object ↔ key ∈ object.*1.
Proof.
  unfold definedKeys. by rewrite elem_of_reverse, elem_of_remove_dups, elem_of_reverse.
Qed.

Lemma elem_of_indices (keys : list string) n :
  n ∈ omap arrayIndex keys ↔ pretty n ∈ keys ∧ arrayIndex (pretty n) = Some n.
Proof.
  rewrite list_elem_of_omap. split.
  - intros (key & Hin & Hn). pose proof (arrayIndex_Some _ _ Hn) as <-. done.
  - intros [Hin Hn]. eauto.
Qed.

Lemma NoDup_indices (keys : list string) : NoDup keys → NoDup (omap arrayIndex keys).
Proof.
  induction 1 as [|key keys Hnin Hnd IH]; simpl; [constructor|].
  destruct (arrayIndex key) as [n|] eqn:Hn; [|done].
  constructor; [|done]. rewrite elem_of_indices. intros [Hin _].
  by rewrite (arrayIndex_Some _ _ Hn) in Hin.
Qed.

Lemma elem_of_ownKeys object key : key ∈ ownKeys object ↔ key ∈ object.*1.
Proof.
  rewrite <- elem_of_definedKeys. unfold ownKeys.
  rewrite elem_of_app, list_elem_of_fmap, list_elem_of_filter. split.
  - intros [(n & -> & Hn)|[_ ?]]; [|done].
    rewrite merge_sort_Permutation in Hn. by apply elem_of_indices in Hn as [? _].
  - intros Hin. destruct (arrayIndex key) as [n|] eqn:Hn; [left|by right].
    exists n. pose proof (arrayIndex_Some _ _ Hn) as <-. split; [done|].
    rewrite merge_sort_Permutation. by apply elem_of_indices.
Qed.

Lemma NoDup_ownKeys object : NoDup (ownKeys object).
Proof.
  unfold ownKeys. apply NoDup_app. split; [|split].
  - apply (NoDup_fmap_2 _). rewrite merge_sort_Permutation.
    apply NoDup_indices, NoDup_definedKeys.
  - intros key (n & -> & Hn)%list_elem_of_fmap [Hnone _]%list_elem_of_filter.
    rewrite merge_sort_Permutation in Hn. apply elem_of_indices in Hn as [_ Hn].
    congruence.
  - apply NoDup_filter, NoDup_definedKeys.
Qed.

Lemma ownProperty_is_Some object key : is_Some (ownProperty key object) ↔ key ∈ object.*1.
Proof.
  unfold ownProperty. rewrite fmap_is_Some. split.
  - intros [[k v] Hl]. apply last_Some in Hl as (l' & Hl).
    assert ((k, v) ∈ filter (λ member : string * Value, member.1 = key) object) as Hin
      by (rewrite Hl; apply elem_of_app; right; left).
    apply list_elem_of_filter in Hin as [Hk Hin]. simpl in Hk. subst k.
    apply list_elem_of_fmap. by exists (key, v).
  - intros ([k v] & -> & Hin)%list_elem_of_fmap.
    assert ((k, v) ∈ filter (λ member : string * Value, member.1 = (k, v).1) object) as Hf
      by (by apply list_elem_of_filter).
    destruct (filter _ object) as [|x l] eqn:Hl using rev_ind;
      [by apply elem_of_nil in Hf|].
    rewrite last_snoc. by eexists.
Qed.

Lemma fst_ownEntries object : (ownEntries object).*1 = ownKeys object.
Proof.
  unfold ownEntries. rewrite <- list_fmap_compose. simpl.
  induction (ownKeys object) as [|k l IH]; simpl; [done|by f_equal].
Qed.

(** The own properties, looked up by key. *)
Lemma lookup_ownEntries object key :
  (list_to_map (ownEntries object) : gmap string Value) !! key = ownProperty key object.
Proof.
  destruct (ownProperty key object) as [v|] eqn:Hp.
  - apply elem_of_list_to_map; [rewrite fst_ownEntries; apply NoDup_ownKeys|].
    unfold ownEntries. apply list_elem_of_fmap. exists key. rewrite Hp. split; [done|].
    apply elem_of_ownKeys, ownProperty_is_Some. by rewrite Hp.
  - apply not_elem_of_list_to_map. rewrite fst_ownEntries, elem_of_ownKeys.
    rewrite <- ownProperty_is_Some, Hp. by intros [? ?].
Qed.

Lemma isLength_spec value n :
  isLength value = Some n →
  ∃ z, value = VPrimitive (PNumber z) ∧ (0 ≤ z ≤ MAX_SAFE_INTEGER)%Z ∧ n = Z.to_nat z.
Proof.
  destruct value as [ref|[s|z|b| |]]; simpl; try done.
  case_decide; [|done]. intros [= <-]. eauto.
Qed.

(** [_.forEach] visits every name once. *)
Lemma NoDup_forEachEntries collection : NoDup (forEachEntries collection).*1.
Proof.
  unfold forEachEntries. destruct (_ ≫= isLength) as [n|].
  - rewrite <- list_fmap_compose.
    apply (NoDup_fmap_2 (λ index : nat, pretty index)), NoDup_seq.
  - rewrite fst_ownEntries. apply NoDup_ownKeys.
Qed.

(** An object that is not taken for an array is visited by its own
    properties. *)
Lemma forEachEntries_object collection :
  ownProperty "length" collection ≫= isLength = None →
  forEachEntries collection = ownEntries collection.
Proof. intros H. unfold forEachEntries. by rewrite H. Qed.

(** ** The guard of a resource's closure *)

Lemma hasDisposer_false name ds :
  hasDisposer name ds = false ↔ lookupDisposer name ds = None ∧ inherited name = false.
Proof.
  unfold hasDisposer. destruct (lookupDisposer name ds); [|by split; [|intros [_ ?]]].
  split; [done|]. by intros [? _].
Qed.

Lemma hasDisposer_own name ds d : lookupDisposer name ds = Some d → hasDisposer name ds = true.
Proof. intros H. unfold hasDisposer. by rewrite H. Qed.

(** ** A proof rule for resolution

    A relation between the state before and after a computation, and the
    exception it ended with if any, holds of [kernel.get] as soon as it
    holds of the steps resolution is made of and composes along
    sequencing. *)
Section Rule.

Variable paramTypes : Class → list InjectionIdentifier.
Variable Q : State → option exn → State → Prop.

Hypothesis Q_ret : ∀ st, Q st None st.
Hypothesis Q_throw : ∀ st e, Q st (Some e) st.
Hypothesis Q_seq : ∀ a b c o, Q a None b → Q b o c → Q a o c.
Hypothesis Q_alloc : ∀ o st, Q st None (after (alloc o) st).
Hypothesis Q_activate : ∀ id v st, Q st None (after (Kernel.activate id v) st).
Hypothesis Q_acquire : ∀ name resource instance st r st',
  lookupDisposer name (disposers (this st)) = None →
  acquire name resource instance st = (r, st') →
  Q st (outcome r) st'.

Local Abbreviation sat m :=
  (∀ st r st', m st = (r, st') → Q st (outcome r) st').

Lemma sat_ret {A} (a : A) : sat (ret a).
Proof. intros st r st' H. inversion H; subst. apply Q_ret. Qed.

Lemma sat_throw {A} e : sat (throw (A:=A) e).
Proof. intros st r st' H. inversion H; subst. apply Q_throw. Qed.

Lemma sat_bind {A B} (m : M A) (k : A → M B) :
  sat m → (∀ a, sat (k a)) → sat (bind m k).
Proof.
  intros Hm Hk st r st' H.
  apply bind_inv in H as [(a & st1 & H1 & H2)|(e & H1 & ->)].
  - eapply Q_seq; [apply (Hm _ _ _ H1)|apply (Hk _ _ _ _ H2)].
  - apply (Hm _ _ _ H1).
Qed.

Lemma sat_mapM {A B} (f : A → M B) l : (∀ x, sat (f x)) → sat (mapM f l).
Proof.
  intros Hf. induction l as [|x l IH]; simpl.
  - apply sat_ret.
  - apply sat_bind; [apply Hf|]. intros y.
    apply sat_bind; [apply IH|]. intros ys. apply sat_ret.
Qed.

Lemma sat_alloc o : sat (alloc o).
Proof. intros st r st' H. inversion H; subst. apply (Q_alloc o st). Qed.

Lemma sat_construct c args : sat (Kernel.construct c args).
Proof. unfold Kernel.construct. destruct (decide _); apply sat_alloc. Qed.

Lemma sat_activate id v : sat (Kernel.activate id v).
Proof. intros st r st' H. inversion H; subst. apply (Q_activate id v st). Qed.

Lemma sat_scopeResourceValue kernel_get resource :
  (∀ id, sat (kernel_get id)) → sat (scopeResourceValue kernel_get resource).
Proof.
  intros Hget. unfold scopeResourceValue.
  apply sat_bind; [apply Hget|]. intros instance.
  apply sat_bind; [|intros _; apply sat_ret].
  intros st r st' H.
  destruct (hasDisposer _ _) eqn:Hl.
  - inversion H; subst. apply Q_ret.
  - apply hasDisposer_false in Hl as [Hl _]. by eapply Q_acquire.
Qed.

Lemma sat_instantiate kernel_get b :
  (∀ id, sat (kernel_get id)) → sat (Kernel.instantiate paramTypes kernel_get b).
Proof.
  intros Hget. unfold Kernel.instantiate. destruct (implementation b).
  - apply sat_bind; [by apply sat_mapM|]. intros args. apply sat_construct.
  - apply sat_ret.
  - by apply sat_scopeResourceValue.
Qed.

Lemma sat_resolveBinding kernel_get id b :
  (∀ id, sat (kernel_get id)) →
  sat (Kernel.resolveBinding paramTypes kernel_get id b).
Proof.
  intros Hget. unfold Kernel.resolveBinding. destruct (Kernel.cached b).
  - apply sat_ret.
  - apply sat_bind; [by apply sat_instantiate|]. intros v.
    apply sat_bind; [|intros _; apply sat_ret].
    destruct (bindingScope b); [apply sat_ret|apply sat_activate].
Qed.

Lemma sat_get depth : ∀ id, sat (Kernel.get paramTypes depth id).
Proof.
  induction depth as [|d IH]; intros id; simpl.
  - apply sat_throw.
  - intros st r st' H.
    destruct (Kernel.lookup id (kernel st)) as [|b [|b' l]].
    + inversion H; subst. apply Q_throw.
    + by eapply sat_resolveBinding.
    + inversion H; subst. apply Q_throw.
Qed.

End Rule.

(** ** What resolution leaves alone *)

Lemma sameBinding_refl b : sameBinding b b.
Proof. by repeat split. Qed.

Lemma sameBinding_trans a b c : sameBinding a b → sameBinding b c → sameBinding a c.
Proof.
  intros (?&?&?&?) (?&?&?&?). repeat split; try congruence. auto.
Qed.

Lemma Forall2_sameBinding_refl l : Forall2 sameBinding l l.
Proof. induction l; constructor; auto using sameBinding_refl. Qed.

Lemma Forall2_sameBinding_trans l1 : ∀ l2 l3,
  Forall2 sameBinding l1 l2 → Forall2 sameBinding l2 l3 → Forall2 sameBinding l1 l3.
Proof.
  induction l1 as [|a l1 IH]; intros l2 l3 H12 H23;
    inversion H12; subst; inversion H23; subst; constructor.
  - by eapply sameBinding_trans.
  - by eapply IH.
Qed.

Lemma Quiet_refl st : Quiet st st.
Proof. by split. Qed.

Lemma Quiet_trans a b c : Quiet a b → Quiet b c → Quiet a c.
Proof. intros [] []. split; try congruence; lia. Qed.

Lemma Quiet_same st st' :
  this st' = this st → snapshots (kernel st') = snapshots (kernel st) →
  next_ref st ≤ next_ref st' → Quiet st st'.
Proof. intros Ht Hs Hn. split; auto; by rewrite Ht. Qed.

Lemma Quiet_acquire name resource instance st :
  Quiet st (after (acquire name resource instance) st).
Proof.
  unfold after, acquire, bind, callDisposerFactory.
  destruct (disposerFactory resource instance); simpl; split; simpl; auto.
Qed.

Lemma Frame_refl st : Frame st st.
Proof. split; auto using Quiet_refl, Forall2_sameBinding_refl. Qed.

Lemma Frame_trans a b c : Frame a b → Frame b c → Frame a c.
Proof.
  intros [] []. split; [by eapply Quiet_trans|by eapply Forall2_sameBinding_trans].
Qed.

Lemma Frame_activate id v st : Frame st (after (Kernel.activate id v) st).
Proof.
  split; [by split|]. simpl.
  induction (bindings (kernel st)) as [|b l IH]; simpl; constructor; auto.
  destruct (decide _); [|apply sameBinding_refl].
  repeat split; simpl. done.
Qed.

Lemma Frame_acquire name resource instance st :
  Frame st (after (acquire name resource instance) st).
Proof.
  split; [apply Quiet_acquire|].
  unfold after, acquire, bind, callDisposerFactory.
  destruct (disposerFactory resource instance); simpl;
    auto using Forall2_sameBinding_refl.
Qed.

Lemma get_Frame paramTypes depth id st r st' :
  Kernel.get paramTypes depth id st = (r, st') → Frame st st'.
Proof.
  apply (sat_get paramTypes (λ st _ st', Frame st st')); clear.
  - apply Frame_refl.
  - intros. apply Frame_refl.
  - intros a b c _. apply Frame_trans.
  - intros o st. split; [by split; simpl; auto|simpl; apply Forall2_sameBinding_refl].
  - apply Frame_activate.
  - intros name resource instance st r st' _ H.
    pose proof (Frame_acquire name resource instance st) as HF.
    unfold after in HF. by rewrite H in HF.
Qed.

(** ** The calls resolution makes *)

Lemma recorded_app τ1 τ2 : recorded (τ1 ++ τ2) = recorded τ1 ++ recorded τ2.
Proof.
  induction τ1 as [|[n i [d|e]| |] τ1 IH]; simpl; auto. by rewrite IH.
Qed.

Lemma acquisitions_app τ1 : ∀ names τ2 o,
  acquisitions names τ1 None →
  acquisitions (names ++ (recorded τ1).*1) τ2 o →
  acquisitions names (τ1 ++ τ2) o.
Proof.
  induction τ1 as [|[n i [d|e]| |] τ1 IH]; intros names τ2 o; simpl; try done.
  - by rewrite app_nil_r.
  - intros [Hn H1] H2. split; [done|]. apply IH; [done|].
    by rewrite <- app_assoc.
  - by intros (_ & _ & ?).
Qed.

Lemma lookupDisposer_None name ds : lookupDisposer name ds = None ↔ name ∉ ds.*1.
Proof.
  unfold lookupDisposer. induction ds as [|[n d] ds IH]; simpl.
  - split; [intros _; apply not_elem_of_nil | done].
  - rewrite filter_cons. simpl. destruct (decide (n = name)) as [->|Hne]; simpl.
    + split; [done|]. intros H. exfalso. apply H. apply list_elem_of_here.
    + rewrite IH. rewrite not_elem_of_cons. split; [by split|by intros [_ ?]].
Qed.

Lemma Steps_ret st : Steps st None st.
Proof. exists []. by rewrite !app_nil_r. Qed.

Lemma Steps_throw st e : Steps st (Some e) st.
Proof. exists []. by rewrite !app_nil_r. Qed.

Lemma Steps_seq a b c o : Steps a None b → Steps b o c → Steps a o c.
Proof.
  intros (τ1 & Ht1 & Hd1 & Ha1) (τ2 & Ht2 & Hd2 & Ha2).
  exists (τ1 ++ τ2). rewrite Ht2, Ht1, Hd2, Hd1, recorded_app, !app_assoc.
  repeat split. apply acquisitions_app; [done|].
  by rewrite Hd1, fmap_app in Ha2.
Qed.

Lemma Steps_same st st' :
  this st' = this st → trace st' = trace st → Steps st None st'.
Proof. intros Hthis Htrace. exists []. by rewrite Hthis, Htrace, !app_nil_r. Qed.

Lemma Steps_acquire name resource instance st r st' :
  lookupDisposer name (disposers (this st)) = None →
  acquire name resource instance st = (r, st') →
  Steps st (outcome r) st'.
Proof.
  intros Hl. pose proof Hl as Hn. apply lookupDisposer_None in Hn.
  unfold acquire, bind, callDisposerFactory, setDisposer, emit, throw.
  destruct (disposerFactory resource instance) as [p|e]; simpl.
  - rewrite Hl. intros H; inversion H; subst; clear H.
    eexists [CallDisposerFactory name instance (Ok _)]. simpl. repeat split; done.
  - intros H; inversion H; subst; clear H.
    exists [CallDisposerFactory name instance (Throw e)]. simpl.
    rewrite app_nil_r. repeat split; done.
Qed.

Lemma disposersAllocated_same st st' :
  this st' = this st → next_ref st ≤ next_ref st' →
  disposersAllocated st → disposersAllocated st'.
Proof.
  intros Hthis Hn [Hnd Hlt]. split; rewrite Hthis; [done|].
  eapply Forall_impl; [done|]. simpl. intros. lia.
Qed.

Lemma disposersAllocated_acquire name resource instance st r st' :
  lookupDisposer name (disposers (this st)) = None →
  acquire name resource instance st = (r, st') →
  disposersAllocated st → disposersAllocated st'.
Proof.
  intros Hl.
  unfold acquire, bind, callDisposerFactory, setDisposer, emit, throw.
  destruct (disposerFactory resource instance) as [p|e]; simpl.
  - rewrite Hl. intros H [Hnd Hlt]; inversion H; subst; clear H.
    split; simpl; rewrite !fmap_app; simpl.
    + apply NoDup_app. split; [done|]. split; [|apply NoDup_singleton].
      intros x Hx Hx'. apply list_elem_of_singleton in Hx'. subst x.
      apply list_elem_of_fmap in Hx as (d & Hd & Hin).
      rewrite Forall_forall in Hlt. specialize (Hlt d Hin). simpl in Hlt. lia.
    + apply Forall_app. split.
      * eapply Forall_impl; [done|]. simpl. intros. lia.
      * constructor; [simpl; lia|constructor].
  - intros H; inversion H; subst; clear H. by apply disposersAllocated_same.
Qed.

Lemma Calm_ret st : Calm st None st.
Proof. split; [apply Quiet_refl|]. split; [apply Steps_ret|done]. Qed.

Lemma Calm_throw st e : Calm st (Some e) st.
Proof. split; [apply Quiet_refl|]. split; [apply Steps_throw|done]. Qed.

Lemma Calm_seq a b c o : Calm a None b → Calm b o c → Calm a o c.
Proof.
  intros (?&?&?) (?&?&?).
  split; [by eapply Quiet_trans|]. split; [by eapply Steps_seq|auto].
Qed.

(** A step that leaves the scope, the trace and the checkpoints alone. *)
Lemma Calm_same st st' :
  this st' = this st → trace st' = trace st →
  snapshots (kernel st') = snapshots (kernel st) →
  next_ref st ≤ next_ref st' → Calm st None st'.
Proof.
  intros. split; [by apply Quiet_same|].
  split; [by apply Steps_same|by apply disposersAllocated_same].
Qed.

Lemma Calm_acquire name resource instance st r st' :
  lookupDisposer name (disposers (this st)) = None →
  acquire name resource instance st = (r, st') →
  Calm st (outcome r) st'.
Proof.
  intros Hl H. split; [|split].
  - pose proof (Quiet_acquire name resource instance st) as HQ.
    unfold after in HQ. by rewrite H in HQ.
  - by eapply Steps_acquire.
  - by eapply disposersAllocated_acquire.
Qed.

Lemma get_Calm paramTypes depth id st r st' :
  Kernel.get paramTypes depth id st = (r, st') → Calm st (outcome r) st'.
Proof.
  revert st r st'. apply (sat_get paramTypes Calm).
  - apply Calm_ret.
  - apply Calm_throw.
  - apply Calm_seq.
  - intros o st. apply Calm_same; simpl; auto.
  - intros id' v st. apply Calm_same; simpl; auto.
  - apply Calm_acquire.
Qed.

Lemma Calm_quiet st o st' :
  this st' = this st → trace st' = trace st →
  snapshots (kernel st') = snapshots (kernel st) →
  next_ref st ≤ next_ref st' → Calm st o st'.
Proof.
  intros Hthis Htrace Hs Hn. split; [by apply Quiet_same|].
  split; [|by apply disposersAllocated_same].
  exists []. by rewrite Hthis, Htrace, !app_nil_r.
Qed.

Lemma mapM_get_Calm paramTypes depth ids st r st' :
  mapM (Kernel.get paramTypes depth) ids st = (r, st') → Calm st (outcome r) st'.
Proof.
  revert st r st'. apply (sat_mapM Calm Calm_ret Calm_seq).
  intros id st r st'. apply get_Calm.
Qed.

(** ** The steps of [run] *)

Lemma kernel_bind_Calm id impl sc st r st' :
  Kernel.bind id impl sc st = (r, st') → Calm st (outcome r) st'.
Proof. intros H. inversion H; subst. by apply Calm_quiet. Qed.

Lemma setOnce_Calm self name val st r st' :
  ScopeContext.setOnce self name val st = (r, st') → Calm st (outcome r) st'.
Proof.
  intros H. apply setOnce_inv in H as [->|(fields & _ & ->)]; by apply Calm_quiet.
Qed.

Lemma invokeSetOnce_Calm scopeContext name val st r st' :
  Scope.invokeSetOnce scopeContext name val st = (r, st') → Calm st (outcome r) st'.
Proof.
  revert st r st'. unfold Scope.invokeSetOnce. destruct scopeContext.
  - apply (sat_bind Calm Calm_seq); [apply setOnce_Calm|].
    intros _. apply (sat_ret Calm Calm_ret).
  - apply (sat_throw Calm Calm_throw).
Qed.

Lemma forEach_Calm {A} (f : A → M unit) l :
  (∀ x st r st', f x st = (r, st') → Calm st (outcome r) st') →
  ∀ st r st', forEach f l st = (r, st') → Calm st (outcome r) st'.
Proof.
  intros Hf. induction l as [|x l IH]; simpl.
  - apply (sat_ret Calm Calm_ret).
  - apply (sat_bind Calm Calm_seq); [apply Hf|]. intros _. apply IH.
Qed.

Lemma bindScopeContext_Calm paramTypes depth st r st' :
  Scope.bindScopeContext paramTypes depth st = (r, st') → Calm st (outcome r) st'.
Proof.
  revert st r st'. unfold Scope.bindScopeContext.
  apply (sat_bind Calm Calm_seq); [apply kernel_bind_Calm|]. intros _ st r st'.
  destruct (objToBindScopeContext (this st)) as [obj|].
  - revert st r st'. apply (sat_bind Calm Calm_seq); [apply get_Calm|].
    intros scopeContext. apply forEach_Calm. intros entry.
    apply invokeSetOnce_Calm.
  - apply (sat_ret Calm Calm_ret).
Qed.

Lemma bindScopeResource_Calm resource st r st' :
  Scope.bindScopeResource resource st = (r, st') → Calm st (outcome r) st'.
Proof.
  revert st r st'. unfold Scope.bindScopeResource.
  apply (sat_bind Calm Calm_seq); [apply kernel_bind_Calm|].
  intros _. apply kernel_bind_Calm.
Qed.

Lemma bindScopeResources_Calm st r st' :
  Scope.bindScopeResources st = (r, st') → Calm st (outcome r) st'.
Proof.
  unfold Scope.bindScopeResources. revert st r st'.
  intros st. generalize (scopeResources (this st)). intros l. revert st.
  apply forEach_Calm. apply bindScopeResource_Calm.
Qed.

Lemma injectScopeParameters_Calm paramTypes depth st r st' :
  Scope.injectScopeParameters paramTypes depth st = (r, st') →
  Calm st (outcome r) st'.
Proof. apply mapM_get_Calm. Qed.

(** Steps 1 to 4: the checkpoint is on top of the stack when they end. *)
Lemma resolve_spec paramTypes depth st r st1 :
  Scope.resolve paramTypes depth st = (r, st1) →
  snapshots (kernel st1) = bindings (kernel st) :: snapshots (kernel st) ∧
  objToBindScopeContext (this st1) = objToBindScopeContext (this st) ∧
  injections (this st1) = injections (this st) ∧
  scopeResources (this st1) = scopeResources (this st) ∧
  next_ref st ≤ next_ref st1 ∧
  Steps st (outcome r) st1 ∧
  (disposersAllocated st → disposersAllocated st1).
Proof.
  unfold Scope.resolve. intros H.
  apply bind_inv in H as [(? & st0 & H0 & H)|(e & H0 & _)];
    [|inversion H0].
  assert (HC : Calm st0 (outcome r) st1).
  { revert H. generalize st0 r st1.
    apply (sat_bind Calm Calm_seq); [apply bindScopeContext_Calm|]. intros _.
    apply (sat_bind Calm Calm_seq); [apply bindScopeResources_Calm|]. intros _.
    apply injectScopeParameters_Calm. }
  inversion H0; subst; clear H0.
  destruct HC as ([Hs Hc Hi Hr Hn] & HS & HD). simpl in *.
  split; [done|]. do 4 (split; [done|]). split; [exact HS|exact HD].
Qed.

(** Step 5. *)
Lemma restore_spec st saved older :
  snapshots (kernel st) = saved :: older →
  Kernel.restore st = (Ok tt, set_kernel {| bindings := saved; snapshots := older |} st).
Proof. intros H. unfold Kernel.restore. by rewrite H. Qed.

(** Step 6. *)
Lemma addTrace_nil st : addTrace [] st = st.
Proof. destruct st. unfold addTrace. simpl. by rewrite app_nil_r. Qed.

Lemma addTrace_app τ1 τ2 st : addTrace τ2 (addTrace τ1 st) = addTrace (τ1 ++ τ2) st.
Proof. unfold addTrace. simpl. by rewrite app_assoc. Qed.

Lemma dispose_spec ds : ∀ st,
  Promise.dispose ds st = (Ok tt, addTrace (cleanups ds) st).
Proof.
  unfold Promise.dispose, cleanups.
  induction ds as [|d ds IH]; intros st; simpl.
  - by rewrite addTrace_nil.
  - destruct (disposer_promise d) as [v|e] eqn:Hp.
    + rewrite filter_cons_True by (unfold acquired; by rewrite Hp).
      unfold bind at 1. simpl. rewrite IH. f_equal.
      apply (addTrace_app [CallCleanup d] _ st).
    + rewrite filter_cons_False by (unfold acquired; by rewrite Hp).
      unfold bind at 1. simpl. by rewrite IH.
Qed.

Lemma runTask_spec task objs st :
  Scope.runTask task objs st =
    match Promise.firstRejected (disposers (this st)).*2 with
    | Some e => (Ok (Rejected e), addTrace (cleanups (disposers (this st)).*2) st)
    | None =>
        (Ok (settle (task objs)),
         addTrace (CallTask objs :: cleanups (disposers (this st)).*2) st)
    end.
Proof.
  unfold Scope.runTask, Promise.using_.
  destruct (Promise.firstRejected _) as [e|].
  - unfold bind. by rewrite dispose_spec.
  - unfold applyTask, bind at 1 2 3. simpl.
    destruct (task objs) as [v|e|p]; simpl;
      unfold bind; rewrite dispose_spec; simpl;
      f_equal; apply (addTrace_app [CallTask objs] _ st).
Qed.

(** [run] is steps 1 to 4, then the rollback and the unit of work; when
    steps 1 to 4 throw, so does [run], in the state they reached. *)
Lemma run_unfold paramTypes depth task st :
  Scope.run paramTypes depth task st =
    match Scope.resolve paramTypes depth st with
    | (Ok injectedObjects, st1) =>
        Scope.runTask task injectedObjects (set_kernel (kernel st) st1)
    | (Throw e, st1) => (Throw e, st1)
    end.
Proof.
  destruct (Scope.resolve paramTypes depth st) as [[objs|e] st1] eqn:Hres.
  - pose proof (resolve_spec _ _ _ _ _ Hres) as (Hsnap & _).
    revert Hres. unfold Scope.run, Scope.resolve, bind. simpl.
    destruct (Scope.bindScopeContext _ _ _) as [[[]|?] sa]; [|done].
    destruct (Scope.bindScopeResources sa) as [[[]|?] sb]; [|done].
    destruct (Scope.injectScopeParameters _ _ sb) as [[objs'|?] sc]; [|done].
    intros H; inversion H; subst; clear H.
    rewrite (restore_spec _ _ _ Hsnap). by destruct (kernel st).
  - revert Hres. unfold Scope.run, Scope.resolve, bind. simpl.
    destruct (Scope.bindScopeContext _ _ _) as [[[]|?] sa];
      [|intros H; by inversion H].
    destruct (Scope.bindScopeResources sa) as [[[]|?] sb];
      [|intros H; by inversion H].
    destruct (Scope.injectScopeParameters _ _ sb) as [[objs'|?] sc];
      intros H; by inversion H.
Qed.

(** Whenever [run] returns its promise, steps 1 to 4 went through. *)
Lemma run_returns paramTypes depth task st p st' :
  Scope.run paramTypes depth task st = (Ok p, st') →
  ∃ injectedObjects st1,
    Scope.resolve paramTypes depth st = (Ok injectedObjects, st1) ∧
    Scope.runTask task injectedObjects (set_kernel (kernel st) st1) = (Ok p, st').
Proof.
  rewrite run_unfold.
  destruct (Scope.resolve paramTypes depth st) as [[objs|e] st1]; [|done].
  eauto.
Qed.

Lemma runTask_kernel task objs st r st' :
  Scope.runTask task objs st = (r, st') →
  kernel st' = kernel st ∧ this st' = this st ∧
  heap st' = heap st ∧ next_ref st' = next_ref st.
Proof.
  rewrite runTask_spec. destruct (Promise.firstRejected _);
    intros H; inversion H; subst; done.
Qed.

(** ** Populating the scope context *)

Lemma lookup_snoc id B S nb :
  Kernel.lookup id {| bindings := B ++ [nb]; snapshots := S |} =
  Kernel.lookup id {| bindings := B; snapshots := S |} ++
    (if decide (serviceIdentifier nb = id) then [nb] else []).
Proof.
  unfold Kernel.lookup. simpl. by rewrite filter_app.
Qed.

Lemma forEach_cons {A} (f : A → M unit) x l :
  forEach f (x :: l) = (f x ;; forEach f l).
Proof. done. Qed.

Lemma invokeSetOnce_inv scopeContext name val st r st' :
  Scope.invokeSetOnce scopeContext name val st = (r, st') →
  st' = st ∨
  ∃ self fields, scopeContext = VObject self ∧
    heap st !! self = Some (ContextObject fields) ∧
    st' = set_heap (<[self := ContextObject (ScopeContext.assign name val fields)]>
                      (heap st)) st.
Proof.
  unfold Scope.invokeSetOnce. destruct scopeContext as [self|p].
  - intros H. apply bind_inv in H as [(v & s1 & H1 & H2)|(e & H1 & _)].
    + inversion H2; subst.
      apply setOnce_inv in H1 as [->|(fields & Hh & ->)]; [by left|right; eauto].
    + apply setOnce_inv in H1 as [->|(fields & Hh & ->)]; [by left|right; eauto].
  - intros H. inversion H. by left.
Qed.

Lemma invokeSetOnce_unset st self fields name val :
  heap st !! self = Some (ContextObject fields) →
  ScopeContext.callable fields = true →
  context fields !! name = None →
  Scope.invokeSetOnce (VObject self) name val st =
    (Ok tt,
     set_heap (<[self := ContextObject (ScopeContext.assign name val fields)]>
                 (heap st)) st).
Proof.
  intros Hh Hc Hn. unfold Scope.invokeSetOnce.
  erewrite bind_Ok; [done|]. by eapply setOnce_unset.
Qed.

Lemma invokeSetOnce_shadowed st self fields name val :
  heap st !! self = Some (ContextObject fields) →
  ScopeContext.callable fields = false →
  Scope.invokeSetOnce (VObject self) name val st =
    (Throw ScopeContext.not_a_function, st).
Proof.
  intros Hh Hc. unfold Scope.invokeSetOnce.
  erewrite bind_Throw; [done|]. by eapply setOnce_shadowed.
Qed.

(** The loop of [bindScopeContext] writes to the scope context only. *)
Lemma forEach_setOnce_frame scopeContext es : ∀ st r st',
  forEach (λ entry, Scope.invokeSetOnce scopeContext entry.1 entry.2) es st = (r, st') →
  this st' = this st ∧ kernel st' = kernel st ∧ trace st' = trace st ∧
  next_ref st' = next_ref st.
Proof.
  induction es as [|[n v] es IH]; intros st r st' H.
  - by inversion H; subst.
  - rewrite forEach_cons in H.
    apply bind_inv in H as [([] & s1 & H1 & H2)|(e & H1 & _)].
    + apply IH in H2 as (-> & -> & -> & ->).
      apply invokeSetOnce_inv in H1 as [->|(self & fields & _ & _ & ->)]; done.
    + apply invokeSetOnce_inv in H1 as [->|(self & fields & _ & _ & ->)]; done.
Qed.

(** Visiting names that are all different and none of them set yet: no
    call finds its name set.  The loop ends early only when the scope context
    has lost its [hasOwnProperty]. *)
Lemma forEach_setOnce_once self : ∀ es st fields r st',
  heap st !! self = Some (ContextObject fields) →
  NoDup es.*1 → (∀ k, k ∈ es.*1 → context fields !! k = None) →
  forEach (λ entry, Scope.invokeSetOnce (VObject self) entry.1 entry.2) es st = (r, st') →
  r = Ok tt ∨ r = Throw ScopeContext.not_a_function.
Proof.
  induction es as [|[n v] es IH]; intros st fields r st' Hh Hnd Hnone H.
  - inversion H; subst. by left.
  - rewrite forEach_cons in H. rewrite fmap_cons in Hnd, Hnone.
    apply NoDup_cons in Hnd as [Hn Hnd]. simpl in *.
    destruct (ScopeContext.callable fields) eqn:Hc.
    + erewrite bind_Ok in H; cycle 1.
      { eapply invokeSetOnce_unset; [done|done|]. apply Hnone. left. }
      eapply IH in H; [done| |done|].
      * simpl. apply lookup_insert_eq.
      * intros k Hk. rewrite assign_lookup_ne by (intros ->; done).
        apply Hnone. by right.
    + erewrite bind_Throw in H by (by eapply invokeSetOnce_shadowed).
      inversion H; subst. by right.
Qed.

Lemma get_S paramTypes d id st :
  Kernel.get paramTypes (S d) id st =
    match Kernel.lookup id (kernel st) with
    | [] => (Throw (Kernel.not_bound id), st)
    | [b] => Kernel.resolveBinding paramTypes (Kernel.get paramTypes d) id b st
    | _ :: _ :: _ => (Throw (Kernel.ambiguous id), st)
    end.
Proof. done. Qed.

Lemma boundIdentifiers_activate id v st :
  Kernel.boundIdentifiers (kernel (after (Kernel.activate id v) st)) =
  Kernel.boundIdentifiers (kernel st).
Proof.
  unfold Kernel.boundIdentifiers. simpl. rewrite <- list_fmap_compose.
  apply list_fmap_ext. intros i b _. simpl. by destruct (decide _).
Qed.

(** The scope context of a scope is made by its own binding. *)
Lemma get_ScopeContext_fresh paramTypes d st B S :
  kernel st = {| bindings := B ++ [Kernel.newBinding (IdClass ScopeContext.class)
                                     (ToClass ScopeContext.class) SingletonScope];
                 snapshots := S |} →
  Kernel.lookup (IdClass ScopeContext.class) {| bindings := B; snapshots := S |} = [] →
  Kernel.get paramTypes (Datatypes.S d) (IdClass ScopeContext.class) st =
    (Ok (VObject (next_ref st)),
     after (Kernel.activate (IdClass ScopeContext.class) (VObject (next_ref st)))
           (after (alloc (ContextObject ScopeContext.empty)) st)).
Proof.
  intros Hk HB. rewrite get_S, Hk, lookup_snoc, HB.
  unfold Kernel.newBinding at 1. simpl serviceIdentifier.
  case_decide; [|done]. simpl app. cbv iota.
  unfold Kernel.resolveBinding, Kernel.instantiate. simpl.
  unfold Kernel.constructorParameters, Kernel.construct.
  case_decide; [|done]. simpl.
  unfold bind. simpl. done.
Qed.

(** When [bindScopeContext] throws: the registry refused [ScopeContext],
    which has a binding from before or is resolved at the bottom of the
    stack, or the scope context has lost its [hasOwnProperty].  Only the
    binding of [ScopeContext] was added by then, and at most the scope
    context was allocated. *)
Lemma bindScopeContext_throws paramTypes depth st e st' :
  Scope.bindScopeContext paramTypes depth st = (Throw e, st') →
  this st' = this st ∧ trace st' = trace st ∧
  Kernel.boundIdentifiers (kernel st') =
    Kernel.boundIdentifiers (kernel st) ++ [IdClass ScopeContext.class] ∧
  snapshots (kernel st') = snapshots (kernel st) ∧
  next_ref st' ≤ S (next_ref st) ∧
  (e = Kernel.ambiguous (IdClass ScopeContext.class) ∨
   e = Kernel.stack_exhausted ∨
   e = ScopeContext.not_a_function).
Proof.
  unfold Scope.bindScopeContext. erewrite bind_Ok by reflexivity. simpl this.
  set (st_b := set_kernel _ st).
  assert (Hids : Kernel.boundIdentifiers (kernel st_b) =
            Kernel.boundIdentifiers (kernel st) ++ [IdClass ScopeContext.class]).
  { unfold Kernel.boundIdentifiers. simpl. by rewrite fmap_app. }
  destruct (objToBindScopeContext (this st)) as [data|]; [|done].
  destruct depth as [|d].
  { erewrite bind_Throw by reflexivity. intros [= <- <-].
    repeat (split; [done|]). split; [simpl; lia|]. right. by left. }
  destruct (Kernel.lookup (IdClass ScopeContext.class) (kernel st)) as [|b l] eqn:HB.
  - erewrite bind_Ok; cycle 1.
    { apply (get_ScopeContext_fresh _ _ _ (bindings (kernel st)) (snapshots (kernel st)));
        [reflexivity|exact HB]. }
    set (st_c := after (Kernel.activate (IdClass ScopeContext.class)
                          (VObject (next_ref st_b)))
                   (after (alloc (ContextObject ScopeContext.empty)) st_b)).
    intros H.
    pose proof (forEach_setOnce_frame _ _ _ _ _ H) as (Hthis & Hk & Htr & Hn).
    eapply forEach_setOnce_once in H as [[=]|[= ->]];
      [| apply (lookup_insert_eq (heap st_b)) | apply NoDup_forEachEntries
       | intros k _; apply lookup_empty ].
    split; [by rewrite Hthis|]. split; [by rewrite Htr|].
    split; [rewrite Hk; unfold st_c; by rewrite boundIdentifiers_activate|].
    split; [by rewrite Hk|]. split; [rewrite Hn; simpl; lia|]. by right; right.
  - erewrite bind_Throw; cycle 1.
    { rewrite get_S. simpl kernel. rewrite lookup_snoc.
      change (Kernel.lookup _ {| bindings := bindings (kernel st);
                                 snapshots := snapshots (kernel st) |})
        with (Kernel.lookup (IdClass ScopeContext.class) (kernel st)).
      rewrite HB. unfold Kernel.newBinding at 1. simpl serviceIdentifier.
      case_decide; [|done]. by destruct l. }
    intros [= <- <-]. repeat (split; [done|]). split; [simpl; lia|]. by left.
Qed.

(** The duplicate-key error is none of these. *)
Lemma endsWith_unfold suffix s :
  endsWith suffix s =
    if decide (s = suffix) then true
    else match s with
         | EmptyString => false
         | String _ s' => endsWith suffix s'
         end.
Proof. by destruct s. Qed.

Lemma endsWith_append prefix suffix : endsWith suffix (prefix +:+ suffix) = true.
Proof.
  induction prefix as [|c prefix IH]; rewrite endsWith_unfold.
  - by rewrite decide_True.
  - case_decide; [done|]. exact IH.
Qed.

Lemma duplicate_key_message name message :
  endsWith " is supposed to be set only once" message = false →
  Error message ≠ ScopeContext.duplicate_key name.
Proof.
  intros H [= ->]. by rewrite endsWith_append in H.
Qed.

Lemma bindScopeContext_no_duplicate paramTypes depth st e st' name :
  Scope.bindScopeContext paramTypes depth st = (Throw e, st') →
  e ≠ ScopeContext.duplicate_key name.
Proof.
  intros H. apply bindScopeContext_throws in H as (_ & _ & _ & _ & _ & [->|[->| ->]]);
    by apply duplicate_key_message.
Qed.

(** ** Traces of resolution *)

Lemma acquisitions_calls τ : ∀ names o,
  acquisitions names τ o → Forall isFactoryCall τ.
Proof.
  induction τ as [|[n i [d|e]| |] τ IH]; intros names o; simpl; try done.
  - intros [_ H]. constructor; [by eexists _, _, _|by eapply IH].
  - intros (_ & -> & _). constructor; [by eexists _, _, _|constructor].
Qed.

Lemma acquisitions_NoDup τ : ∀ names o,
  acquisitions names τ o → NoDup names → NoDup (names ++ factoryCalls τ).
Proof.
  induction τ as [|[n i [d|e]| |] τ IH]; intros names o; simpl; try done.
  - intros _ H. by rewrite app_nil_r.
  - intros [Hn H] Hnd. rewrite cons_middle, app_assoc. eapply IH; [done|].
    apply NoDup_app. split; [done|]. split; [|apply NoDup_singleton].
    intros x Hx ->%list_elem_of_singleton. done.
  - intros (Hn & -> & _) Hnd. simpl.
    apply NoDup_app. split; [done|]. split; [|apply NoDup_singleton].
    intros x Hx ->%list_elem_of_singleton. done.
Qed.

Lemma acquisitions_Throw τ : ∀ names o n i e,
  acquisitions names τ o → CallDisposerFactory n i (Throw e) ∈ τ → o = Some e.
Proof.
  induction τ as [|[n' i' [d|e']| |] τ IH]; intros names o n i e; simpl; try done.
  - by intros _ ?%elem_of_nil.
  - intros [_ H] Hin. apply elem_of_cons in Hin as [Heq|Hin]; [done|]. by eapply IH.
  - intros (_ & -> & ->) Hin. apply elem_of_cons in Hin as [Heq|Hin].
    + by inversion Heq.
    + by apply elem_of_nil in Hin.
Qed.

Lemma acquisitions_None_recorded τ : ∀ names,
  acquisitions names τ None → factoryCalls τ = (recorded τ).*1.
Proof.
  induction τ as [|[n i [d|e]| |] τ IH]; intros names; simpl; try done.
  - intros [_ H]. f_equal. by eapply IH.
  - by intros (_ & _ & ?).
Qed.

Lemma recorded_elem τ n d :
  (n, d) ∈ recorded τ ↔ ∃ i, CallDisposerFactory n i (Ok d) ∈ τ.
Proof.
  induction τ as [|ev τ IH]; simpl.
  - split; [by intros ?%elem_of_nil|by intros [? ?%elem_of_nil]].
  - destruct ev as [n' i' [d'|e']| |]; rewrite ?elem_of_cons, IH.
    + split.
      * intros [Heq|[i Hi]]; [inversion Heq; subst; exists i'; by left|].
        exists i. by right.
      * intros [i Hi]. apply elem_of_cons in Hi as [Heq|Hi];
          [inversion Heq; by left|right; eauto].
    + split; intros [i Hi]; exists i; [by right|].
      apply elem_of_cons in Hi as [Heq|Hi]; [by inversion Heq|done].
    + split; intros [i Hi]; exists i; [by right|].
      apply elem_of_cons in Hi as [Heq|Hi]; [by inversion Heq|done].
    + split; intros [i Hi]; exists i; [by right|].
      apply elem_of_cons in Hi as [Heq|Hi]; [by inversion Heq|done].
Qed.

(** ** Counting calls *)

Lemma occurrences_app ev τ1 τ2 :
  occurrences ev (τ1 ++ τ2) = occurrences ev τ1 + occurrences ev τ2.
Proof. unfold occurrences. by rewrite filter_app, length_app. Qed.

Lemma occurrences_cons_ne ev x τ :
  x ≠ ev → occurrences ev (x :: τ) = occurrences ev τ.
Proof. intros H. unfold occurrences. by rewrite filter_cons_False. Qed.

Lemma occurrences_cons_eq ev τ :
  occurrences ev (ev :: τ) = S (occurrences ev τ).
Proof. unfold occurrences. by rewrite filter_cons_True. Qed.

Lemma occurrences_not_elem ev τ : ev ∉ τ → occurrences ev τ = 0.
Proof.
  induction τ as [|x τ IH]; [done|].
  intros [Hne Hnin]%not_elem_of_cons.
  rewrite occurrences_cons_ne by done. auto.
Qed.

Lemma occurrences_elem ev τ : 0 < occurrences ev τ → ev ∈ τ.
Proof.
  intros H. destruct (decide (ev ∈ τ)) as [|Hn]; [done|].
  apply occurrences_not_elem in Hn. lia.
Qed.

Lemma cleanup_not_factoryCall d τ :
  Forall isFactoryCall τ → CallCleanup d ∉ τ.
Proof.
  intros HF Hin. rewrite Forall_forall in HF.
  by destruct (HF _ Hin) as (? & ? & ? & ?).
Qed.

Lemma task_not_factoryCall args τ :
  Forall isFactoryCall τ → CallTask args ∉ τ.
Proof.
  intros HF Hin. rewrite Forall_forall in HF.
  by destruct (HF _ Hin) as (? & ? & ? & ?).
Qed.

Lemma elem_of_cleanups d ds : CallCleanup d ∈ cleanups ds ↔ d ∈ ds ∧ acquired d = true.
Proof.
  unfold cleanups. rewrite list_elem_of_fmap. split.
  - intros (d' & Heq & Hin). inversion Heq; subst.
    by apply list_elem_of_filter in Hin as [? ?].
  - intros [? ?]. exists d. split; [done|]. by apply list_elem_of_filter.
Qed.

Lemma occurrences_cleanups d ds :
  NoDup ds → d ∈ ds → acquired d = true → occurrences (CallCleanup d) (cleanups ds) = 1.
Proof.
  induction ds as [|x ds IH]; intros Hnd Hin Hacq; [by apply elem_of_nil in Hin|].
  apply NoDup_cons in Hnd as [Hx Hnd]. unfold cleanups.
  apply elem_of_cons in Hin as [<-|Hin].
  - rewrite filter_cons_True by done. rewrite fmap_cons, occurrences_cons_eq.
    rewrite occurrences_not_elem; [done|].
    intros H. apply (elem_of_cleanups d ds) in H as [? ?]. done.
  - destruct (decide (acquired x = true)).
    + rewrite filter_cons_True by done. rewrite fmap_cons, occurrences_cons_ne.
      * by apply IH.
      * intros Heq. inversion Heq; subst. done.
    + rewrite filter_cons_False by done. by apply IH.
Qed.

(** ** The trace of a run *)

Lemma firstRejected_None ds :
  Promise.firstRejected ds = None ↔ Forall (λ d, acquired d = true) ds.
Proof.
  induction ds as [|d ds IH]; simpl.
  - split; [constructor|done].
  - unfold acquired at 1. destruct (disposer_promise d) eqn:Hp.
    + rewrite IH. split.
      * intros H. constructor; [unfold acquired; by rewrite Hp|done].
      * by intros [_ ?]%Forall_cons.
    + split; [done|]. intros [H _]%Forall_cons. unfold acquired in H.
      by rewrite Hp in H.
Qed.

Lemma cleanups_all ds :
  Promise.firstRejected ds = None → cleanups ds = CallCleanup <$> ds.
Proof.
  intros H%firstRejected_None. unfold cleanups. f_equal.
  induction H as [|d ds Hd H IH]; [done|].
  rewrite filter_cons_True by done. by f_equal.
Qed.

Lemma firstRejected_Some ds e :
  Promise.firstRejected ds = Some e →
  ∃ ds1 d ds2, ds = ds1 ++ d :: ds2 ∧ disposer_promise d = Rejected e ∧
               Forall (λ d, acquired d = true) ds1.
Proof.
  induction ds as [|d ds IH]; simpl; [done|].
  destruct (disposer_promise d) eqn:Hp.
  - intros (ds1 & d' & ds2 & -> & Hd' & Hall)%IH.
    exists (d :: ds1), d', ds2. split; [done|]. split; [done|].
    constructor; [unfold acquired; by rewrite Hp|done].
  - intros [= ->]. exists [], d, ds. by repeat split.
Qed.

Lemma fresh_disposersAllocated st : fresh (this st) → disposersAllocated st.
Proof. unfold fresh, disposersAllocated. intros ->. split; constructor. Qed.

(** A run that returns its promise: the calls of resolution, then the unit
    of work unless an acquisition was rejected, then the cleanups. *)
Lemma run_returns_trace paramTypes depth task st p st' :
  fresh (this st) →
  Scope.run paramTypes depth task st = (Ok p, st') →
  ∃ objs st1 τ,
    Scope.resolve paramTypes depth st = (Ok objs, st1) ∧
    trace st1 = trace st ++ τ ∧
    acquisitions [] τ None ∧
    disposers (this st') = recorded τ ∧
    NoDup (recorded τ).*2 ∧
    match Promise.firstRejected (recorded τ).*2 with
    | Some e =>
        p = Rejected e ∧
        trace st' = trace st ++ τ ++ cleanups (recorded τ).*2
    | None =>
        p = settle (task objs) ∧
        trace st' = trace st ++ τ ++ CallTask objs :: cleanups (recorded τ).*2
    end.
Proof.
  intros Hfresh Hrun.
  apply run_returns in Hrun as (objs & st1 & Hres & Hrun).
  pose proof (resolve_spec _ _ _ _ _ Hres) as (_ & _ & _ & _ & _ & HS & HD).
  destruct HS as (τ & Ht & Hd & Ha). simpl in Ha.
  rewrite Hfresh in Hd, Ha. simpl in Hd, Ha.
  specialize (HD (fresh_disposersAllocated _ Hfresh)). destruct HD as [Hnd _].
  apply NoDup_fmap_1 in Hnd. rewrite Hd in Hnd.
  exists objs, st1, τ. split; [done|]. split; [done|]. split; [done|].
  rewrite runTask_spec in Hrun. simpl this in Hrun. rewrite Hd in Hrun.
  destruct (Promise.firstRejected _) as [e|];
    inversion Hrun; subst; simpl; rewrite Ht, <- ?app_assoc; done.
Qed.

(** A run that throws: only disposer factories were called, and the
    exception is that of the factory that threw, if one did. *)
Lemma run_throws_trace paramTypes depth task st e st' :
  Scope.run paramTypes depth task st = (Throw e, st') →
  Scope.resolve paramTypes depth st = (Throw e, st') ∧
  ∃ τ, trace st' = trace st ++ τ ∧
       acquisitions (disposers (this st)).*1 τ (Some e) ∧
       disposers (this st') = disposers (this st) ++ recorded τ.
Proof.
  rewrite run_unfold.
  destruct (Scope.resolve paramTypes depth st) as [[objs|e'] st1] eqn:Hres.
  - rewrite runTask_spec. by destruct (Promise.firstRejected _).
  - intros H; inversion H; subst; clear H. split; [done|].
    pose proof (resolve_spec _ _ _ _ _ Hres) as (_ & _ & _ & _ & _ & HS & _).
    destruct HS as (τ & Ht & Hd & Ha). eauto.
Qed.

Lemma mapM_get_inOrder paramTypes depth ids : ∀ st vs st',
  mapM (Kernel.get paramTypes depth) ids st = (Ok vs, st') ↔
  resolvedInOrder paramTypes depth ids st vs st'.
Proof.
  induction ids as [|id ids IH]; intros st vs st'; simpl.
  - split.
    + intros H. inversion H; subst. constructor.
    + intros H. by inversion H; subst.
  - split.
    + intros H. apply bind_inv in H as [(v & st1 & Hget & H)|(e & _ & [=])].
      apply bind_inv in H as [(vs' & st2 & Hrest & H)|(e & _ & [=])].
      inversion H; subst. econstructor; [done|by apply IH].
    + intros H. inversion H; subst.
      erewrite bind_Ok by done. erewrite bind_Ok by (by apply IH). done.
Qed.

Lemma resolvedInOrder_length paramTypes depth ids st vs st' :
  resolvedInOrder paramTypes depth ids st vs st' → length vs = length ids.
Proof. induction 1; simpl; auto. Qed.

Lemma resolve_inv paramTypes depth st objs st1 :
  Scope.resolve paramTypes depth st = (Ok objs, st1) →
  ∃ sa sb st0,
    Kernel.snapshot st = (Ok tt, sa) ∧
    Scope.bindScopeContext paramTypes depth sa = (Ok tt, sb) ∧
    Scope.bindScopeResources sb = (Ok tt, st0) ∧
    Scope.injectScopeParameters paramTypes depth st0 = (Ok objs, st1).
Proof.
  unfold Scope.resolve. intros H.
  apply bind_inv in H as [([] & sa & Hs & H)|(e & _ & [=])].
  apply bind_inv in H as [([] & sb & Hc & H)|(e & _ & [=])].
  apply bind_inv in H as [([] & st0 & Hr & H)|(e & _ & [=])].
  eauto 8.
Qed.

(** ** Bindings under resolution *)

Lemma lookup_activate_ne id id' v st :
  id' ≠ id →
  Kernel.lookup id' (kernel (after (Kernel.activate id v) st)) =
  Kernel.lookup id' (kernel st).
Proof.
  intros Hne. unfold Kernel.lookup. simpl.
  induction (bindings (kernel st)) as [|b l IH]; [done|].
  rewrite fmap_cons. destruct (decide (serviceIdentifier b = id)) as [Hb|Hb].
  - rewrite !filter_cons_False by (simpl; congruence). done.
  - destruct (decide (serviceIdentifier b = id')).
    + rewrite !filter_cons_True by done. by rewrite IH.
    + rewrite !filter_cons_False by done. done.
Qed.

Lemma lookup_activate_nil id v (l : list Binding) :
  filter (λ b, serviceIdentifier b = id) l = [] →
  filter (λ b, serviceIdentifier b = id)
    ((λ b, if decide (serviceIdentifier b = id)
           then {| serviceIdentifier := serviceIdentifier b;
                   implementation := implementation b;
                   bindingScope := bindingScope b; cache := Some v |}
           else b) <$> l) = [].
Proof.
  induction l as [|y l IH]; [done|]. rewrite fmap_cons.
  destruct (decide (serviceIdentifier y = id)).
  - by rewrite filter_cons_True by done.
  - rewrite !filter_cons_False by done. done.
Qed.

Lemma lookup_activate_eq id v st b :
  Kernel.lookup id (kernel st) = [b] →
  Kernel.lookup id (kernel (after (Kernel.activate id v) st)) =
    [{| serviceIdentifier := serviceIdentifier b; implementation := implementation b;
        bindingScope := bindingScope b; cache := Some v |}].
Proof.
  unfold Kernel.lookup. simpl.
  induction (bindings (kernel st)) as [|x l IH] in b |- *; [done|].
  rewrite fmap_cons.
  destruct (decide (serviceIdentifier x = id)) as [Hx|Hx].
  - rewrite filter_cons_True by done. intros [= -> Hl].
    rewrite filter_cons_True by done. f_equal. by apply lookup_activate_nil.
  - rewrite !filter_cons_False by done. apply IH.
Qed.

Lemma Frame_lookup id st st' :
  Frame st st' →
  Forall2 sameBinding (Kernel.lookup id (kernel st)) (Kernel.lookup id (kernel st')).
Proof.
  intros [_ H]. unfold Kernel.lookup.
  induction H as [|b b' l l' Hb H IH]; [constructor|].
  destruct (decide (serviceIdentifier b = id)) as [Hid|Hid].
  - rewrite !filter_cons_True; [by constructor| |done].
    destruct Hb as (<- & _). done.
  - rewrite !filter_cons_False; [done| |done].
    destruct Hb as (<- & _). done.
Qed.

Lemma Frame_lookup_unique id st st' b :
  Frame st st' → Kernel.lookup id (kernel st) = [b] →
  ∃ b', Kernel.lookup id (kernel st') = [b'] ∧ sameBinding b b'.
Proof.
  intros HF Hl. pose proof (Frame_lookup id _ _ HF) as H. rewrite Hl in H.
  inversion H as [|? b' ? l' Hb Hnil]; subst. inversion Hnil; subst. eauto.
Qed.

Lemma Frame_lookup_unique_inv id st st' b' :
  Frame st st' → Kernel.lookup id (kernel st') = [b'] →
  ∃ b, Kernel.lookup id (kernel st) = [b] ∧ sameBinding b b'.
Proof.
  intros HF Hl. pose proof (Frame_lookup id _ _ HF) as H. rewrite Hl in H.
  inversion H as [|b ? l ? Hb Hnil]; subst. inversion Hnil; subst. eauto.
Qed.

Lemma sameBinding_cached b b' :
  sameBinding b b' → Kernel.cached b' = None → Kernel.cached b = None.
Proof.
  intros (_ & _ & Hs & Hc). unfold Kernel.cached. rewrite Hs.
  destruct (bindingScope b'); auto.
Qed.

Lemma sameBinding_needs paramTypes b b' id :
  sameBinding b b' → needs paramTypes b id ↔ needs paramTypes b' id.
Proof. intros (_ & Hi & _). unfold needs. by rewrite Hi. Qed.

(** Links and paths of a later state were there before. *)
Lemma Frame_Link paramTypes st st' id id' :
  Frame st st' → Link paramTypes st' id id' → Link paramTypes st id id'.
Proof.
  intros HF (b' & Hl & Hc & Hn).
  destruct (Frame_lookup_unique_inv _ _ _ _ HF Hl) as (b & Hlb & Hsame).
  exists b. split; [done|]. split; [by eapply sameBinding_cached|].
  by eapply sameBinding_needs.
Qed.

Lemma Frame_Path paramTypes st st' target id :
  Frame st st' → Path paramTypes st' target id → Path paramTypes st target id.
Proof.
  intros HF. induction 1 as [|id id' HL _ IH]; [constructor|].
  econstructor; [by eapply Frame_Link|done].
Qed.

(** ** No instance is made while it is being made

    A resolution that leads back to an identifier it is resolving never
    returns: the singleton on the way holds no instance until it returns, so
    the nested resolution takes the same way again, one call deeper. *)

Section Reentrancy.

Variable paramTypes : Class → list InjectionIdentifier.
Variable target : InjectionIdentifier.

(** The links that lead to [target] are still there. *)
Local Abbreviation Stable st st' :=
  (∀ u u', Link paramTypes st u u' → Path paramTypes st target u' →
           Link paramTypes st' u u').

Lemma Stable_Path st st' u :
  Stable st st' → Path paramTypes st target u → Path paramTypes st' target u.
Proof.
  intros HS. induction 1 as [|u u' HL HP IH]; [constructor|].
  econstructor; [by apply HS|done].
Qed.

Lemma Stable_Cyclic st st' :
  Stable st st' → Cyclic paramTypes st target → Cyclic paramTypes st' target.
Proof.
  intros HS (id' & HL & HP). exists id'. split; [by apply HS|by eapply Stable_Path].
Qed.

Lemma Stable_trans a b c : Stable a b → Stable b c → Stable a c.
Proof.
  intros Hab Hbc u u' HL HP. apply Hbc; [by apply Hab|by eapply Stable_Path].
Qed.

Lemma Link_kernel st st' u u' :
  kernel st' = kernel st → Link paramTypes st u u' → Link paramTypes st' u u'.
Proof. intros Hk (b & ? & ? & ?). exists b. by rewrite Hk. Qed.

Lemma Stable_kernel st st' : kernel st' = kernel st → Stable st st'.
Proof. intros Hk u u' HL _. by eapply Link_kernel. Qed.

Lemma Stable_activate st id v :
  ¬ Path paramTypes st target id → Stable st (after (Kernel.activate id v) st).
Proof.
  intros Hid u u' HL HP.
  assert (u ≠ id) as Hne.
  { intros ->. apply Hid. by econstructor. }
  destruct HL as (b & Hl & Hc & Hn). exists b.
  by rewrite lookup_activate_ne.
Qed.

Lemma Path_Link st id :
  Cyclic paramTypes st target → Path paramTypes st target id →
  ∃ id', Link paramTypes st id id' ∧ Path paramTypes st target id'.
Proof. intros Hcyc HP. destruct HP as [|id id' HL HP]; [exact Hcyc|eauto]. Qed.

(** What [blocked] says of [kernel_get]. *)
Local Abbreviation blocks kernel_get :=
  (∀ id st r st', Cyclic paramTypes st target →
     kernel_get id st = (r, st') →
     (Path paramTypes st target id → outcome r ≠ None) ∧
     (outcome r = None → Stable st st')).

Lemma mapM_blocked (kernel_get : InjectionIdentifier → M Value) ids :
  blocks kernel_get →
  ∀ st r st', Cyclic paramTypes st target →
    mapM kernel_get ids st = (r, st') →
    (∀ id, id ∈ ids → Path paramTypes st target id → outcome r ≠ None) ∧
    (outcome r = None → Stable st st').
Proof.
  intros Hget. induction ids as [|x xs IH]; intros st r st' Hcyc H; simpl in H.
  - inversion H; subst. split; [by intros id ?%elem_of_nil|]. intros _ u u' HL _. done.
  - apply bind_inv in H as [(y & st1 & Hx & H)|(e & Hx & ->)]; [|by split].
    destruct (Hget _ _ _ _ Hcyc Hx) as [Hx1 Hx2].
    specialize (Hx2 eq_refl).
    pose proof (Stable_Cyclic _ _ Hx2 Hcyc) as Hcyc1.
    apply bind_inv in H as [(ys & st2 & Hxs & H)|(e & Hxs & ->)].
    + inversion H; subst. destruct (IH _ _ _ Hcyc1 Hxs) as [IH1 IH2].
      split.
      * intros id Hin HP. apply elem_of_cons in Hin as [->|Hin].
        -- by apply Hx1 in HP.
        -- eapply IH1; [done|]. by eapply Stable_Path.
      * intros _. eapply Stable_trans; [done|]. by apply IH2.
    + split; [done|]. done.
Qed.

Lemma instantiate_Frame kernel_get b st r st' :
  (∀ id st r st', kernel_get id st = (r, st') → Frame st st') →
  Kernel.instantiate paramTypes kernel_get b st = (r, st') → Frame st st'.
Proof.
  intros Hget. revert st r st'.
  apply (sat_instantiate paramTypes (λ st _ st', Frame st st')).
  - apply Frame_refl.
  - intros a b' c _. apply Frame_trans.
  - intros o st. split; [by split; simpl; auto|simpl; apply Forall2_sameBinding_refl].
  - intros name resource instance st r st' _ H.
    pose proof (Frame_acquire name resource instance st) as HF.
    unfold after in HF. by rewrite H in HF.
  - done.
Qed.

Lemma acquire_kernel name resource instance st r st' :
  acquire name resource instance st = (r, st') → kernel st' = kernel st.
Proof.
  unfold acquire, bind, callDisposerFactory, setDisposer, emit, throw.
  destruct (disposerFactory resource instance); simpl;
    intros H; by inversion H.
Qed.

Lemma construct_kernel c args st r st' :
  Kernel.construct c args st = (r, st') → kernel st' = kernel st.
Proof.
  unfold Kernel.construct. destruct (decide _); intros H; by inversion H.
Qed.

Lemma scopeResourceValue_inv kernel_get resource st r st' :
  scopeResourceValue kernel_get resource st = (r, st') →
  (∃ e, kernel_get (instanceBindName (class_name (constructor resource))) st
          = (Throw e, st') ∧ r = Throw e) ∨
  (∃ instance st1,
     kernel_get (instanceBindName (class_name (constructor resource))) st
       = (Ok instance, st1) ∧
     ((hasDisposer (class_name (constructor resource)) (disposers (this st1)) = true ∧
       r = Ok instance ∧ st' = st1) ∨
      ((lookupDisposer (class_name (constructor resource)) (disposers (this st1)) = None ∧
        inherited (class_name (constructor resource)) = false) ∧
       ∃ r0, acquire (class_name (constructor resource)) resource instance st1 = (r0, st') ∧
             r = match r0 with Ok _ => Ok instance | Throw e => Throw e end))).
Proof.
  unfold scopeResourceValue. simpl. intros H.
  apply bind_inv in H as [(instance & st1 & Hget & H)|(e & Hget & ->)]; [|left; eauto].
  right. exists instance, st1. split; [done|].
  apply bind_inv in H as [([] & st2 & Hacq & H)|(e & Hacq & ->)].
  - inversion H; subst; clear H.
    destruct (hasDisposer _ _) eqn:Hl.
    + left. inversion Hacq; subst. eauto.
    + right. split; [by apply hasDisposer_false|]. by exists (Ok tt).
  - destruct (hasDisposer _ _) eqn:Hl; [done|].
    right. split; [by apply hasDisposer_false|]. by exists (Throw e).
Qed.

Lemma instantiate_blocked kernel_get b st r st' id' :
  blocks kernel_get →
  Cyclic paramTypes st target →
  Kernel.instantiate paramTypes kernel_get b st = (r, st') →
  (needs paramTypes b id' → Path paramTypes st target id' → outcome r ≠ None) ∧
  (outcome r = None → Stable st st').
Proof.
  intros Hget Hcyc. unfold Kernel.instantiate, needs.
  destruct (implementation b) as [c|v|resource].
  - intros H. apply bind_inv in H as [(args & st1 & Hargs & H)|(e & Hargs & ->)].
    + destruct (mapM_blocked _ _ Hget _ _ _ Hcyc Hargs) as [H1 H2].
      split.
      * intros Hin HP. by specialize (H1 _ Hin HP).
      * intros _. eapply Stable_trans; [by apply H2|].
        apply Stable_kernel. by eapply construct_kernel.
    + by split.
  - intros H. inversion H; subst. split; [done|]. intros _ u u' HL _. done.
  - intros H. apply scopeResourceValue_inv in H
      as [(e & Hk & ->)|(instance & st1 & Hk & H)]; [by split|].
    destruct (Hget _ _ _ _ Hcyc Hk) as [H1 H2]. specialize (H2 eq_refl).
    split.
    + intros -> HP. by apply H1 in HP.
    + intros Hr. eapply Stable_trans; [done|]. apply Stable_kernel.
      destruct H as [(_ & _ & ->)|(_ & r0 & Hacq & _)]; [done|].
      by eapply acquire_kernel.
Qed.

Lemma blocked depth : blocks (Kernel.get paramTypes depth).
Proof.
  induction depth as [|d IH]; intros id st r st' Hcyc H.
  - inversion H; subst. by split.
  - rewrite get_S in H.
    destruct (Kernel.lookup id (kernel st)) as [|b [|b' l]] eqn:Hl;
      [inversion H; subst; by split| |inversion H; subst; by split].
    unfold Kernel.resolveBinding in H.
    assert (Hpath : Path paramTypes st target id → Kernel.cached b = None ∧
              ∃ id', needs paramTypes b id' ∧ Path paramTypes st target id').
    { intros HP. destruct (Path_Link _ _ Hcyc HP) as (id' & (b0 & Hl0 & Hc & Hn) & HP').
      rewrite Hl in Hl0. inversion Hl0; subst b0. eauto. }
    destruct (Kernel.cached b) as [v|] eqn:Hc.
    { inversion H; subst. split.
      - intros HP. by destruct (Hpath HP) as [? _].
      - intros _ u u' HL _. done. }
    apply bind_inv in H as [(v & st1 & Hinst & H)|(e & Hinst & ->)]; [|by split].
    assert (∀ id', needs paramTypes b id' → Path paramTypes st target id' → False)
      as Hnopath.
    { intros id' Hn HP.
      destruct (instantiate_blocked _ _ _ _ _ id' IH Hcyc Hinst) as [H1 _].
      by specialize (H1 Hn HP). }
    assert (¬ Path paramTypes st target id) as Hid.
    { intros HP. destruct (Hpath HP) as (_ & id' & Hn & HP'). eauto. }
    split; [done|]. intros Hr.
    destruct (instantiate_blocked _ _ _ _ _ id IH Hcyc Hinst) as [_ H2].
    specialize (H2 eq_refl). eapply Stable_trans; [done|].
    apply bind_inv in H as [([] & st2 & Hact & H)|(e & Hact & ->)]; [|done].
    inversion H; subst; clear H.
    destruct (bindingScope b).
    + inversion Hact; subst. intros u u' HL _. done.
    + inversion Hact; subst. apply Stable_activate.
      intros HP. apply Hid. eapply Frame_Path; [|done].
      eapply instantiate_Frame; [|done]. intros. by eapply get_Frame.
Qed.

End Reentrancy.

Section Reach.

Variable paramTypes : Class → list InjectionIdentifier.
Variable name : string.

Local Abbreviation target := (instanceBindName name).

Lemma instanceOf_kernel st st' :
  kernel st' = kernel st → instanceOf name st' = instanceOf name st.
Proof. intros Hk. unfold instanceOf. by rewrite Hk. Qed.

Lemma instanceOf_activate_ne id v st :
  id ≠ target →
  instanceOf name (after (Kernel.activate id v) st) = instanceOf name st.
Proof. intros Hne. unfold instanceOf. by rewrite lookup_activate_ne. Qed.

(** What [reach] says of [kernel_get]. *)
Local Abbreviation reaches kernel_get :=
  (∀ id st v st', kernel_get id st = (Ok v, st') →
     instanceOf name st = None → instanceOf name st' ≠ None →
     Path paramTypes st target id).

Lemma mapM_reach (kernel_get : InjectionIdentifier → M Value) ids :
  (∀ id st r st', kernel_get id st = (r, st') → Frame st st') →
  reaches kernel_get →
  ∀ st vs st', mapM kernel_get ids st = (Ok vs, st') →
    instanceOf name st = None → instanceOf name st' ≠ None →
    ∃ id, id ∈ ids ∧ Path paramTypes st target id.
Proof.
  intros HF Hget. induction ids as [|x xs IH]; intros st vs st' H Hnone Hsome; simpl in H.
  - inversion H; subst. done.
  - apply bind_inv in H as [(y & st1 & Hx & H)|(e & _ & [=])].
    apply bind_inv in H as [(ys & st2 & Hxs & H)|(e & _ & [=])].
    inversion H; subst; clear H.
    destruct (instanceOf name st1) as [w|] eqn:Hi.
    + exists x. split; [left|]. eapply Hget; [done..|]. by rewrite Hi.
    + destruct (IH _ _ _ Hxs Hi Hsome) as (id & Hin & HP).
      exists id. split; [by right|]. eapply Frame_Path; [|done]. by eapply HF.
Qed.

Lemma reach depth : reaches (Kernel.get paramTypes depth).
Proof.
  induction depth as [|d IH]; intros id st v st' H Hnone Hsome; [by inversion H|].
  rewrite get_S in H.
  destruct (Kernel.lookup id (kernel st)) as [|b [|b' l]] eqn:Hl;
    [by inversion H| |by inversion H].
  unfold Kernel.resolveBinding in H.
  destruct (Kernel.cached b) as [v0|] eqn:Hc.
  { inversion H; subst. done. }
  apply bind_inv in H as [(v1 & st1 & Hinst & H)|(e & _ & [=])].
  apply bind_inv in H as [([] & st2 & Hact & H)|(e & _ & [=])].
  inversion H; subst; clear H.
  destruct (instanceOf name st1) as [w|] eqn:Hi.
  - (* the instance was made while the binding was instantiated *)
    assert (∃ id', needs paramTypes b id' ∧ Path paramTypes st target id')
      as (id' & Hn & HP).
    { unfold Kernel.instantiate, needs in *.
      destruct (implementation b) as [c|c|resource].
      - apply bind_inv in Hinst as [(args & st0 & Hargs & Hc')|(e & _ & [=])].
        apply construct_kernel in Hc'.
        rewrite (instanceOf_kernel _ _ Hc') in Hi.
        destruct (mapM_reach _ _ (get_Frame paramTypes d) IH _ _ _ Hargs)
          as (id' & ? & ?); [done|by rewrite Hi|]. eauto.
      - inversion Hinst; subst. congruence.
      - apply scopeResourceValue_inv in Hinst
          as [(e & _ & [=])|(instance & st0 & Hk & Hrest)].
        assert (kernel st1 = kernel st0) as Hk'.
        { destruct Hrest as [(_ & _ & ->)|(_ & r0 & Hacq & _)]; [done|].
          by eapply acquire_kernel. }
        rewrite (instanceOf_kernel _ _ Hk') in Hi.
        eexists. split; [done|]. eapply IH; [done..|]. by rewrite Hi. }
    econstructor; [|done]. by exists b.
  - (* the instance was stored by the activation of this binding *)
    destruct (decide (id = target)) as [->|Hne]; [constructor|].
    exfalso. apply Hsome.
    destruct (bindingScope b); [inversion Hact; by subst|].
    assert (st' = after (Kernel.activate id v) st1) as ->
      by (unfold after; by rewrite Hact).
    by rewrite instanceOf_activate_ne.
Qed.

(** While the instance of a resource is constructed, resolving the
    parameters of its constructor does not store an instance. *)
Lemma no_reentrancy depth st b c args st1 :
  Kernel.lookup target (kernel st) = [b] →
  Kernel.cached b = None →
  implementation b = ToClass c →
  mapM (Kernel.get paramTypes depth) (Kernel.constructorParameters paramTypes c) st
    = (Ok args, st1) →
  instanceOf name st1 = None.
Proof.
  intros Hl Hc Himpl Hargs.
  destruct (instanceOf name st1) as [w|] eqn:Hi; [|done]. exfalso.
  assert (instanceOf name st = None) as Hnone.
  { unfold instanceOf. by rewrite Hl. }
  destruct (mapM_reach _ _ (get_Frame paramTypes depth) (reach depth) _ _ _ Hargs)
    as (id & Hin & HP); [done|by rewrite Hi|].
  assert (Cyclic paramTypes st target) as Hcyc.
  { exists id. split; [|done]. exists b. split; [done|]. split; [done|].
    unfold needs. by rewrite Himpl. }
  destruct (mapM_blocked paramTypes target _ _ (blocked paramTypes target depth)
              _ _ _ Hcyc Hargs) as [H1 _].
  by specialize (H1 _ Hin HP).
Qed.

End Reach.

(** ** One instance per resource and scope *)

Lemma lookup_Exists (P : Binding → Prop) id k b :
  Exists P (bindings k) → (∀ x, P x → serviceIdentifier x = id) →
  Kernel.lookup id k = [b] → P b.
Proof.
  intros (x & Hin & HP)%Exists_exists Hid Hl.
  assert (x ∈ Kernel.lookup id k) as Hx.
  { unfold Kernel.lookup. apply list_elem_of_filter. split; [by apply Hid|done]. }
  rewrite Hl in Hx. apply list_elem_of_singleton in Hx. by subst.
Qed.

Lemma Exists_Frame (P : Binding → Prop) st st' :
  (∀ b b', sameBinding b b' → P b → P b') →
  Frame st st' → Exists P (bindings (kernel st)) → Exists P (bindings (kernel st')).
Proof.
  intros HP [_ HF] HE. induction HF as [|b b' l l' Hb HF IH]; [by inversion HE|].
  inversion HE; subst; [left; by eapply HP|right; auto].
Qed.

Lemma isInstanceBinding_same name b b' :
  sameBinding b b' → isInstanceBinding name b → isInstanceBinding name b'.
Proof. unfold isInstanceBinding. intros (<- & <- & <- & _). done. Qed.

Lemma isResourceBinding_same resource b b' :
  sameBinding b b' → isResourceBinding resource b → isResourceBinding resource b'.
Proof. unfold isResourceBinding. intros (<- & <- & <- & _). done. Qed.

Lemma acquire_Ok name resource instance st st' :
  acquire name resource instance st = (Ok tt, st') →
  kernel st' = kernel st ∧ heap st' = heap st ∧ next_ref st ≤ next_ref st' ∧
  ∃ d, trace st' = trace st ++ [CallDisposerFactory name instance (Ok d)].
Proof.
  unfold acquire, bind, callDisposerFactory, setDisposer, emit, throw.
  destruct (disposerFactory resource instance); simpl;
    intros H; inversion H; subst; simpl.
  split; [done|]. split; [done|]. split; [lia|]. eauto.
Qed.

Section Instance.

Variable paramTypes : Class → list InjectionIdentifier.
Variable resource : ScopeResource.
Variable n0 : nat.

Local Abbreviation name := (class_name (constructor resource)).
Local Abbreviation Rc := (IdClass (constructor resource)).
Local Abbreviation key := (instanceBindName (class_name (constructor resource))).
Local Abbreviation Inv := (ResourceInv paramTypes resource n0).

(** What [delivers] says of [kernel_get]. *)
Local Abbreviation delivers kernel_get :=
  (∀ id st v st', Inv st → kernel_get id st = (Ok v, st') →
     Delivered paramTypes resource n0 st st' ∧
     (id = Rc ∨ id = key → instanceOf name st' = Some v)).

Lemma Delivered_refl st : Inv st → Delivered paramTypes resource n0 st st.
Proof.
  intros HI. split; [done|]. split; [done|].
  exists []. split; [by rewrite app_nil_r|]. by intros i o ?%elem_of_nil.
Qed.

Lemma Delivered_trans a b c :
  Delivered paramTypes resource n0 a b → Delivered paramTypes resource n0 b c →
  Delivered paramTypes resource n0 a c.
Proof.
  intros (_ & Hm1 & τ1 & Ht1 & He1) (HI & Hm2 & τ2 & Ht2 & He2).
  split; [done|]. split; [auto|].
  exists (τ1 ++ τ2). split; [by rewrite Ht2, Ht1, app_assoc|].
  intros i o [Hin|Hin]%elem_of_app; eauto.
Qed.

(** A step that leaves the registry and the objects alone. *)
Lemma Delivered_quiet st st' τ :
  kernel st' = kernel st → heap st' = heap st → next_ref st ≤ next_ref st' →
  trace st' = trace st ++ τ →
  (∀ i o, CallDisposerFactory name i o ∈ τ → instanceOf name st = Some i) →
  Inv st → Delivered paramTypes resource n0 st st'.
Proof.
  intros Hk Hh Hn Ht He [H1 H2 H3 H4 H5].
  assert (Hi : instanceOf name st' = instanceOf name st) by by apply instanceOf_kernel.
  split; [|split].
  - split; rewrite ?Hk, ?Hh, ?Hi; auto; [lia|].
    intros v Hv. destruct (H4 v Hv) as (ref & -> & ?). exists ref. split; [done|lia].
  - intros w. by rewrite Hi.
  - exists τ. split; [done|]. intros i o Hin. rewrite Hi. eauto.
Qed.

Lemma mapM_delivers (kernel_get : InjectionIdentifier → M Value) ids :
  delivers kernel_get →
  ∀ st vs st', Inv st → mapM kernel_get ids st = (Ok vs, st') →
    Delivered paramTypes resource n0 st st' ∧
    ∀ j, ids !! j = Some Rc → ∃ v, vs !! j = Some v ∧ instanceOf name st' = Some v.
Proof.
  intros Hget. induction ids as [|x xs IH]; intros st vs st' HI H; simpl in H.
  - inversion H; subst. split; [by apply Delivered_refl|]. done.
  - apply bind_inv in H as [(y & st1 & Hx & H)|(e & _ & [=])].
    apply bind_inv in H as [(ys & st2 & Hxs & H)|(e & _ & [=])].
    inversion H; subst; clear H.
    destruct (Hget _ _ _ _ HI Hx) as [HD1 Hr1].
    destruct (IH _ _ _ (proj1 HD1) Hxs) as [HD2 Hr2].
    split; [by eapply Delivered_trans|].
    intros [|j] Hj; simpl in *.
    + inversion Hj; subst x. exists y. split; [done|].
      apply HD2. apply Hr1. by left.
    + by apply Hr2.
Qed.

Lemma Inv_unique_instance st b :
  Inv st → Kernel.lookup key (kernel st) = [b] → isInstanceBinding name b.
Proof.
  intros [H _ _ _ _]. apply (lookup_Exists _ _ _ _ H). by intros x (? & _).
Qed.

Lemma Inv_unique_resource st b :
  Inv st → Kernel.lookup Rc (kernel st) = [b] → isResourceBinding resource b.
Proof.
  intros [_ H _ _ _]. apply (lookup_Exists _ _ _ _ H). by intros x (? & _).
Qed.

Lemma construct_delivers c args st v st' :
  Inv st →
  (∀ j, Kernel.constructorParameters paramTypes c !! j = Some Rc →
        ∃ v, args !! j = Some v ∧ instanceOf name st = Some v) →
  Kernel.construct c args st = (Ok v, st') →
  Delivered paramTypes resource n0 st st' ∧
  v = VObject (next_ref st) ∧ kernel st' = kernel st ∧
  next_ref st' = S (next_ref st).
Proof.
  intros [H1 H2 H3 H4 H5] Hargs Hc.
  assert (∃ o, st' = after (alloc o) st ∧ v = VObject (next_ref st) ∧
               (∀ c' args', o = Instance c' args' → c' = c ∧ args' = args))
    as (o & -> & -> & Ho).
  { unfold Kernel.construct in Hc. destruct (decide _); inversion Hc; subst;
      eexists; (split; [reflexivity|]); (split; [done|]); intros ? ? [=]; by subst. }
  split; [|done]. split; [|split].
  - split; simpl; auto.
    + intros v Hv. destruct (H4 v Hv) as (ref & -> & ?). exists ref. split; [done|lia].
    + intros ref c' args' j Hn0 Hh Hj.
      destruct (decide (ref = next_ref st)) as [->|Hne].
      * rewrite lookup_insert_eq in Hh. inversion Hh as [Heq].
        destruct (Ho _ _ Heq) as [-> ->]. by apply Hargs.
      * rewrite lookup_insert_ne in Hh by done. by eapply H5.
  - done.
  - exists []. split; [simpl; by rewrite app_nil_r|]. by intros i out ?%elem_of_nil.
Qed.

Lemma activate_other id v st :
  id ≠ key → Inv st →
  Delivered paramTypes resource n0 st (after (Kernel.activate id v) st).
Proof.
  intros Hne [H1 H2 H3 H4 H5].
  pose proof (instanceOf_activate_ne name id v st Hne) as Hi.
  split; [|split].
  - split; rewrite ?Hi; auto.
    + eapply Exists_Frame; [apply isInstanceBinding_same|apply Frame_activate|done].
    + eapply Exists_Frame; [apply isResourceBinding_same|apply Frame_activate|done].
  - intros w. by rewrite Hi.
  - exists []. split; [simpl; by rewrite app_nil_r|]. by intros i o ?%elem_of_nil.
Qed.

Lemma activate_key b ref st :
  Kernel.lookup key (kernel st) = [b] → bindingScope b = SingletonScope →
  instanceOf name st = None → Inv st → n0 ≤ ref < next_ref st →
  Delivered paramTypes resource n0 st (after (Kernel.activate key (VObject ref)) st) ∧
  instanceOf name (after (Kernel.activate key (VObject ref)) st) = Some (VObject ref).
Proof.
  intros Hl Hs Hnone [H1 H2 H3 H4 H5] Href.
  assert (Hi : instanceOf name (after (Kernel.activate key (VObject ref)) st)
               = Some (VObject ref)).
  { unfold instanceOf. rewrite (lookup_activate_eq _ _ _ _ Hl).
    unfold Kernel.cached. simpl. by rewrite Hs. }
  split; [|done]. split; [|split].
  - split; rewrite ?Hi; auto.
    + eapply Exists_Frame; [apply isInstanceBinding_same|apply Frame_activate|done].
    + eapply Exists_Frame; [apply isResourceBinding_same|apply Frame_activate|done].
    + intros v [= <-]. eauto.
    + intros r c args j Hn0 Hh Hj. simpl in Hh.
      destruct (H5 _ _ _ _ Hn0 Hh Hj) as (v & _ & Hv). congruence.
  - intros w. congruence.
  - exists []. split; [simpl; by rewrite app_nil_r|]. by intros i o ?%elem_of_nil.
Qed.

Lemma get_delivers depth : delivers (Kernel.get paramTypes depth).
Proof.
  induction depth as [|d IH]; intros id st v st' HI H; [by inversion H|].
  rewrite get_S in H.
  destruct (Kernel.lookup id (kernel st)) as [|b [|b' l]] eqn:Hl;
    [by inversion H| |by inversion H].
  unfold Kernel.resolveBinding in H.
  destruct (Kernel.cached b) as [v0|] eqn:Hc.
  { inversion H; subst. split; [by apply Delivered_refl|].
    intros [->| ->].
    - apply (Inv_unique_resource _ _ HI) in Hl as (_ & Hs & _).
      unfold Kernel.cached in Hc. by rewrite Hs in Hc.
    - unfold instanceOf. by rewrite Hl. }
  apply bind_inv in H as [(v1 & st1 & Hinst & H)|(e & _ & [=])].
  apply bind_inv in H as [([] & st2 & Hact & H)|(e & _ & [=])].
  inversion H; subst; clear H.
  (* the binding is instantiated *)
  assert (Delivered paramTypes resource n0 st st1 ∧
          (id = Rc → instanceOf name st1 = Some v) ∧
          (id = key → instanceOf name st1 = None ∧
                      ∃ ref, v = VObject ref ∧ n0 ≤ ref < next_ref st1))
    as (HD1 & HRc & Hkey).
  { unfold Kernel.instantiate in Hinst.
    destruct (implementation b) as [c|c|r] eqn:Himpl.
    - apply bind_inv in Hinst as [(args & sa & Hargs & Hcon)|(e & _ & [=])].
      destruct (mapM_delivers _ _ IH _ _ _ HI Hargs) as [HDa Hslots].
      destruct (construct_delivers _ _ _ _ _ (proj1 HDa) Hslots Hcon)
        as (HDc & -> & Hk & Hn).
      split; [by eapply Delivered_trans|]. split.
      + intros ->. apply (Inv_unique_resource _ _ HI) in Hl as (_ & _ & Hd). congruence.
      + intros ->. split.
        * rewrite (instanceOf_kernel _ _ _ Hk).
          by eapply no_reentrancy.
        * exists (next_ref sa). split; [done|]. destruct HDa as ([_ _ ? _ _] & _). lia.
    - inversion Hinst; subst. split; [by apply Delivered_refl|]. split.
      + intros ->. apply (Inv_unique_resource _ _ HI) in Hl as (_ & _ & Hd). congruence.
      + intros ->. apply (Inv_unique_instance _ _ HI) in Hl as (_ & _ & c' & Hd). congruence.
    - apply scopeResourceValue_inv in Hinst
        as [(e & _ & [=])|(instance & sa & Hk & Hrest)].
      destruct (IH _ _ _ _ HI Hk) as [HDa Hra].
      assert (v = instance ∧ Delivered paramTypes resource n0 sa st1 ∧
              instanceOf name st1 = instanceOf name sa) as (-> & HDb & Hi).
      { destruct Hrest as [(_ & [= ->] & ->)|(_ & r0 & Hacq & Hr0)].
        - split; [done|]. split; [by apply Delivered_refl; apply HDa|done].
        - destruct r0 as [[]|e]; [|done]. inversion Hr0; subst.
          apply acquire_Ok in Hacq as (Hkk & Hh & Hn & dd & Ht).
          split; [done|]. split; [|by apply instanceOf_kernel].
          eapply Delivered_quiet; try done; [|apply HDa].
          intros i o Hin%list_elem_of_singleton. inversion Hin as [[Hname Hi Ho]].
          apply Hra. right. unfold instanceBindName. by rewrite Hname. }
      split; [by eapply Delivered_trans|]. split.
      + intros ->. apply (Inv_unique_resource _ _ HI) in Hl as (_ & _ & Hd).
        rewrite Himpl in Hd. inversion Hd; subst r.
        rewrite Hi. apply Hra. by right.
      + intros ->. apply (Inv_unique_instance _ _ HI) in Hl as (_ & _ & c' & Hd).
        congruence. }
  (* and activated if it is a singleton *)
  destruct (bindingScope b) eqn:Hs.
  { inversion Hact; subst. split; [done|]. intros [->| ->]; [auto|].
    apply (Inv_unique_instance _ _ HI) in Hl as (_ & Hs' & _). congruence. }
  assert (st' = after (Kernel.activate id v) st1) as ->
    by (unfold after; by rewrite Hact).
  destruct (decide (id = key)) as [->|Hne].
  - destruct (Hkey eq_refl) as (Hnone & ref & -> & Href).
    assert (Frame st st1) as HF.
    { eapply instantiate_Frame; [|done]. intros. by eapply get_Frame. }
    destruct (Frame_lookup_unique _ _ _ _ HF Hl) as (b1 & Hl1 & (_ & _ & Hs1 & _)).
    destruct (activate_key b1 ref st1 Hl1) as [HD2 Hi2]; try done; [congruence|apply HD1|].
    split; [by eapply Delivered_trans|]. done.
  - pose proof (activate_other id v st1 Hne (proj1 HD1)) as HD2.
    split; [by eapply Delivered_trans|].
    intros [->|?]; [|done]. apply HD2. auto.
Qed.

End Instance.

(** ** Installing the overlay *)

(** Steps that make no call and leave the constructed objects alone. *)
Local Abbreviation Silent st st' :=
  (trace st' = trace st ∧
   ∀ ref c args, heap st' !! ref = Some (Instance c args) →
                 heap st !! ref = Some (Instance c args)).

Lemma setOnce_Silent self name val st r st' :
  ScopeContext.setOnce self name val st = (r, st') → Silent st st'.
Proof.
  intros H. apply setOnce_inv in H as [->|(fields & Hh & ->)]; [done|].
  split; [done|]. simpl. intros ref c args Hr.
  destruct (decide (ref = self)) as [->|Hne].
  - by rewrite lookup_insert_eq in Hr.
  - by rewrite lookup_insert_ne in Hr.
Qed.

Lemma forEach_setOnce_Silent scopeContext data : ∀ st r st',
  forEach (λ entry, Scope.invokeSetOnce scopeContext entry.1 entry.2) data st = (r, st') →
  Silent st st'.
Proof.
  induction data as [|[n v] data IH]; intros st r st' H.
  - by inversion H; subst.
  - rewrite forEach_cons in H.
    apply bind_inv in H as [([] & st1 & H1 & H)|(e & H1 & ->)].
    + apply IH in H as [Ht Hh].
      assert (Silent st st1) as [Ht1 Hh1].
      { unfold Scope.invokeSetOnce in H1. destruct scopeContext; [|by inversion H1].
        apply bind_inv in H1 as [(? & ? & H1 & H2)|(e & H1 & [=])].
        inversion H2; subst. by eapply setOnce_Silent. }
      split; [congruence|auto].
    + unfold Scope.invokeSetOnce in H1. destruct scopeContext; [|by inversion H1; subst].
      apply bind_inv in H1 as [(? & ? & H1 & [=])|(e' & H1 & _)].
      by eapply setOnce_Silent.
Qed.

Lemma bindScopeContext_Silent paramTypes depth st st' :
  Scope.bindScopeContext paramTypes depth st = (Ok tt, st') → Silent st st'.
Proof.
  unfold Scope.bindScopeContext. erewrite bind_Ok by reflexivity. simpl this.
  set (st_b := set_kernel _ st).
  destruct (objToBindScopeContext (this st)) as [data|];
    [|intros H; inversion H; by subst].
  destruct depth as [|d]; [by erewrite bind_Throw by reflexivity|].
  destruct (Kernel.lookup (IdClass ScopeContext.class) (kernel st)) as [|b l] eqn:HB.
  - erewrite bind_Ok; cycle 1.
    { apply (get_ScopeContext_fresh _ _ _ (bindings (kernel st)) (snapshots (kernel st)));
        [reflexivity|exact HB]. }
    intros [Ht Hh]%forEach_setOnce_Silent. simpl in *. split; [done|].
    intros ref c args Hr. apply Hh in Hr.
    destruct (decide (ref = next_ref st)) as [->|Hne].
    + by rewrite lookup_insert_eq in Hr.
    + by rewrite lookup_insert_ne in Hr.
  - erewrite bind_Throw; [done|].
    rewrite get_S. simpl kernel. rewrite lookup_snoc.
    change (Kernel.lookup _ {| bindings := bindings (kernel st);
                               snapshots := snapshots (kernel st) |})
      with (Kernel.lookup (IdClass ScopeContext.class) (kernel st)).
    rewrite HB. unfold Kernel.newBinding at 1. simpl serviceIdentifier.
    case_decide; [|done]. by destruct l.
Qed.

(** The bindings [bindScopeResources] installs for a resource. *)
Local Abbreviation overlay resource :=
  [Kernel.newBinding (instanceBindName (class_name (constructor resource)))
                     (ToClass (constructor resource)) SingletonScope;
   Kernel.newBinding (IdClass (constructor resource))
                     (ToDynamicValue resource) TransientScope].

Lemma forEach_bindScopeResource resources : ∀ st,
  forEach Scope.bindScopeResource resources st =
    (Ok tt,
     set_kernel {| bindings := bindings (kernel st) ++
                                 flat_map (λ resource, overlay resource) resources;
                   snapshots := snapshots (kernel st) |} st).
Proof.
  induction resources as [|r l IH]; intros st.
  - simpl. rewrite app_nil_r. by destruct st as [? [] ? ? ?].
  - rewrite forEach_cons. erewrite bind_Ok by reflexivity. rewrite IH.
    simpl. unfold set_kernel. simpl. by rewrite <- !app_assoc.
Qed.

Lemma bindScopeResources_spec st :
  Scope.bindScopeResources st =
    (Ok tt,
     set_kernel {| bindings := bindings (kernel st) ++
                                 flat_map (λ resource, overlay resource)
                                          (scopeResources (this st));
                   snapshots := snapshots (kernel st) |} st).
Proof. apply forEach_bindScopeResource. Qed.

(** ** The instance of a resource in a run *)

(** Steps 1 to 3 of a resolution that returns: the overlay is installed,
    the resource has its two bindings and no instance yet, and the scope has
    constructed no object. *)
Lemma resolve_installed paramTypes depth st objs st1 resource :
  heapAllocated st → resource ∈ scopeResources (this st) →
  Scope.resolve paramTypes depth st = (Ok objs, st1) →
  ∃ st0,
    ResourceInv paramTypes resource (next_ref st) st0 ∧
    (∀ ref c args, next_ref st ≤ ref → heap st0 !! ref ≠ Some (Instance c args)) ∧
    trace st0 = trace st ∧ disposers (this st0) = disposers (this st) ∧
    mapM (Kernel.get paramTypes depth) (injections (this st)) st0 = (Ok objs, st1).
Proof.
  intros Hheap Hin Hres.
  apply resolve_inv in Hres as (sa & sb & st0 & Hs & Hc & Hr & Hi).
  inversion Hs; subst sa; clear Hs.
  pose proof (bindScopeContext_Calm _ _ _ _ _ Hc) as ([_ _ Hinj Hrs Hn] & HS & _).
  destruct HS as (τc & Htc & Hdc & _).
  apply bindScopeContext_Silent in Hc as [Ht Hh]. simpl in *.
  assert (τc = []) as ->.
  { rewrite Ht in Htc. rewrite <- (app_nil_r (trace st)) in Htc at 1.
    by apply app_inv_head in Htc. }
  simpl in Hdc. rewrite app_nil_r in Hdc.
  rewrite bindScopeResources_spec in Hr. inversion Hr; subst st0; clear Hr.
  set (st0 := set_kernel _ sb) in *.
  exists st0. split; [|split; [|split; [done|split; [done|]]]].
  - assert (overlay resource ⊆ bindings (kernel st0)) as Hsub.
    { intros x Hx. simpl. apply elem_of_app. right.
      apply list_elem_of_In, in_flat_map. exists resource.
      split; apply list_elem_of_In; [by rewrite Hrs|done]. }
    split.
    + apply Exists_exists. eexists. split; [apply Hsub; left|].
      split; [done|]. split; [done|]. by eexists.
    + apply Exists_exists. eexists. split; [apply Hsub; right; left|]. done.
    + done.
    + intros v Hv. exfalso. unfold instanceOf in Hv.
      destruct (Kernel.lookup _ (kernel st0)) as [|b [|b' l]] eqn:Hl; try done.
      assert (Kernel.newBinding (instanceBindName (class_name (constructor resource)))
                (ToClass (constructor resource)) SingletonScope
              ∈ Kernel.lookup (instanceBindName (class_name (constructor resource)))
                  (kernel st0)) as Hx.
      { apply list_elem_of_filter. split; [done|]. apply Hsub. left. }
      rewrite Hl in Hx. apply list_elem_of_singleton in Hx. by subst b.
    + intros ref c args j Hn0 Hr. exfalso. apply Hh in Hr.
      by rewrite (Hheap ref Hn0) in Hr.
  - intros ref c args Hn0 Hr. apply Hh in Hr. by rewrite (Hheap ref Hn0) in Hr.
  - unfold Scope.injectScopeParameters in Hi. simpl this in Hi. by rewrite Hinj in Hi.
Qed.

Lemma resolve_instance paramTypes depth st objs st1 resource :
  heapAllocated st → resource ∈ scopeResources (this st) →
  Scope.resolve paramTypes depth st = (Ok objs, st1) →
  ResourceInv paramTypes resource (next_ref st) st1 ∧
  (∀ j, injections (this st) !! j = Some (IdClass (constructor resource)) →
        ∃ v, objs !! j = Some v ∧
             instanceOf (class_name (constructor resource)) st1 = Some v) ∧
  ∃ τ, trace st1 = trace st ++ τ ∧
       ∀ i o, CallDisposerFactory (class_name (constructor resource)) i o ∈ τ →
              instanceOf (class_name (constructor resource)) st1 = Some i.
Proof.
  intros Hheap Hin Hres.
  destruct (resolve_installed _ _ _ _ _ _ Hheap Hin Hres) as (st0 & HI & _ & Ht & _ & Hi).
  destruct (mapM_delivers _ _ _ _ _ (get_delivers _ _ _ depth) _ _ _ HI Hi)
    as [(HI1 & _ & τ & Hτ & He) Hslots].
  split; [done|]. split; [done|]. exists τ. split; [|done].
  by rewrite Hτ, Ht.
Qed.

(** In a run that returns its promise, whoever is handed a value for the
    resource is handed the instance the registry held when resolution ended,
    an object this run allocated. *)
Lemma run_instance paramTypes depth task st p st' calls resource :
  heapAllocated st → resource ∈ scopeResources (this st) →
  Scope.run paramTypes depth task st = (Ok p, st') →
  trace st' = trace st ++ calls →
  ∃ st1,
    next_ref st1 = next_ref st' ∧
    ∀ v, receives paramTypes resource st calls st' v →
         instanceOf (class_name (constructor resource)) st1 = Some v ∧
         ∃ ref, v = VObject ref ∧ next_ref st ≤ ref < next_ref st1.
Proof.
  intros Hheap Hin Hrun Htrace.
  apply run_returns in Hrun as (objs & st1 & Hres & Hrun).
  destruct (resolve_instance _ _ _ _ _ _ Hheap Hin Hres)
    as (HI & Hslots & τ & Hτ & He).
  pose proof (runTask_kernel _ _ _ _ _ Hrun) as (_ & _ & Hh & Hn). simpl in Hh, Hn.
  exists st1. split; [done|].
  assert (∀ v, receives paramTypes resource st calls st' v →
               instanceOf (class_name (constructor resource)) st1 = Some v) as Hrec.
  { rewrite runTask_spec in Hrun. simpl this in Hrun.
    assert (∃ rest, calls = τ ++ rest ∧
              (∀ i o, CallDisposerFactory (class_name (constructor resource)) i o ∉ rest) ∧
              (∀ args, CallTask args ∈ calls → args = objs)) as (rest & -> & Hrest & Hargs).
    { pose proof (resolve_spec _ _ _ _ _ Hres) as (_ & _ & _ & _ & _ & HS & _).
      destruct HS as (τ' & Hτ' & _ & Ha). rewrite Hτ in Hτ'.
      apply app_inv_head in Hτ'. subst τ'. apply acquisitions_calls in Ha.
      destruct (Promise.firstRejected _); inversion Hrun; subst; simpl in Htrace;
        rewrite Hτ, <- app_assoc in Htrace; apply app_inv_head in Htrace; subst calls;
        eexists; (split; [reflexivity|]); split.
      - intros i o Hx. unfold cleanups in Hx.
        apply list_elem_of_fmap in Hx as (? & ? & _). done.
      - intros args [Hx|Hx]%elem_of_app.
        + exfalso. by eapply task_not_factoryCall.
        + unfold cleanups in Hx. apply list_elem_of_fmap in Hx as (? & ? & _). done.
      - intros i o [Hx|Hx]%elem_of_cons; [done|]. unfold cleanups in Hx.
        apply list_elem_of_fmap in Hx as (? & ? & _). done.
      - intros args [Hx|Hx]%elem_of_app.
        + exfalso. by eapply task_not_factoryCall.
        + apply elem_of_cons in Hx as [Hx|Hx]; [by inversion Hx|].
          unfold cleanups in Hx. apply list_elem_of_fmap in Hx as (? & ? & _). done. }
    intros v [(args & i & Hcall & Hi & Hv)|[(ref & c & args & j & Hn0 & Hr & Hj & Hv)|(o & Hcall)]].
    - apply Hargs in Hcall. subst args.
      destruct (Hslots _ Hi) as (v' & Hv' & Hinst). congruence.
    - rewrite Hh in Hr. destruct HI as [_ _ _ _ H5].
      destruct (H5 _ _ _ _ Hn0 Hr Hj) as (v' & Hv' & Hinst). congruence.
    - apply elem_of_app in Hcall as [Hcall|Hcall]; [eauto|]. by apply Hrest in Hcall. }
  intros v Hv. specialize (Hrec v Hv). split; [done|].
  destruct HI as [_ _ _ H4 _]. by apply H4.
Qed.

(** ** Allocation *)

Local Abbreviation Allocates :=
  (λ (st : State) (_ : option exn) (st' : State), heapAllocated st → heapAllocated st').

Lemma Allocates_seq (a b c : State) (o : option exn) :
  Allocates a None b → Allocates b o c → Allocates a o c.
Proof. simpl. intros H1 H2 H. apply H2, H1, H. Qed.

Lemma Allocates_same st st' (o : option exn) :
  heap st' = heap st → next_ref st ≤ next_ref st' → Allocates st o st'.
Proof.
  intros Hh Hn HA ref Href. rewrite Hh. apply HA. lia.
Qed.

Lemma get_heapAllocated paramTypes depth id st r st' :
  Kernel.get paramTypes depth id st = (r, st') → heapAllocated st → heapAllocated st'.
Proof.
  revert st r st'. apply (sat_get paramTypes Allocates).
  - done.
  - done.
  - apply Allocates_seq.
  - intros o st HA ref Href. unfold after in *. simpl in *.
    assert (next_ref st ≠ ref) as Hne by lia.
    rewrite lookup_insert_ne by done. apply HA. lia.
  - intros id' v st. by apply (Allocates_same _ _ None).
  - intros name resource instance st r st' _ H.
    apply (Allocates_same _ _ None).
    + revert H. unfold acquire, bind, callDisposerFactory, setDisposer, emit, throw.
      destruct (disposerFactory resource instance); simpl; intros H; by inversion H.
    + pose proof (Quiet_acquire name resource instance st) as [_ _ _ _ Hn].
      unfold after in Hn. by rewrite H in Hn.
Qed.

Lemma setOnce_heapAllocated self name val st r st' :
  ScopeContext.setOnce self name val st = (r, st') →
  heapAllocated st → heapAllocated st'.
Proof.
  intros H HA. apply setOnce_inv in H as [->|(fields & Hh & ->)]; [done|].
  intros ref Href. simpl in *.
  destruct (decide (ref = self)) as [->|Hne].
  - rewrite (HA self Href) in Hh. done.
  - rewrite lookup_insert_ne by done. by apply HA.
Qed.

Lemma resolve_heapAllocated paramTypes depth st r st' :
  Scope.resolve paramTypes depth st = (r, st') →
  heapAllocated st → heapAllocated st'.
Proof.
  revert st r st'. unfold Scope.resolve.
  apply (sat_bind Allocates Allocates_seq).
  { intros st r st' H. inversion H; subst. by apply (Allocates_same _ _ None). }
  intros _. apply (sat_bind Allocates Allocates_seq).
  { unfold Scope.bindScopeContext.
    apply (sat_bind Allocates Allocates_seq).
    { intros st r st' H. inversion H; subst. by apply (Allocates_same _ _ None). }
    intros _ st r st'. destruct (objToBindScopeContext (this st)) as [data|];
      [|intros H; inversion H; by subst].
    revert st r st'. apply (sat_bind Allocates Allocates_seq);
      [apply get_heapAllocated|].
    intros scopeContext. induction (forEachEntries data) as [|[n v] l IH]; simpl.
    { intros st r st' H. inversion H; by subst. }
    apply (sat_bind Allocates Allocates_seq); [|intros _; apply IH].
    unfold Scope.invokeSetOnce. destruct scopeContext; simpl.
    - apply (sat_bind Allocates Allocates_seq); [apply setOnce_heapAllocated|].
      intros _ st r st' H. inversion H; by subst.
    - intros st r st' H. inversion H; by subst. }
  intros _. apply (sat_bind Allocates Allocates_seq).
  { intros st r st'. rewrite bindScopeResources_spec. intros H. inversion H; subst.
    by apply (Allocates_same _ _ None). }
  intros _ st r st'. apply (sat_mapM Allocates); [done|apply Allocates_seq|].
  intros id. apply get_heapAllocated.
Qed.

Lemma run_heapAllocated paramTypes depth task st r st' :
  Scope.run paramTypes depth task st = (r, st') →
  heapAllocated st → heapAllocated st'.
Proof.
  rewrite run_unfold.
  destruct (Scope.resolve paramTypes depth st) as [[objs|e] st1] eqn:Hres.
  - intros Hrun HA. apply (resolve_heapAllocated _ _ _ _ _ Hres) in HA.
    apply runTask_kernel in Hrun as (_ & _ & Hh & Hn). simpl in *.
    intros ref Href. rewrite Hh. apply HA. lia.
  - intros H. inversion H; subst. by eapply resolve_heapAllocated.
Qed.

Lemma factoryCalls_app τ1 τ2 :
  factoryCalls (τ1 ++ τ2) = factoryCalls τ1 ++ factoryCalls τ2.
Proof.
  induction τ1 as [|[n i o| |] τ1 IH]; simpl; auto. by rewrite IH.
Qed.

Lemma factoryCalls_cleanups ds : factoryCalls (cleanups ds) = [].
Proof.
  unfold cleanups. induction (filter _ ds) as [|d l IH]; simpl; auto.
Qed.

Lemma recorded_sublist τ : (recorded τ).*1 `sublist_of` factoryCalls τ.
Proof.
  induction τ as [|[n i [d|e]| |] τ IH]; simpl; auto.
  - by apply sublist_skip.
  - by apply sublist_cons.
Qed.

Lemma lookupDisposer_Some name ds d :
  lookupDisposer name ds = Some d → (name, d) ∈ ds.
Proof.
  unfold lookupDisposer. intros H.
  destruct (filter _ ds) as [|[n d'] l] eqn:Hf; [done|]. simpl in H. inversion H; subst.
  assert ((n, d) ∈ filter (λ p : string * Disposer, p.1 = name) ds) as Hin
    by (rewrite Hf; left).
  apply list_elem_of_filter in Hin as [Hn Hin]. simpl in Hn. by subst.
Qed.

(** ** A resource that is handed out has its disposer *)

Lemma held_lookupDisposer name st :
  held name st ↔ is_Some (lookupDisposer name (disposers (this st))).
Proof.
  unfold held. destruct (lookupDisposer name (disposers (this st))) as [d|] eqn:Hl.
  - split; [by eauto|]. intros _. apply lookupDisposer_Some in Hl.
    apply list_elem_of_fmap. by exists (name, d).
  - apply lookupDisposer_None in Hl. split; [done|]. by intros [? ?].
Qed.

Lemma held_Steps name st o st' : Steps st o st' → held name st → held name st'.
Proof.
  intros (τ & _ & Hd & _) H. unfold held. rewrite Hd, fmap_app.
  apply elem_of_app. by left.
Qed.

Lemma acquire_held name resource instance st st' :
  lookupDisposer name (disposers (this st)) = None →
  acquire name resource instance st = (Ok tt, st') → held name st'.
Proof.
  intros Hl. unfold acquire, bind, callDisposerFactory, setDisposer, emit, throw.
  destruct (disposerFactory resource instance) as [p|e]; simpl; [|done].
  rewrite Hl. intros [= <-]. unfold held. simpl. rewrite fmap_app.
  apply elem_of_app. right. left.
Qed.

Section Acquisition.

Variable paramTypes : Class → list InjectionIdentifier.
Variable resource : ScopeResource.
Variable n0 : nat.

Local Abbreviation name := (class_name (constructor resource)).
Local Abbreviation Rc := (IdClass (constructor resource)).
Local Abbreviation Inv := (ResourceInv paramTypes resource n0).
Local Abbreviation Built := (constructedHeld paramTypes resource n0).

Hypothesis Hname : inherited name = false.

(** What [acquired] says of [kernel_get]. *)
Local Abbreviation acquires kernel_get :=
  (∀ id st v st', Inv st → Built st → kernel_get id st = (Ok v, st') →
     Built st' ∧ (id = Rc → held name st')).

(** A step that leaves the objects alone and only adds disposers. *)
Lemma Built_quiet st o st' :
  heap st' = heap st → Steps st o st' → Built st → Built st'.
Proof.
  intros Hh HS HB ref c args j Hn0 Hr Hj. rewrite Hh in Hr.
  eapply held_Steps; [done|]. exact (HB ref c args j Hn0 Hr Hj).
Qed.

Lemma mapM_acquires depth ids :
  acquires (Kernel.get paramTypes depth) →
  ∀ st vs st', Inv st → Built st →
    mapM (Kernel.get paramTypes depth) ids st = (Ok vs, st') →
    Built st' ∧ ∀ j, ids !! j = Some Rc → held name st'.
Proof.
  intros Hget. induction ids as [|x xs IH]; intros st vs st' HI HB H; simpl in H.
  - inversion H; subst. done.
  - apply bind_inv in H as [(y & st1 & Hx & H)|(e & _ & [=])].
    apply bind_inv in H as [(ys & st2 & Hxs & H)|(e & _ & [=])].
    inversion H; subst; clear H.
    destruct (Hget _ _ _ _ HI HB Hx) as [HB1 Hr1].
    destruct (get_delivers paramTypes resource n0 depth _ _ _ _ HI Hx) as [(HI1 & _) _].
    destruct (IH _ _ _ HI1 HB1 Hxs) as [HB2 Hr2].
    split; [done|]. intros [|j] Hj; simpl in *.
    + inversion Hj; subst x.
      apply mapM_get_Calm in Hxs as (_ & HS & _). eapply held_Steps; [done|]. by apply Hr1.
    + by apply (Hr2 j).
Qed.

Lemma get_acquires depth : acquires (Kernel.get paramTypes depth).
Proof.
  induction depth as [|d IH]; intros id st v st' HI HB H; [by inversion H|].
  rewrite get_S in H.
  destruct (Kernel.lookup id (kernel st)) as [|b [|b' l]] eqn:Hl;
    [by inversion H| |by inversion H].
  unfold Kernel.resolveBinding in H.
  destruct (Kernel.cached b) as [v0|] eqn:Hc.
  { inversion H; subst. split; [done|]. intros ->.
    apply (Inv_unique_resource _ _ _ _ _ HI) in Hl as (_ & Hs & _).
    unfold Kernel.cached in Hc. by rewrite Hs in Hc. }
  apply bind_inv in H as [(v1 & st1 & Hinst & H)|(e & _ & [=])].
  apply bind_inv in H as [([] & st2 & Hact & H)|(e & _ & [=])].
  inversion H; subst; clear H.
  assert (Built st1 ∧ (id = Rc → held name st1)) as [HB1 HR1].
  { unfold Kernel.instantiate in Hinst.
    destruct (implementation b) as [c|c|r] eqn:Himpl.
    - apply bind_inv in Hinst as [(args & sa & Hargs & Hcon)|(e & _ & [=])].
      destruct (mapM_acquires _ _ IH _ _ _ HI HB Hargs) as [HBa Hslots].
      split.
      + assert (∃ o, st1 = after (alloc o) sa ∧
                     (∀ c' args', o = Instance c' args' → c' = c)) as (o & -> & Ho).
        { unfold Kernel.construct in Hcon. destruct (decide _); inversion Hcon; subst;
            eexists; (split; [reflexivity|]); intros ? ? [=]; by subst. }
        intros ref c' args' j Hn0 Hr Hj. simpl in Hr.
        destruct (decide (ref = next_ref sa)) as [->|Hne].
        * rewrite lookup_insert_eq in Hr. inversion Hr as [Heq].
          rewrite (Ho _ _ Heq) in Hj. by apply (Hslots j).
        * rewrite lookup_insert_ne in Hr by done. exact (HBa ref c' args' j Hn0 Hr Hj).
      + intros ->. apply (Inv_unique_resource _ _ _ _ _ HI) in Hl as (_ & _ & Hd).
        congruence.
    - inversion Hinst; subst. split; [done|].
      intros ->. apply (Inv_unique_resource _ _ _ _ _ HI) in Hl as (_ & _ & Hd).
      congruence.
    - apply scopeResourceValue_inv in Hinst
        as [(e & _ & [=])|(instance & sa & Hk & Hrest)].
      destruct (IH _ _ _ _ HI HB Hk) as [HBa _].
      destruct Hrest as [(Hhas & _ & ->)|((Hnone & _) & r0 & Hacq & Hr0)].
      + split; [done|]. intros ->.
        apply (Inv_unique_resource _ _ _ _ _ HI) in Hl as (_ & _ & Hd).
        rewrite Himpl in Hd. inversion Hd; subst r.
        apply held_lookupDisposer. unfold hasDisposer in Hhas.
        destruct (lookupDisposer _ _); [by eauto|congruence].
      + destruct r0 as [[]|e]; [|done].
        split.
        * eapply Built_quiet; [|by eapply Steps_acquire|done].
          by apply acquire_Ok in Hacq as (_ & ? & _).
        * intros ->.
          apply (Inv_unique_resource _ _ _ _ _ HI) in Hl as (_ & _ & Hd).
          rewrite Himpl in Hd. inversion Hd; subst r. by eapply acquire_held. }
  assert (heap st' = heap st1 ∧ this st' = this st1) as [Hh Ht].
  { destruct (bindingScope b); inversion Hact; by subst. }
  split.
  - intros ref c args j Hn0 Hr Hj. rewrite Hh in Hr. unfold held. rewrite Ht.
    exact (HB1 ref c args j Hn0 Hr Hj).
  - intros Hid. unfold held. rewrite Ht. by apply HR1.
Qed.

End Acquisition.

(** In a resolution that returns, whoever was handed the resource was
    handed it when it had its disposer. *)
Lemma resolve_acquired paramTypes depth st objs st1 resource :
  heapAllocated st → resource ∈ scopeResources (this st) →
  inherited (class_name (constructor resource)) = false →
  Scope.resolve paramTypes depth st = (Ok objs, st1) →
  constructedHeld paramTypes resource (next_ref st) st1 ∧
  ∀ j, injections (this st) !! j = Some (IdClass (constructor resource)) →
       held (class_name (constructor resource)) st1.
Proof.
  intros Hheap Hin Hname Hres.
  destruct (resolve_installed _ _ _ _ _ _ Hheap Hin Hres) as (st0 & HI & Hnone & _ & _ & Hi).
  eapply (mapM_acquires paramTypes resource (next_ref st) depth);
    [apply get_acquires; exact Hname|exact HI| |exact Hi].
  intros ref c args j Hn0 Hr. by destruct (Hnone ref c args Hn0).
Qed.

(** ** ScopeContext *)




Example setOnce_on_unset_key :
  ∃ st', ScopeContext.setOnce 0 "other" (VPrimitive "bar") Fixture.contextWorld =
           (Ok (VObject 0), st') ∧
         ScopeContext.get 0 "other" st' = (Ok (VPrimitive "bar"), st') ∧
         ScopeContext.get 0 "fooField" st' = (Ok (VPrimitive "foo"), st').
Proof. eexists. repeat split. Qed.

Lemma firstSet_None name calls : firstSet name calls = None ↔ name ∉ calls.*1.
Proof.
  unfold firstSet. induction calls as [|[n v] calls IH]; simpl.
  - split; [intros _; apply not_elem_of_nil | done].
  - rewrite filter_cons. simpl. destruct (decide (n = name)) as [->|Hne]; simpl.
    + split; [done|]. intros H. exfalso. apply H. apply list_elem_of_here.
    + rewrite IH. rewrite not_elem_of_cons. simpl. split; [by split|by intros [_ ?]].
Qed.

Lemma setOnceAll_lookup self calls : ∀ st fields,
  heap st !! self = Some (ContextObject fields) →
  ScopeContext.callable fields = true →
  "__proto__" ∉ calls.*1 → "hasOwnProperty" ∉ calls.*1 →
  ∃ fields',
    heap (setOnceAll self calls st) !! self = Some (ContextObject fields') ∧
    ScopeContext.callable fields' = true ∧
    ∀ name, context fields' !! name =
              match context fields !! name with
              | Some v => Some v
              | None => firstSet name calls
              end.
Proof.
  induction calls as [|[n v] calls IH]; intros st fields Hh Hc Hproto Hown; simpl.
  - exists fields. split; [done|]. split; [done|]. intros name.
    by destruct (context fields !! name).
  - rewrite fmap_cons in Hproto, Hown.
    apply not_elem_of_cons in Hproto as [Hn1 Hproto].
    apply not_elem_of_cons in Hown as [Hn2 Hown]. simpl in Hn1, Hn2.
    unfold after at 1. simpl.
    destruct (context fields !! n) as [old|] eqn:Hn.
    + erewrite setOnce_set by done. simpl.
      destruct (IH st fields Hh Hc Hproto Hown) as (f' & Hf' & Hc' & Hall).
      exists f'. split; [done|]. split; [done|]. intros name. rewrite Hall.
      destruct (context fields !! name) eqn:Hname; [done|].
      unfold firstSet. rewrite filter_cons. simpl.
      destruct (decide (n = name)) as [->|]; [congruence|done].
    + erewrite setOnce_unset by done. simpl.
      rewrite assign_key by done.
      edestruct (IH (set_heap (<[self:=ContextObject
                     {| context := <[n:=v]> (context fields);
                        contextPrototype := contextPrototype fields |}]> (heap st)) st))
        as (f' & Hf' & Hc' & Hall); [| |exact Hproto|exact Hown|].
      { simpl. apply lookup_insert_eq. }
      { apply callable_spec in Hc as [H1 H2]. apply callable_spec. simpl.
        by rewrite lookup_insert_ne. }
      exists f'. split; [done|]. split; [done|]. intros name. rewrite Hall. simpl.
      unfold firstSet at 2. rewrite filter_cons. simpl.
      destruct (decide (n = name)) as [->|Hne].
      * rewrite lookup_insert_eq, Hn. done.
      * rewrite lookup_insert_ne by done.
        destruct (context fields !! name); done.
Qed.




Example get_after_duplicate_setOnce :
  let st' := setOnceAll 1 [("a", VPrimitive "1"); ("a", VPrimitive "2")]
               (after (alloc (ContextObject ScopeContext.empty)) Fixture.initial) in
  ScopeContext.get 1 "a" st' = (Ok (VPrimitive "1"), st') ∧
  ScopeContext.get 1 "b" st' = (Throw (Error "b was not set"), st').
Proof. split; reflexivity. Qed.

(** ** Configuring a scope *)

(** C10.  A second [inject] replaces the declared identifiers (they are not
    appended to the first ones) and a second [context] replaces the context
    data; the scope, and hence [run], is the one configured by the last call
    of each. *)
Theorem C10_inject_and_context_replace s args1 args2 data1 data2 :
  injections (Scope.inject args2 (Scope.inject args1 s)) = args2 ∧
  objToBindScopeContext (Scope.context data2 (Scope.context data1 s)) = Some data2 ∧
  Scope.inject args2 (Scope.inject args1 s) = Scope.inject args2 s ∧
  Scope.context data2 (Scope.context data1 s) = Scope.context data2 s ∧
  Scope.inject args2 (Scope.context data2 (Scope.inject args1 (Scope.context data1 s)))
    = Scope.inject args2 (Scope.context data2 s) ∧
  ∀ paramTypes depth task st,
    Scope.run paramTypes depth task
      (enter (Scope.inject args2 (Scope.context data2
                (Scope.inject args1 (Scope.context data1 s)))) st)
    = Scope.run paramTypes depth task
        (enter (Scope.inject args2 (Scope.context data2 s)) st).
Proof. repeat split. Qed.

(** ** The registry around [run] *)

(** C1, as stated, fails: a scope that declares an identifier that is not
    bound makes [run] throw during resolution, before [kernel.restore()] is
    reached.  The scope context, the resource's instance binding and the
    resource binding stay in the registry, which had none of them before. *)
Lemma C1_overlay_leaks_when_resolution_throws :
  let st := enter (Scope.inject [IdString "Nope"] (Container.scope Fixture.container))
                  Fixture.world in
  let result := Scope.run Fixture.paramTypes 10 Fixture.task st in
  result.1 = Throw (Kernel.not_bound (IdString "Nope")) ∧
  Kernel.boundIdentifiers (kernel result.2) =
    Kernel.boundIdentifiers (kernel st) ++
      [IdClass ScopeContext.class; IdString "Resource@instance";
       IdClass Fixture.Resource] ∧
  Kernel.boundIdentifiers (kernel result.2) ≠ Kernel.boundIdentifiers (kernel st).
Proof. vm_compute. repeat split. discriminate. Qed.

(** C1, amended.  Whenever [run] returns its promise (steps 1 to 4 did not
    throw), the registry after [run] is the registry before it, bindings and
    checkpoints alike, whether the promise is fulfilled or rejected. *)
Theorem C1_registry_restored_when_run_returns paramTypes depth task st p st' :
  Scope.run paramTypes depth task st = (Ok p, st') →
  kernel st' = kernel st ∧
  Kernel.boundIdentifiers (kernel st') = Kernel.boundIdentifiers (kernel st).
Proof.
  intros H. apply run_returns in H as (objs & st1 & _ & H).
  apply runTask_kernel in H as (Hk & _). simpl in Hk. by rewrite Hk.
Qed.

Lemma C1_registry_restored_when_run_returns_witness :
  let st := enter (Scope.inject [IdClass Fixture.Baz] (Container.scope Fixture.container))
                  Fixture.world in
  let result := Scope.run Fixture.paramTypes 10 Fixture.failingTask st in
  result.1 = Ok (Rejected (Error "task failed")) ∧
  kernel result.2 = kernel st ∧
  Kernel.boundIdentifiers (kernel result.2) = Kernel.boundIdentifiers (kernel st).
Proof.
  split; [vm_compute; reflexivity|].
  apply (C1_registry_restored_when_run_returns Fixture.paramTypes 10
           Fixture.failingTask _ (Rejected (Error "task failed"))).
  vm_compute; reflexivity.
Defined.

(** ** Keys of the context data *)




Example context_key_written_twice :
  let data := [("fooField", VPrimitive "1"); ("fooField", VPrimitive "2")] in
  forEachEntries data = [("fooField", VPrimitive "2")] ∧
  ownProperty "fooField" data = Some (VPrimitive "2").
Proof. vm_compute. split; reflexivity. Qed.

(** A data object with a numeric [length] is taken for an array by
    [_.forEach]: the scope context is given its indices, not its keys. *)
Example context_data_with_a_length :
  let data := [("length", VPrimitive (PNumber 2)); ("fooField", VPrimitive "1")] in
  forEachEntries data = [("0", undefined); ("1", undefined)].
Proof. vm_compute. reflexivity. Qed.

(** ** Releases *)

(** C2.  For a scope with an empty disposer set, in every run that invokes
    the unit of work: the calls of the run are the disposer-factory calls of
    resolution, then the unit of work, then one cleanup per disposer of the
    disposer set, in the order they were recorded.  So every recorded
    disposer is cleaned up exactly once, after the unit of work, and the
    promise [run] returns settles as the unit of work does, whether that
    returns, throws or returns a rejected promise; and a cleanup only runs
    for a disposer that a factory call of this run returned. *)
Theorem C2_releases_run_once_after_task paramTypes depth task st r st' calls args :
  fresh (this st) →
  Scope.run paramTypes depth task st = (r, st') →
  trace st' = trace st ++ calls →
  CallTask args ∈ calls →
  ∃ τ,
    calls = τ ++ CallTask args :: (CallCleanup <$> (disposers (this st')).*2) ∧
    Forall isFactoryCall τ ∧
    recorded τ = disposers (this st') ∧
    r = Ok (settle (task args)) ∧
    (∀ name d, (name, d) ∈ disposers (this st') →
       occurrences (CallCleanup d) calls = 1) ∧
    (∀ d, CallCleanup d ∈ calls →
       ∃ name instance, CallDisposerFactory name instance (Ok d) ∈ τ).
Proof.
  intros Hfresh Hrun Htrace Htask. destruct r as [p|e].
  - destruct (run_returns_trace _ _ _ _ _ _ Hfresh Hrun)
      as (objs & st1 & τ & Hres & Ht1 & Ha & Hd & Hnd & Hcase).
    pose proof (acquisitions_calls _ _ _ Ha) as Hfc.
    destruct (Promise.firstRejected _) as [e|] eqn:Hrej.
    + destruct Hcase as [-> Ht]. rewrite Htrace in Ht.
      apply app_inv_head in Ht. subst calls. exfalso.
      apply elem_of_app in Htask as [Hin|Hin].
      * by eapply task_not_factoryCall.
      * unfold cleanups in Hin. apply list_elem_of_fmap in Hin as (? & ? & _). done.
    + destruct Hcase as [-> Ht]. rewrite Htrace in Ht.
      apply app_inv_head in Ht. subst calls.
      rewrite (cleanups_all _ Hrej) in *.
      assert (args = objs) as ->.
      { apply elem_of_app in Htask as [Hin|Hin].
        - exfalso. by eapply task_not_factoryCall.
        - apply elem_of_cons in Hin as [Heq|Hin]; [by inversion Heq|].
          apply list_elem_of_fmap in Hin as (? & ? & _). done. }
      exists τ. rewrite Hd. split; [done|]. split; [done|]. split; [done|].
      split; [done|]. split.
      * intros name d Hin.
        rewrite occurrences_app, occurrences_cons_ne by done.
        rewrite occurrences_not_elem by (by apply cleanup_not_factoryCall).
        rewrite <- (cleanups_all _ Hrej). simpl.
        apply occurrences_cleanups; [done| |].
        -- apply list_elem_of_fmap. by exists (name, d).
        -- apply firstRejected_None in Hrej. rewrite Forall_forall in Hrej.
           apply Hrej. apply list_elem_of_fmap. by exists (name, d).
      * intros d Hin. apply elem_of_app in Hin as [Hin|Hin];
          [exfalso; by eapply cleanup_not_factoryCall|].
        apply elem_of_cons in Hin as [Heq|Hin]; [done|].
        apply list_elem_of_fmap in Hin as (d' & Heq & Hin). inversion Heq; subst d'.
        apply list_elem_of_fmap in Hin as ([name d'] & Heq' & Hin). simpl in Heq'. subst d'.
        apply recorded_elem in Hin as [i Hi]. eauto.
  - exfalso. apply run_throws_trace in Hrun as (_ & τ & Ht & Ha & _).
    rewrite Htrace in Ht. apply app_inv_head in Ht. subst calls.
    apply acquisitions_calls in Ha. by eapply task_not_factoryCall.
Qed.

Lemma C2_releases_run_once_after_task_witness :
  let st := enter (Scope.inject [IdClass Fixture.Baz; IdClass Fixture.BazBaz]
                     (Container.scope Fixture.container)) Fixture.world in
  let d := {| disposer_ref := 2; disposer_promise := Fulfilled (VObject 1) |} in
  let args := [VObject 3; VObject 4] in
  let calls := [CallDisposerFactory "Resource" (VObject 1) (Ok d);
                CallTask args; CallCleanup d] in
  let result := Scope.run Fixture.paramTypes 10 Fixture.failingTask st in
  fresh (this st) ∧
  trace result.2 = trace st ++ calls ∧
  CallTask args ∈ calls ∧
  ∃ τ,
    calls = τ ++ CallTask args :: (CallCleanup <$> (disposers (this result.2)).*2) ∧
    Forall isFactoryCall τ ∧
    recorded τ = disposers (this result.2) ∧
    result.1 = Ok (settle (Fixture.failingTask args)) ∧
    (∀ name d, (name, d) ∈ disposers (this result.2) →
       occurrences (CallCleanup d) calls = 1) ∧
    (∀ d, CallCleanup d ∈ calls →
       ∃ name instance, CallDisposerFactory name instance (Ok d) ∈ τ).
Proof.
  intros st d args calls result.
  assert (Hfresh : fresh (this st)) by reflexivity.
  assert (Htrace : trace result.2 = trace st ++ calls) by (vm_compute; reflexivity).
  assert (Hin : CallTask args ∈ calls)
    by apply list_elem_of_further, list_elem_of_here.
  split; [exact Hfresh|]. split; [exact Htrace|]. split; [exact Hin|].
  exact (C2_releases_run_once_after_task Fixture.paramTypes 10 Fixture.failingTask
           st result.1 result.2 calls args Hfresh (surjective_pairing _) Htrace Hin).
Defined.

(** ** Acquisition failures *)

(** C4, as stated, fails when the acquire step fails synchronously: the
    factory of [Lock] throws during resolution, [run] throws that error, and
    the disposer of [Resource], acquired before, is never cleaned up. *)
Lemma C4_acquired_resource_dangles_when_factory_throws :
  let st := enter (Scope.inject [IdClass Fixture.Resource; IdClass Fixture.Lock]
                     (Container.scope (Fixture.withLock Fixture.throwingFactory)))
                  Fixture.world in
  let d := {| disposer_ref := 2; disposer_promise := Fulfilled (VObject 1) |} in
  let result := Scope.run Fixture.paramTypes 10 Fixture.task st in
  result.1 = Throw (Error "busy") ∧
  trace result.2 =
    trace st ++ [CallDisposerFactory "Resource" (VObject 1) (Ok d);
                 CallDisposerFactory "Lock" (VObject 3) (Throw (Error "busy"))] ∧
  acquired d = true ∧
  occurrences (CallCleanup d) (trace result.2) = 0.
Proof. vm_compute. repeat split. Qed.

(** C4, amended.  For a scope with an empty disposer set: when a disposer
    factory throws, [run] throws that error and the unit of work is not
    invoked.  When a factory returned a disposer whose promise is rejected
    and [run] returns its promise, that promise is rejected with the error of
    the first rejected disposer of the disposer set, the unit of work is not
    invoked, and every disposer whose resource was acquired is cleaned up
    exactly once. *)
Theorem C4_acquisition_failure paramTypes depth task st r st' calls :
  fresh (this st) →
  Scope.run paramTypes depth task st = (r, st') →
  trace st' = trace st ++ calls →
  (∀ name instance e,
     CallDisposerFactory name instance (Throw e) ∈ calls →
     r = Throw e ∧ ∀ args, CallTask args ∉ calls) ∧
  (∀ name instance d e p,
     CallDisposerFactory name instance (Ok d) ∈ calls →
     disposer_promise d = Rejected e →
     r = Ok p →
     (∃ e', Promise.firstRejected (disposers (this st')).*2 = Some e' ∧
            p = Rejected e') ∧
     (∀ args, CallTask args ∉ calls) ∧
     (∀ name' instance' d',
        CallDisposerFactory name' instance' (Ok d') ∈ calls →
        acquired d' = true →
        occurrences (CallCleanup d') calls = 1)).
Proof.
  intros Hfresh Hrun Htrace. split.
  - intros name instance e Hin. destruct r as [p|e'].
    + exfalso.
      destruct (run_returns_trace _ _ _ _ _ _ Hfresh Hrun)
        as (objs & st1 & τ & Hres & Ht1 & Ha & Hd & Hnd & Hcase).
      assert (Hτ : CallDisposerFactory name instance (Throw e) ∈ τ).
      { destruct (Promise.firstRejected _); destruct Hcase as [_ Ht];
          rewrite Htrace in Ht; apply app_inv_head in Ht; subst calls;
          apply elem_of_app in Hin as [Hin|Hin]; try done.
        - unfold cleanups in Hin. apply list_elem_of_fmap in Hin as (? & ? & _). done.
        - apply elem_of_cons in Hin as [?|Hin]; [done|].
          unfold cleanups in Hin. apply list_elem_of_fmap in Hin as (? & ? & _). done. }
      by pose proof (acquisitions_Throw _ _ _ _ _ _ Ha Hτ).
    + apply run_throws_trace in Hrun as (_ & τ & Ht & Ha & _).
      rewrite Htrace in Ht. apply app_inv_head in Ht. subst calls.
      pose proof (acquisitions_Throw _ _ _ _ _ _ Ha Hin) as [= ->].
      split; [done|]. intros args. apply task_not_factoryCall.
      by eapply acquisitions_calls.
  - intros name instance d e p Hin Hd Hr. subst r.
    destruct (run_returns_trace _ _ _ _ _ _ Hfresh Hrun)
      as (objs & st1 & τ & Hres & Ht1 & Ha & Hdis & Hnd & Hcase).
    pose proof (acquisitions_calls _ _ _ Ha) as Hfc.
    assert (Hcalls : ∀ n i x, CallDisposerFactory n i (Ok x) ∈ calls →
                              CallDisposerFactory n i (Ok x) ∈ τ).
    { intros n i x Hx.
      destruct (Promise.firstRejected _); destruct Hcase as [_ Ht];
        rewrite Htrace in Ht; apply app_inv_head in Ht; subst calls;
        apply elem_of_app in Hx as [Hx|Hx]; try done.
      - unfold cleanups in Hx. apply list_elem_of_fmap in Hx as (? & ? & _). done.
      - apply elem_of_cons in Hx as [?|Hx]; [done|].
        unfold cleanups in Hx. apply list_elem_of_fmap in Hx as (? & ? & _). done. }
    destruct (Promise.firstRejected _) as [e'|] eqn:Hrej.
    + destruct Hcase as [-> Ht]. rewrite Htrace in Ht.
      apply app_inv_head in Ht. subst calls.
      split; [exists e'; by rewrite Hdis|]. split.
      * intros args Hargs. apply elem_of_app in Hargs as [Hargs|Hargs].
        -- by eapply task_not_factoryCall.
        -- unfold cleanups in Hargs.
           apply list_elem_of_fmap in Hargs as (? & ? & _). done.
      * intros name' instance' d' Hin' Hacq.
        rewrite occurrences_app.
        rewrite occurrences_not_elem by (by apply cleanup_not_factoryCall).
        simpl. apply occurrences_cleanups; [done| |done].
        apply list_elem_of_fmap. exists (name', d'). split; [done|].
        apply recorded_elem. exists instance'. by apply Hcalls.
    + exfalso. apply firstRejected_None in Hrej. rewrite Forall_forall in Hrej.
      assert (Hacq : acquired d = true).
      { apply Hrej. apply list_elem_of_fmap. exists (name, d). split; [done|].
        apply recorded_elem. exists instance. by apply Hcalls. }
      unfold acquired in Hacq. by rewrite Hd in Hacq.
Qed.

Lemma C4_acquisition_failure_witness :
  let st := enter (Scope.inject [IdClass Fixture.Resource; IdClass Fixture.Lock]
                     (Container.scope (Fixture.withLock Fixture.rejectingFactory)))
                  Fixture.world in
  let d := {| disposer_ref := 2; disposer_promise := Fulfilled (VObject 1) |} in
  let d' := {| disposer_ref := 4; disposer_promise := Rejected (Error "busy") |} in
  let calls := [CallDisposerFactory "Resource" (VObject 1) (Ok d);
                CallDisposerFactory "Lock" (VObject 3) (Ok d');
                CallCleanup d] in
  let result := Scope.run Fixture.paramTypes 10 Fixture.task st in
  fresh (this st) ∧
  result.1 = Ok (Rejected (Error "busy")) ∧
  trace result.2 = trace st ++ calls ∧
  (∀ name instance e,
     CallDisposerFactory name instance (Throw e) ∈ calls →
     result.1 = Throw e ∧ ∀ args, CallTask args ∉ calls) ∧
  (∀ name instance d e p,
     CallDisposerFactory name instance (Ok d) ∈ calls →
     disposer_promise d = Rejected e →
     result.1 = Ok p →
     (∃ e', Promise.firstRejected (disposers (this result.2)).*2 = Some e' ∧
            p = Rejected e') ∧
     (∀ args, CallTask args ∉ calls) ∧
     (∀ name' instance' d',
        CallDisposerFactory name' instance' (Ok d') ∈ calls →
        acquired d' = true →
        occurrences (CallCleanup d') calls = 1)).
Proof.
  intros st d d' calls result.
  assert (Hfresh : fresh (this st)) by reflexivity.
  assert (Htrace : trace result.2 = trace st ++ calls) by (vm_compute; reflexivity).
  split; [exact Hfresh|]. split; [vm_compute; reflexivity|]. split; [exact Htrace|].
  exact (C4_acquisition_failure Fixture.paramTypes 10 Fixture.task
           st result.1 result.2 calls Hfresh (surjective_pairing _) Htrace).
Defined.

(** ** Resolution order and the outcome of [run] *)

(** C9.  When resolution succeeds ([run] returns its promise and no
    acquisition is rejected): after the checkpoint, the scope context and
    the resource bindings are in place, the declared identifiers are resolved
    one after the other in the order [inject] was given them; the unit of
    work is invoked once, after resolution, with the resolved objects as its
    arguments in that order; and the promise [run] returns settles as the
    unit of work does. *)
Theorem C9_resolution_order_and_outcome paramTypes depth task st p st' :
  Scope.run paramTypes depth task st = (Ok p, st') →
  Promise.firstRejected (disposers (this st')).*2 = None →
  ∃ sa sb st0 st1 injectedObjects τ,
    Kernel.snapshot st = (Ok tt, sa) ∧
    Scope.bindScopeContext paramTypes depth sa = (Ok tt, sb) ∧
    Scope.bindScopeResources sb = (Ok tt, st0) ∧
    injections (this st0) = injections (this st) ∧
    resolvedInOrder paramTypes depth (injections (this st)) st0 injectedObjects st1 ∧
    length injectedObjects = length (injections (this st)) ∧
    trace st1 = trace st ++ τ ∧ Forall isFactoryCall τ ∧
    trace st' = trace st1 ++
      CallTask injectedObjects :: (CallCleanup <$> (disposers (this st')).*2) ∧
    p = settle (task injectedObjects).
Proof.
  intros Hrun Hrej.
  apply run_returns in Hrun as (objs & st1 & Hres & Hrun).
  pose proof (resolve_spec _ _ _ _ _ Hres) as (_ & _ & _ & _ & _ & HS & _).
  destruct HS as (τ & Ht & _ & Ha). apply acquisitions_calls in Ha.
  apply resolve_inv in Hres as (sa & sb & st0 & Hs & Hc & Hr & Hi).
  assert (Hinj : injections (this st0) = injections (this st)).
  { apply bindScopeContext_Calm in Hc as ([] & _).
    apply bindScopeResources_Calm in Hr as ([] & _).
    inversion Hs; subst. simpl in *. congruence. }
  unfold Scope.injectScopeParameters in Hi. rewrite Hinj in Hi.
  apply mapM_get_inOrder in Hi.
  pose proof (runTask_kernel _ _ _ _ _ Hrun) as (_ & Hthis & _).
  simpl this in Hthis. rewrite Hthis in Hrej.
  assert (p = settle (task objs) ∧
          trace st' = trace st1 ++ CallTask objs :: cleanups (disposers (this st1)).*2)
    as [-> Htr].
  { rewrite runTask_spec in Hrun. simpl this in Hrun. rewrite Hrej in Hrun.
    by inversion Hrun. }
  exists sa, sb, st0, st1, objs, τ. repeat (split; [done|]).
  split; [by eapply resolvedInOrder_length|].
  split; [done|]. split; [done|]. split; [|done].
  by rewrite Htr, Hthis, (cleanups_all _ Hrej).
Qed.

Lemma C9_resolution_order_and_outcome_witness :
  let st := enter (Scope.inject [IdClass Fixture.Baz; IdClass Fixture.BazBaz]
                     (Container.scope Fixture.container)) Fixture.world in
  let result := Scope.run Fixture.paramTypes 10 Fixture.failingTask st in
  result.1 = Ok (Rejected (Error "task failed")) ∧
  Promise.firstRejected (disposers (this result.2)).*2 = None ∧
  ∃ sa sb st0 st1 injectedObjects τ,
    Kernel.snapshot st = (Ok tt, sa) ∧
    Scope.bindScopeContext Fixture.paramTypes 10 sa = (Ok tt, sb) ∧
    Scope.bindScopeResources sb = (Ok tt, st0) ∧
    injections (this st0) = injections (this st) ∧
    resolvedInOrder Fixture.paramTypes 10 (injections (this st)) st0 injectedObjects st1 ∧
    length injectedObjects = length (injections (this st)) ∧
    trace st1 = trace st ++ τ ∧ Forall isFactoryCall τ ∧
    trace result.2 = trace st1 ++
      CallTask injectedObjects :: (CallCleanup <$> (disposers (this result.2)).*2) ∧
    Rejected (Error "task failed") = settle (Fixture.failingTask injectedObjects).
Proof.
  intros st result.
  assert (Hrun : Scope.run Fixture.paramTypes 10 Fixture.failingTask st =
                 (Ok (Rejected (Error "task failed")), result.2))
    by (vm_compute; reflexivity).
  assert (Hrej : Promise.firstRejected (disposers (this result.2)).*2 = None)
    by (vm_compute; reflexivity).
  split; [vm_compute; reflexivity|]. split; [exact Hrej|].
  exact (C9_resolution_order_and_outcome Fixture.paramTypes 10 Fixture.failingTask
           st _ result.2 Hrun Hrej).
Defined.

(** ** One instance and one disposer per resource and scope *)




Example same_resource_in_the_scope :
  let st := enter (Scope.inject [IdClass Fixture.Baz; IdClass Fixture.BazBaz]
                     (Container.scope Fixture.container)) Fixture.world in
  let result := Scope.run Fixture.paramTypes 10 Fixture.task st in
  heap result.2 !! 3 = Some (Instance Fixture.Baz [VObject 1]) ∧
  heap result.2 !! 4 = Some (Instance Fixture.BazBaz [VObject 1]) ∧
  heap result.2 !! 1 = Some (Instance Fixture.Resource []).
Proof. vm_compute. repeat split. Qed.

(** ** Scopes do not share instances *)

(** C5.  For two scopes that have the resource registered, as two scopes of
    one container do, run one after the other over a heap whose objects all
    lie below the next reference, both returning their promise: a value
    handed out for the resource in the first run (to the unit of work, to a
    constructed object, to the disposer factory) differs from every value
    handed out for it in the second. *)
Theorem C5_scopes_do_not_share_instances paramTypes depth1 depth2 task1 task2
    s1 s2 st p1 st1 p2 st2 calls1 calls2 resource :
  heapAllocated st →
  resource ∈ scopeResources s1 →
  resource ∈ scopeResources s2 →
  Scope.run paramTypes depth1 task1 (enter s1 st) = (Ok p1, st1) →
  trace st1 = trace st ++ calls1 →
  Scope.run paramTypes depth2 task2 (enter s2 st1) = (Ok p2, st2) →
  trace st2 = trace st1 ++ calls2 →
  ∀ v1 v2,
    receives paramTypes resource (enter s1 st) calls1 st1 v1 →
    receives paramTypes resource (enter s2 st1) calls2 st2 v2 →
    v1 ≠ v2.
Proof.
  intros Hheap Hin1 Hin2 Hrun1 Ht1 Hrun2 Ht2 v1 v2 Hv1 Hv2.
  pose proof (run_heapAllocated _ _ _ (enter s1 st) _ _ Hrun1 Hheap) as Hheap1.
  destruct (run_instance _ _ _ (enter s1 st) _ _ _ resource Hheap Hin1 Hrun1 Ht1)
    as (sa & Hna & Ha).
  destruct (run_instance _ _ _ (enter s2 st1) _ _ _ resource Hheap1 Hin2 Hrun2 Ht2)
    as (sb & Hnb & Hb).
  destruct (Ha _ Hv1) as (_ & ref1 & -> & Hr1).
  destruct (Hb _ Hv2) as (_ & ref2 & -> & Hr2).
  simpl in *. intros [= ->]. lia.
Qed.

Lemma C5_scopes_do_not_share_instances_witness :
  let s := Scope.inject [IdClass Fixture.Baz] (Container.scope Fixture.container) in
  let resource := {| constructor := Fixture.Resource;
                     disposerFactory := Fixture.disposerFactory |} in
  let first := Scope.run Fixture.paramTypes 10 Fixture.task (enter s Fixture.world) in
  let second := Scope.run Fixture.paramTypes 10 Fixture.task (enter s first.2) in
  let d1 := {| disposer_ref := 2; disposer_promise := Fulfilled (VObject 1) |} in
  let d2 := {| disposer_ref := 5; disposer_promise := Fulfilled (VObject 4) |} in
  let calls1 := [CallDisposerFactory "Resource" (VObject 1) (Ok d1);
                 CallTask [VObject 3]; CallCleanup d1] in
  let calls2 := [CallDisposerFactory "Resource" (VObject 4) (Ok d2);
                 CallTask [VObject 6]; CallCleanup d2] in
  heapAllocated Fixture.world ∧
  resource ∈ scopeResources s ∧
  first.1 = Ok (Fulfilled (VPrimitive "done")) ∧
  trace first.2 = trace Fixture.world ++ calls1 ∧
  second.1 = Ok (Fulfilled (VPrimitive "done")) ∧
  trace second.2 = trace first.2 ++ calls2 ∧
  ∀ v1 v2,
    receives Fixture.paramTypes resource (enter s Fixture.world) calls1 first.2 v1 →
    receives Fixture.paramTypes resource (enter s first.2) calls2 second.2 v2 →
    v1 ≠ v2.
Proof.
  intros s resource first second d1 d2 calls1 calls2.
  assert (Hheap : heapAllocated Fixture.world) by (intros ref _; apply lookup_empty).
  assert (Hin : resource ∈ scopeResources s) by apply list_elem_of_here.
  assert (Hrun1 : Scope.run Fixture.paramTypes 10 Fixture.task (enter s Fixture.world)
                  = (Ok (Fulfilled (VPrimitive "done")), first.2))
    by (vm_compute; reflexivity).
  assert (Ht1 : trace first.2 = trace Fixture.world ++ calls1)
    by (vm_compute; reflexivity).
  assert (Hrun2 : Scope.run Fixture.paramTypes 10 Fixture.task (enter s first.2)
                  = (Ok (Fulfilled (VPrimitive "done")), second.2))
    by (vm_compute; reflexivity).
  assert (Ht2 : trace second.2 = trace first.2 ++ calls2)
    by (vm_compute; reflexivity).
  split; [exact Hheap|]. split; [exact Hin|].
  split; [vm_compute; reflexivity|]. split; [exact Ht1|].
  split; [vm_compute; reflexivity|]. split; [exact Ht2|].
  exact (C5_scopes_do_not_share_instances Fixture.paramTypes 10 10
           Fixture.task Fixture.task s s Fixture.world _ first.2 _ second.2
           calls1 calls2 resource Hheap Hin Hin Hrun1 Ht1 Hrun2 Ht2).
Defined.

Example different_resource_out_of_the_scope :
  let s := Scope.inject [IdClass Fixture.Baz] (Container.scope Fixture.container) in
  let first := Scope.run Fixture.paramTypes 10 Fixture.task (enter s Fixture.world) in
  let second := Scope.run Fixture.paramTypes 10 Fixture.task (enter s first.2) in
  heap second.2 !! 3 = Some (Instance Fixture.Baz [VObject 1]) ∧
  heap second.2 !! 6 = Some (Instance Fixture.Baz [VObject 4]).
Proof. vm_compute. repeat split. Qed.

(** * Further properties of the code *)

(** ** Registration (di.ts, class Container) *)

Lemma filter_other_id id (l : list Binding) :
  filter (λ b, serviceIdentifier b = id) l = [] →
  filter (λ b, serviceIdentifier b ≠ id) l = l.
Proof.
  induction l as [|b l IH]; [done|].
  rewrite !filter_cons. destruct (decide (serviceIdentifier b = id)) as [He|Hne].
  - done.
  - intros H. rewrite decide_True by done. by rewrite IH.
Qed.

Lemma filter_rebound id (l : list Binding) :
  filter (λ b, serviceIdentifier b = id)
         (filter (λ b, serviceIdentifier b ≠ id) l) = [].
Proof.
  induction l as [|b l IH]; [done|].
  rewrite filter_cons. destruct (decide (serviceIdentifier b ≠ id)) as [Hne|He].
  - rewrite filter_cons. by rewrite decide_False.
  - done.
Qed.

Lemma filter_kept id id' (l : list Binding) :
  id' ≠ id →
  filter (λ b, serviceIdentifier b = id')
         (filter (λ b, serviceIdentifier b ≠ id) l) =
  filter (λ b, serviceIdentifier b = id') l.
Proof.
  intros Hne. induction l as [|b l IH]; [done|].
  rewrite (filter_cons (λ b, serviceIdentifier b ≠ id)).
  destruct (decide (serviceIdentifier b ≠ id)) as [Hb|Hb].
  - rewrite !filter_cons. by rewrite IH.
  - rewrite filter_cons. rewrite decide_False; [done|].
    intros He. apply Hb. congruence.
Qed.


Lemma rebind_spec id impl sc st :
  (Container.unbindIfBound id ;; Kernel.bind id impl sc) st =
    (Ok tt, rebound id impl sc st).
Proof.
  unfold bind at 1, Container.unbindIfBound, Kernel.unbind.
  destruct (Kernel.isBound id (kernel st)) eqn:Hb; simpl; [done|].
  unfold Kernel.bind, rebound. do 2 f_equal.
  apply bool_decide_eq_false in Hb.
  assert (Kernel.lookup id (kernel st) = []) as Hl
    by (destruct (Kernel.lookup id (kernel st)); [done|by destruct Hb]).
  unfold Kernel.lookup in Hl. by rewrite (filter_other_id _ _ Hl).
Qed.

Lemma lookup_rebound id impl sc st :
  Kernel.lookup id (kernel (rebound id impl sc st)) = [Kernel.newBinding id impl sc].
Proof.
  unfold rebound. simpl. rewrite lookup_snoc. unfold Kernel.lookup. simpl.
  rewrite filter_rebound. simpl. by rewrite decide_True.
Qed.

Lemma lookup_rebound_ne id id' impl sc st :
  id' ≠ id →
  Kernel.lookup id' (kernel (rebound id impl sc st)) = Kernel.lookup id' (kernel st).
Proof.
  intros Hne. unfold rebound. simpl. rewrite lookup_snoc.
  unfold Kernel.lookup. simpl. rewrite filter_kept by done.
  rewrite decide_False by done. apply app_nil_r.
Qed.

Lemma bindConstant_spec identifier val c st :
  Container.bindConstant identifier val c st =
    (Ok {| Container.scopeResources := Container.scopeResources c;
           Container.boundConstants := Container.boundConstants c ++ [identifier] |},
     rebound identifier (ToConstantValue val) TransientScope st).
Proof.
  unfold Container.bindConstant.
  pose proof (rebind_spec identifier (ToConstantValue val) TransientScope st) as H.
  unfold bind in *.
  destruct (Container.unbindIfBound identifier st) as [[[]|e] s1]; [|done].
  rewrite H. reflexivity.
Qed.

Lemma bindTransientClass_spec aClass bClass c st :
  Container.bindTransientClass aClass bClass c st =
    (Ok c, rebound (IdClass aClass) (ToClass (default aClass bClass)) TransientScope st).
Proof.
  unfold Container.bindTransientClass.
  pose proof (rebind_spec (IdClass aClass) (ToClass (default aClass bClass))
                TransientScope st) as H.
  unfold bind in *.
  destruct (Container.unbindIfBound (IdClass aClass) st) as [[[]|e] s1]; [|done].
  rewrite H. reflexivity.
Qed.

(** X1.  [bindConstant(identifier, value)] never throws, whatever was bound
    before.  Afterwards the identifier has exactly one binding and
    [getConstantValue(identifier)] returns [value] without changing
    anything; every other identifier keeps its bindings; the identifier is
    appended to the list [getConstantIdentifierList] returns, once per call,
    also when it was on the list before; the resources of the container,
    the heap and the calls made stay as they are. *)
Theorem X1_bindConstant_getConstantValue paramTypes d identifier val c st :
  ∃ c' st',
    Container.bindConstant identifier val c st = (Ok c', st') ∧
    getConstantValue paramTypes (S d) identifier st' = (Ok val, st') ∧
    Kernel.lookup identifier (kernel st') =
      [Kernel.newBinding identifier (ToConstantValue val) TransientScope] ∧
    (∀ id', id' ≠ identifier →
       Kernel.lookup id' (kernel st') = Kernel.lookup id' (kernel st)) ∧
    Container.getConstantIdentifierList c' =
      Container.getConstantIdentifierList c ++ [identifier] ∧
    Container.scope c' = Container.scope c ∧
    heap st' = heap st ∧ trace st' = trace st.
Proof.
  eexists _, (rebound identifier (ToConstantValue val) TransientScope st).
  split; [apply bindConstant_spec|].
  split.
  { unfold getConstantValue. rewrite get_S, lookup_rebound. reflexivity. }
  split; [apply lookup_rebound|].
  split; [intros; by apply lookup_rebound_ne|].
  done.
Qed.

Lemma get_transient_class paramTypes d id b c st v st' :
  Kernel.lookup id (kernel st) = [b] →
  implementation b = ToClass c →
  bindingScope b = TransientScope →
  Kernel.get paramTypes (S d) id st = (Ok v, st') →
  ∃ args sm,
    resolvedInOrder paramTypes d (Kernel.constructorParameters paramTypes c) st args sm ∧
    v = VObject (next_ref sm) ∧
    next_ref st ≤ next_ref sm ∧ next_ref st' = S (next_ref sm) ∧
    kernel st' = kernel sm ∧
    (c ≠ ScopeContext.class → heap st' !! next_ref sm = Some (Instance c args)).
Proof.
  intros Hl Hi Hs. rewrite get_S, Hl. unfold Kernel.resolveBinding, Kernel.cached.
  rewrite Hs. unfold Kernel.instantiate. rewrite Hi. intros H.
  apply bind_inv in H as [(v' & s1 & H1 & H2)|(e & _ & ?)]; [|done].
  apply bind_inv in H1 as [(args & sm & Hm & Hc)|(e & _ & ?)]; [|done].
  unfold bind, ret in H2. simpl in H2. inversion H2; subst v' s1. clear H2.
  exists args, sm. split; [by apply mapM_get_inOrder|].
  apply mapM_get_Calm in Hm as ([] & _).
  unfold Kernel.construct in Hc.
  destruct (decide (c = ScopeContext.class)) as [->|Hne];
    unfold alloc in Hc; inversion Hc; subst; simpl.
  - repeat split; try done.
  - repeat split; try done. intros _. apply lookup_insert_eq.
Qed.

(** X2.  [bindTransientClass(aClass, bClass)] never throws, whatever was
    bound before, and returns the container.  Afterwards [aClass] has
    exactly one binding, a transient one to [bClass] ([aClass] itself when
    [bClass] is not given); every other identifier keeps its bindings, and
    checkpoints, heap, calls made and the running scope stay as they are. *)
Theorem X2_bindTransientClass_rebinds aClass bClass c st :
  ∃ st',
    Container.bindTransientClass aClass bClass c st = (Ok c, st') ∧
    Kernel.lookup (IdClass aClass) (kernel st') =
      [Kernel.newBinding (IdClass aClass) (ToClass (default aClass bClass))
                         TransientScope] ∧
    (∀ id', id' ≠ IdClass aClass →
       Kernel.lookup id' (kernel st') = Kernel.lookup id' (kernel st)) ∧
    snapshots (kernel st') = snapshots (kernel st) ∧
    heap st' = heap st ∧ next_ref st' = next_ref st ∧ trace st' = trace st ∧
    this st' = this st.
Proof.
  exists (rebound (IdClass aClass) (ToClass (default aClass bClass)) TransientScope st).
  split; [apply bindTransientClass_spec|].
  split; [apply lookup_rebound|].
  split; [intros; by apply lookup_rebound_ne|].
  done.
Qed.

(** X3.  After [bindTransientClass(aClass, bClass)], two resolutions of
    [aClass] that return give two different objects, each allocated by its
    resolution, and each an instance of [bClass] ([aClass] when [bClass] is
    not given) constructed from what the identifiers of the constructor
    parameters resolved to, in their order. *)
Theorem X3_transient_class_new_instance paramTypes d aClass bClass c st0 st v1 st1 v2 st2 :
  Container.bindTransientClass aClass bClass c st0 = (Ok c, st) →
  Kernel.get paramTypes (S d) (IdClass aClass) st = (Ok v1, st1) →
  Kernel.get paramTypes (S d) (IdClass aClass) st1 = (Ok v2, st2) →
  v1 ≠ v2 ∧
  ∃ r1 r2 args1 args2 sm1 sm2,
    v1 = VObject r1 ∧ v2 = VObject r2 ∧
    next_ref st ≤ r1 ∧ r1 < r2 ∧ r2 < next_ref st2 ∧
    resolvedInOrder paramTypes d
      (Kernel.constructorParameters paramTypes (default aClass bClass)) st args1 sm1 ∧
    resolvedInOrder paramTypes d
      (Kernel.constructorParameters paramTypes (default aClass bClass)) st1 args2 sm2 ∧
    (default aClass bClass ≠ ScopeContext.class →
       heap st1 !! r1 = Some (Instance (default aClass bClass) args1) ∧
       heap st2 !! r2 = Some (Instance (default aClass bClass) args2)).
Proof.
  intros Hb H1 H2.
  rewrite bindTransientClass_spec in Hb. inversion Hb; subst st. clear Hb.
  pose proof (lookup_rebound (IdClass aClass) (ToClass (default aClass bClass))
                TransientScope st0) as Hl.
  pose proof (get_Frame _ _ _ _ _ _ H1) as HF.
  destruct (Frame_lookup_unique _ _ _ _ HF Hl) as (b' & Hl' & _ & Hi & Hs & _).
  simpl in Hi, Hs.
  eapply get_transient_class in H1 as (args1 & sm1 & Hr1 & -> & Hn1 & Hn1' & _ & Hh1);
    [|exact Hl|done|done].
  eapply get_transient_class in H2 as (args2 & sm2 & Hr2 & -> & Hn2 & Hn2' & _ & Hh2);
    [|exact Hl'|by symmetry|by symmetry].
  split; [intros [= ?]; lia|].
  exists (next_ref sm1), (next_ref sm2), args1, args2, sm1, sm2.
  repeat split; try done; try lia; auto.
Qed.

Lemma X3_transient_class_new_instance_witness :
  let st := after (Container.bindTransientClass Fixture.Baz (Some Fixture.Bar)
                     Fixture.container) Fixture.world in
  let r1 := Kernel.get Fixture.paramTypes 3 (IdClass Fixture.Baz) st in
  let r2 := Kernel.get Fixture.paramTypes 3 (IdClass Fixture.Baz) r1.2 in
  r1.1 = Ok (VObject 2) ∧ r2.1 = Ok (VObject 4) ∧
  VObject 2 ≠ VObject 4 ∧
  ∃ r1' r2' args1 args2 sm1 sm2,
    VObject 2 = VObject r1' ∧ VObject 4 = VObject r2' ∧
    next_ref st ≤ r1' ∧ r1' < r2' ∧ r2' < next_ref r2.2 ∧
    resolvedInOrder Fixture.paramTypes 2
      (Kernel.constructorParameters Fixture.paramTypes
         (default Fixture.Baz (Some Fixture.Bar))) st args1 sm1 ∧
    resolvedInOrder Fixture.paramTypes 2
      (Kernel.constructorParameters Fixture.paramTypes
         (default Fixture.Baz (Some Fixture.Bar))) r1.2 args2 sm2 ∧
    (default Fixture.Baz (Some Fixture.Bar) ≠ ScopeContext.class →
       heap r1.2 !! r1' = Some (Instance (default Fixture.Baz (Some Fixture.Bar)) args1) ∧
       heap r2.2 !! r2' = Some (Instance (default Fixture.Baz (Some Fixture.Bar)) args2)).
Proof.
  intros st r1 r2.
  split; [vm_compute; reflexivity|]. split; [vm_compute; reflexivity|].
  apply (X3_transient_class_new_instance Fixture.paramTypes 2 Fixture.Baz
           (Some Fixture.Bar) Fixture.container Fixture.world st
           (VObject 2) r1.2 (VObject 4) r2.2).
  - vm_compute; reflexivity.
  - vm_compute; reflexivity.
  - vm_compute; reflexivity.
Defined.

(** ** Edge cases of [run] (di.ts, Scope.run) *)

Lemma bindScopeContext_no_data paramTypes depth st :
  objToBindScopeContext (this st) = None →
  Scope.bindScopeContext paramTypes depth st =
    (Ok tt,
     set_kernel {| bindings := bindings (kernel st) ++
                     [Kernel.newBinding (IdClass ScopeContext.class)
                        (ToClass ScopeContext.class) SingletonScope];
                   snapshots := snapshots (kernel st) |} st).
Proof.
  intros H. unfold Scope.bindScopeContext, bind, Kernel.bind. simpl. by rewrite H.
Qed.

(** X4.  A scope with an empty disposer set, without context data and
    without declared identifiers always runs its unit of work: whatever the
    registry holds and whatever resources are registered, [run] returns a
    promise that settles as the unit of work applied to no arguments does;
    the unit of work is the only call made (no resource is acquired or
    released), and registry, heap and scope are as before. *)
Theorem X4_nothing_to_resolve paramTypes depth task st :
  fresh (this st) →
  objToBindScopeContext (this st) = None →
  injections (this st) = [] →
  Scope.run paramTypes depth task st =
    (Ok (settle (task [])), addTrace [CallTask []] st).
Proof.
  intros Hf Hc Hi. rewrite run_unfold. unfold Scope.resolve.
  erewrite bind_Ok by reflexivity.
  erewrite bind_Ok by (by apply bindScopeContext_no_data).
  erewrite bind_Ok by apply bindScopeResources_spec.
  unfold Scope.injectScopeParameters. simpl. rewrite Hi. simpl.
  rewrite runTask_spec. simpl. rewrite Hf. simpl.
  reflexivity.
Qed.

Lemma X4_nothing_to_resolve_witness :
  let st := enter (Container.scope Fixture.container) Fixture.world in
  fresh (this st) ∧ objToBindScopeContext (this st) = None ∧
  injections (this st) = [] ∧
  Scope.run Fixture.paramTypes 0 Fixture.task st =
    (Ok (settle (Fixture.task [])), addTrace [CallTask []] st).
Proof.
  intros st. split; [reflexivity|]. split; [reflexivity|]. split; [reflexivity|].
  apply (X4_nothing_to_resolve Fixture.paramTypes 0 Fixture.task st); reflexivity.
Defined.

Lemma isBound_true id k : Kernel.isBound id k = true ↔ Kernel.lookup id k ≠ [].
Proof. unfold Kernel.isBound. apply bool_decide_eq_true. Qed.

Lemma get_ambiguous paramTypes d id st :
  2 ≤ length (Kernel.lookup id (kernel st)) →
  Kernel.get paramTypes (S d) id st = (Throw (Kernel.ambiguous id), st).
Proof.
  intros H. rewrite get_S.
  destruct (Kernel.lookup id (kernel st)) as [|b [|b' l]]; simpl in H; [lia|lia|done].
Qed.

Lemma bindScopeContext_bound paramTypes d st data :
  Kernel.isBound (IdClass ScopeContext.class) (kernel st) = true →
  objToBindScopeContext (this st) = Some data →
  Scope.bindScopeContext paramTypes (S d) st =
    (Throw (Kernel.ambiguous (IdClass ScopeContext.class)),
     set_kernel {| bindings := bindings (kernel st) ++
                     [Kernel.newBinding (IdClass ScopeContext.class)
                        (ToClass ScopeContext.class) SingletonScope];
                   snapshots := snapshots (kernel st) |} st).
Proof.
  intros Hb Hd. apply isBound_true in Hb.
  unfold Scope.bindScopeContext. erewrite bind_Ok by reflexivity.
  simpl this. rewrite Hd.
  erewrite bind_Throw; [done|].
  apply get_ambiguous. simpl. destruct (kernel st) as [B S]. rewrite lookup_snoc.
  rewrite length_app. unfold Kernel.newBinding at 1. simpl serviceIdentifier.
  case_decide; [|done]. simpl.
  destruct (Kernel.lookup _ _); [done|]. simpl. lia.
Qed.



Lemma Frame_length id st st' :
  Frame st st' →
  length (Kernel.lookup id (kernel st')) = length (Kernel.lookup id (kernel st)).
Proof. intros H. symmetry. eapply Forall2_length, Frame_lookup, H. Qed.

Lemma mapM_get_Frame paramTypes depth ids : ∀ st r st',
  mapM (Kernel.get paramTypes depth) ids st = (r, st') → Frame st st'.
Proof.
  induction ids as [|id ids IH]; intros st r st' H; simpl in H.
  - inversion H; subst. apply Frame_refl.
  - apply bind_inv in H as [(v & s1 & H1 & H2)|(e & H1 & _)];
      [|by eapply get_Frame].
    apply bind_inv in H2 as [(vs & s2 & H2 & H3)|(e & H2 & _)].
    + inversion H3; subst. eapply Frame_trans; [by eapply get_Frame|by eapply IH].
    + eapply Frame_trans; [by eapply get_Frame|by eapply IH].
Qed.

Lemma invokeSetOnce_kernel scopeContext name val st r st' :
  Scope.invokeSetOnce scopeContext name val st = (r, st') → kernel st' = kernel st.
Proof.
  intros H. by apply invokeSetOnce_inv in H as [->|(self & fields & _ & _ & ->)].
Qed.

Lemma forEach_invokeSetOnce_kernel scopeContext data : ∀ st r st',
  forEach (λ entry, Scope.invokeSetOnce scopeContext entry.1 entry.2) data st = (r, st') →
  kernel st' = kernel st.
Proof. intros st r st' H. by apply forEach_setOnce_frame in H as (_ & ? & _). Qed.

(** What [bindScopeContext] leaves of the registry: every binding, with a
    binding for the scope context added. *)
Lemma bindScopeContext_length paramTypes depth st r st' id :
  Scope.bindScopeContext paramTypes depth st = (r, st') →
  length (Kernel.lookup id (kernel st')) =
    length (Kernel.lookup id (kernel st)) +
    (if decide (IdClass ScopeContext.class = id) then 1 else 0).
Proof.
  unfold Scope.bindScopeContext. intros H.
  apply bind_inv in H as [([] & s1 & H1 & H2)|(e & H1 & _)]; [|done].
  assert (Hs1 : length (Kernel.lookup id (kernel s1)) =
    length (Kernel.lookup id (kernel st)) +
    (if decide (IdClass ScopeContext.class = id) then 1 else 0)).
  { unfold Kernel.bind in H1. inversion H1; subst. simpl.
    destruct (kernel st) as [B S]. simpl. rewrite lookup_snoc, length_app.
    unfold Kernel.newBinding at 1. simpl serviceIdentifier.
    by case_decide. }
  rewrite <- Hs1.
  assert (this s1 = this st) as Ht by (unfold Kernel.bind in H1; by inversion H1).
  destruct (objToBindScopeContext (this s1)) as [data|]; [|by inversion H2].
  apply bind_inv in H2 as [(v & s2 & H2 & H3)|(e & H2 & _)].
  - apply forEach_invokeSetOnce_kernel in H3. rewrite H3.
    eapply Frame_length, get_Frame, H2.
  - eapply Frame_length, get_Frame, H2.
Qed.

Lemma resolve_throws_bound paramTypes depth st e st' :
  Scope.resolve paramTypes depth st = (Throw e, st') →
  Kernel.isBound (IdClass ScopeContext.class) (kernel st') = true.
Proof.
  intros H. apply isBound_true. intros Hnil.
  assert (length (Kernel.lookup (IdClass ScopeContext.class) (kernel st')) = 0) as Hlen
    by (by rewrite Hnil).
  clear Hnil. unfold Scope.resolve in H.
  apply bind_inv in H as [([] & sa & Hs & H)|(e' & H & _)]; [|done].
  apply bind_inv in H as [([] & sb & Hc & H)|(e' & Hc & _)].
  - pose proof (bindScopeContext_length _ _ _ _ _ (IdClass ScopeContext.class) Hc) as Hb.
    rewrite decide_True in Hb by done.
    apply bind_inv in H as [([] & st0 & Hr & H)|(e' & Hr & _)].
    + rewrite bindScopeResources_spec in Hr. inversion Hr; subst st0. clear Hr.
      apply mapM_get_Frame in H.
      rewrite (Frame_length _ _ _ H) in Hlen. simpl in Hlen.
      unfold Kernel.lookup in *. simpl in Hlen.
      rewrite filter_app, length_app in Hlen. lia.
    + rewrite bindScopeResources_spec in Hr. done.
  - pose proof (bindScopeContext_length _ _ _ _ _ (IdClass ScopeContext.class) Hc) as Hb.
    rewrite decide_True in Hb by done. lia.
Qed.




(** ** Resources that cannot be resolved (di.ts, Scope.bindScopeResources) *)

Lemma Doomed_Frame st st' id : Frame st st' → Doomed st id → Doomed st' id.
Proof.
  intros HF [H|(b & resource & Hl & Hi & Hs & Hn)].
  - left. by rewrite (Frame_length _ _ _ HF).
  - right. destruct (Frame_lookup_unique _ _ _ _ HF Hl) as (b' & Hl' & _ & Hi' & Hs' & _).
    exists b', resource. rewrite (Frame_length _ _ _ HF).
    repeat split; [done|congruence|congruence|done].
Qed.

Lemma get_Doomed paramTypes depth id st :
  Doomed st id → ∃ e, Kernel.get paramTypes depth id st = (Throw e, st).
Proof.
  destruct depth as [|d]; [by eexists|].
  intros [H|(b & resource & Hl & Hi & Hs & Hn)].
  - eexists. by apply get_ambiguous.
  - rewrite get_S, Hl. unfold Kernel.resolveBinding, Kernel.cached. rewrite Hs.
    unfold Kernel.instantiate. rewrite Hi. unfold scopeResourceValue.
    destruct d as [|d].
    + eexists. reflexivity.
    + eexists. erewrite bind_Throw; [reflexivity|].
      erewrite bind_Throw; [reflexivity|].
      by apply get_ambiguous.
Qed.

Lemma mapM_get_Doomed paramTypes depth ids id : ∀ st r st',
  id ∈ ids → Doomed st id →
  mapM (Kernel.get paramTypes depth) ids st = (r, st') → outcome r ≠ None.
Proof.
  induction ids as [|x ids IH]; intros st r st' Hin Hd H; [by apply elem_of_nil in Hin|].
  simpl in H.
  apply bind_inv in H as [(v & s1 & H1 & H2)|(e & H1 & ->)]; [|done].
  apply elem_of_cons in Hin as [->|Hin].
  - destruct (get_Doomed paramTypes depth x st Hd) as [e He]. congruence.
  - apply bind_inv in H2 as [(vs & s2 & H2 & H3)|(e & H2 & ->)]; [|done].
    exfalso. eapply (IH s1 (Ok vs) s2 Hin); [|done|done].
    eapply Doomed_Frame; [by eapply get_Frame|done].
Qed.

Local Abbreviation overlayOf resource :=
  [Kernel.newBinding (instanceBindName (class_name (constructor resource)))
                     (ToClass (constructor resource)) SingletonScope;
   Kernel.newBinding (IdClass (constructor resource))
                     (ToDynamicValue resource) TransientScope].

Lemma overlay_resource_binding resource resources :
  resource ∈ resources →
  Kernel.newBinding (IdClass (constructor resource)) (ToDynamicValue resource)
                    TransientScope
  ∈ filter (λ b, serviceIdentifier b = IdClass (constructor resource))
           (flat_map (λ resource, overlayOf resource) resources).
Proof.
  intros Hin. apply list_elem_of_filter. split; [done|].
  apply list_elem_of_In, in_flat_map. exists resource.
  split; [by apply list_elem_of_In|]. right. by left.
Qed.

Lemma overlay_instance_count name resources :
  length (filter (λ r, class_name (constructor r) = name) resources) ≤
  length (filter (λ b, serviceIdentifier b = instanceBindName name)
                 (flat_map (λ resource, overlayOf resource) resources)).
Proof.
  induction resources as [|r resources IH]; [done|].
  simpl flat_map. rewrite !filter_cons.
  unfold Kernel.newBinding at 1 3. simpl serviceIdentifier.
  destruct (decide (class_name (constructor r) = name)) as [->|Hne].
  - rewrite decide_True by done. rewrite decide_False by done. simpl. lia.
  - destruct (decide (instanceBindName _ = _)); rewrite decide_False by done; simpl; lia.
Qed.

(** The registry in which the declared identifiers are resolved. *)
Lemma resolve_overlay paramTypes depth st sa sb st0 id :
  Kernel.snapshot st = (Ok tt, sa) →
  Scope.bindScopeContext paramTypes depth sa = (Ok tt, sb) →
  Scope.bindScopeResources sb = (Ok tt, st0) →
  scopeResources (this sb) = scopeResources (this st) ∧
  Kernel.lookup id (kernel st0) =
    Kernel.lookup id (kernel sb) ++
    filter (λ b, serviceIdentifier b = id)
           (flat_map (λ resource, overlayOf resource) (scopeResources (this st))) ∧
  length (Kernel.lookup id (kernel st)) ≤ length (Kernel.lookup id (kernel sb)).
Proof.
  intros Hs Hc Hr.
  assert (scopeResources (this sb) = scopeResources (this st)) as Hres.
  { apply bindScopeContext_Calm in Hc as ([] & _). inversion Hs; subst. simpl in *.
    congruence. }
  split; [done|]. split.
  - rewrite bindScopeResources_spec in Hr. inversion Hr; subst st0. simpl.
    unfold Kernel.lookup. simpl. by rewrite filter_app, Hres.
  - rewrite (bindScopeContext_length _ _ _ _ _ id Hc).
    inversion Hs; subst sa. unfold Kernel.lookup. simpl. lia.
Qed.

Lemma run_Doomed paramTypes depth task st r st' id :
  id ∈ injections (this st) →
  (∀ sa sb st0,
     Kernel.snapshot st = (Ok tt, sa) →
     Scope.bindScopeContext paramTypes depth sa = (Ok tt, sb) →
     Scope.bindScopeResources sb = (Ok tt, st0) → Doomed st0 id) →
  Scope.run paramTypes depth task st = (r, st') →
  ∃ e τ, r = Throw e ∧ trace st' = trace st ++ τ ∧ Forall isFactoryCall τ.
Proof.
  intros Hin Hd Hrun. destruct r as [p|e].
  - exfalso. apply run_returns in Hrun as (objs & st1 & Hres & _).
    pose proof (resolve_spec _ _ _ _ _ Hres) as (_ & _ & _ & _ & _ & _ & _).
    apply resolve_inv in Hres as (sa & sb & st0 & Hs & Hc & Hr & Hi).
    assert (Hinj : injections (this st0) = injections (this st)).
    { apply bindScopeContext_Calm in Hc as ([] & _).
      apply bindScopeResources_Calm in Hr as ([] & _).
      inversion Hs; subst. simpl in *. congruence. }
    unfold Scope.injectScopeParameters in Hi. rewrite Hinj in Hi.
    by eapply (mapM_get_Doomed _ _ _ id st0 (Ok objs) st1 Hin (Hd _ _ _ Hs Hc Hr)).
  - apply run_throws_trace in Hrun as (_ & τ & Ht & Ha & _).
    exists e, τ. split; [done|]. split; [done|]. by eapply acquisitions_calls.
Qed.





(** ** Running a scope again (di.ts, Scope.run) *)

Lemma acquisitions_skips τ : ∀ names o n,
  acquisitions names τ o → n ∈ names → n ∉ factoryCalls τ.
Proof.
  induction τ as [|ev τ IH]; intros names o n Ha Hn; [apply not_elem_of_nil|].
  destruct ev as [name i [d|e]| |]; simpl in Ha; try done.
  - destruct Ha as [Hnin Ha]. simpl. apply not_elem_of_cons. split.
    + intros ->. done.
    + eapply IH; [done|]. apply elem_of_app. by left.
  - destruct Ha as (Hnin & -> & _). simpl. apply not_elem_of_cons. split.
    + intros ->. done.
    + apply not_elem_of_nil.
Qed.

Lemma lookupDisposer_app name ds ds' d :
  lookupDisposer name ds = Some d → lookupDisposer name (ds ++ ds') = Some d.
Proof.
  unfold lookupDisposer. rewrite filter_app.
  destruct (filter _ ds); [done|]. done.
Qed.

(** X9.  A scope keeps its disposer set from one [run] to the next.  When
    the disposer set already holds a disposer for a resource name, as after
    an earlier [run] of the same scope, [run] does not call the disposer
    factory of that name, whatever it resolves, and the disposer it held
    stays the disposer of that name. *)
Theorem X9_second_run_reuses_disposers
    paramTypes depth task st r st' calls name d :
  lookupDisposer name (disposers (this st)) = Some d →
  Scope.run paramTypes depth task st = (r, st') →
  trace st' = trace st ++ calls →
  (name ∉ factoryCalls calls) ∧
  lookupDisposer name (disposers (this st')) = Some d.
Proof.
  intros Hd Hrun Htr.
  assert (Hname : name ∈ (disposers (this st)).*1).
  { apply lookupDisposer_Some in Hd. apply list_elem_of_fmap. by exists (name, d). }
  destruct r as [p|e].
  - apply run_returns in Hrun as (objs & st1 & Hres & Hrun).
    pose proof (resolve_spec _ _ _ _ _ Hres) as (_ & _ & _ & _ & _ & HS & _).
    destruct HS as (τ & Ht & Hds & Ha). simpl in Ha.
    pose proof (runTask_kernel _ _ _ _ _ Hrun) as (_ & Hthis & _). simpl in Hthis.
    rewrite runTask_spec in Hrun. simpl this in Hrun.
    rewrite Hthis, Hds. split; [|by apply lookupDisposer_app].
    destruct (Promise.firstRejected _); inversion Hrun; subst; simpl in Htr;
      rewrite Ht, <- app_assoc in Htr; apply app_inv_head in Htr; subst calls;
      rewrite factoryCalls_app; simpl; rewrite factoryCalls_cleanups, ?app_nil_r;
      by eapply acquisitions_skips.
  - apply run_throws_trace in Hrun as (_ & τ & Ht & Ha & Hds).
    rewrite Htr in Ht. apply app_inv_head in Ht. subst calls.
    split; [by eapply acquisitions_skips|]. rewrite Hds. by apply lookupDisposer_app.
Qed.

Lemma X9_second_run_reuses_disposers_witness :
  let first := Scope.run Fixture.paramTypes 10 Fixture.task
                 (enter (Scope.inject [IdClass Fixture.Baz]
                           (Container.scope Fixture.container)) Fixture.world) in
  let d := {| disposer_ref := 2; disposer_promise := Fulfilled (VObject 1) |} in
  let second := Scope.run Fixture.paramTypes 10 Fixture.task first.2 in
  let calls := [CallTask [VObject 5]; CallCleanup d] in
  lookupDisposer "Resource" (disposers (this first.2)) = Some d ∧
  trace second.2 = trace first.2 ++ calls ∧
  ("Resource" ∉ factoryCalls calls) ∧
  lookupDisposer "Resource" (disposers (this second.2)) = Some d.
Proof.
  intros first d second calls.
  assert (H1 : lookupDisposer "Resource" (disposers (this first.2)) = Some d)
    by (vm_compute; reflexivity).
  assert (H2 : trace second.2 = trace first.2 ++ calls) by (vm_compute; reflexivity).
  split; [exact H1|]. split; [exact H2|].
  exact (X9_second_run_reuses_disposers Fixture.paramTypes 10 Fixture.task first.2
           second.1 second.2 calls "Resource" d H1 (surjective_pairing _) H2).
Defined.

(** ** The scope context in a run (di.ts, Scope.bindScopeContext) *)
Section Context.

Variable paramTypes : Class → list InjectionIdentifier.
Variable F : ScopeContextFields.
Variable n0 : nat.

Local Abbreviation Ctx := (IdClass ScopeContext.class).

Local Abbreviation CInv := (ContextInv paramTypes F n0).

Local Abbreviation Kept := (ContextKept paramTypes F n0).

Local Abbreviation keeps kernel_get :=
  (∀ id st v st', CInv st → kernel_get id st = (Ok v, st') →
     Kept st st' ∧ (id = Ctx → contextOf st' = Some v)).

Lemma Kept_refl st : CInv st → Kept st st.
Proof. intros H. split; [done|]. split; [lia|done]. Qed.

Lemma Kept_trans a b c : Kept a b → Kept b c → Kept a c.
Proof. intros (_ & Ha & H1) (HI & Hb & H2). split; [done|]. split; [lia|auto]. Qed.

Lemma contextOf_kernel st st' : kernel st' = kernel st → contextOf st' = contextOf st.
Proof. unfold contextOf. by intros ->. Qed.

Lemma contextOf_activate_ne id v st :
  id ≠ Ctx → contextOf (after (Kernel.activate id v) st) = contextOf st.
Proof. intros Hne. unfold contextOf. by rewrite lookup_activate_ne. Qed.

(** A step that leaves the registry and the objects alone. *)
Lemma Kept_quiet st st' :
  kernel st' = kernel st → heap st' = heap st → next_ref st ≤ next_ref st' →
  CInv st → Kept st st'.
Proof.
  intros Hk Hh Hn [H1 H2 H3 H4 H5 H6].
  pose proof (contextOf_kernel _ _ Hk) as Hc.
  split; [|split; [done|by rewrite Hc]].
  split; rewrite ?Hk, ?Hh, ?Hc.
  - done.
  - intros v Hv. destruct (H2 v Hv) as (ref & -> & ? & ?). exists ref.
    split; [done|]. split; [lia|done].
  - done.
  - intros ref c args j Href Hheap Hj.
    destruct (decide (ref < next_ref st)) as [Hlt|Hge].
    + eapply H4; [|done|done]. lia.
    + rewrite H5 in Hheap by lia. done.
  - intros ref Href. rewrite Hh. apply H5. lia.
  - lia.
Qed.

Lemma mapM_keeps (kernel_get : InjectionIdentifier → M Value) ids :
  keeps kernel_get →
  ∀ st vs st', CInv st → mapM kernel_get ids st = (Ok vs, st') →
    Kept st st' ∧
    ∀ j, ids !! j = Some Ctx → ∃ v, vs !! j = Some v ∧ contextOf st' = Some v.
Proof.
  intros Hget. induction ids as [|x xs IH]; intros st vs st' HI H; simpl in H.
  - inversion H; subst. split; [by apply Kept_refl|]. done.
  - apply bind_inv in H as [(y & st1 & Hx & H)|(e & _ & [=])].
    apply bind_inv in H as [(ys & st2 & Hxs & H)|(e & _ & [=])].
    inversion H; subst; clear H.
    destruct (Hget _ _ _ _ HI Hx) as [HD1 Hr1].
    destruct (IH _ _ _ (proj1 HD1) Hxs) as [HD2 Hr2].
    split; [by eapply Kept_trans|].
    intros [|j] Hj; simpl in *.
    + inversion Hj; subst x. exists y. split; [done|].
      apply HD2. by apply Hr1.
    + by apply Hr2.
Qed.

Lemma construct_keeps c args st v st' :
  CInv st →
  (∀ j, Kernel.constructorParameters paramTypes c !! j = Some Ctx →
        ∃ v, args !! j = Some v ∧ contextOf st = Some v) →
  Kernel.construct c args st = (Ok v, st') →
  Kept st st' ∧ v = VObject (next_ref st) ∧ kernel st' = kernel st ∧
  next_ref st' = S (next_ref st) ∧
  (c = ScopeContext.class →
     heap st' !! next_ref st = Some (ContextObject ScopeContext.empty)).
Proof.
  intros [H1 H2 H3 H4 H5 H6] Hargs Hc.
  assert (∃ o, st' = after (alloc o) st ∧ v = VObject (next_ref st) ∧
               (∀ c' args', o = Instance c' args' → c' = c ∧ args' = args) ∧
               (c = ScopeContext.class → o = ContextObject ScopeContext.empty))
    as (o & -> & -> & Ho & Ho').
  { unfold Kernel.construct in Hc. destruct (decide _); inversion Hc; subst;
      eexists; (split; [reflexivity|]); (split; [done|]);
      (split; [intros ? ? [=]; by subst|]); by intros. }
  split; [|repeat split; try done;
           intros Heq; simpl; rewrite (Ho' Heq); apply lookup_insert_eq].
  split; [|split; [simpl; lia|done]].
  split; simpl.
  - done.
  - intros w Hw. destruct (H2 w Hw) as (ref & -> & ? & ?). exists ref.
    split; [done|]. split; [lia|]. rewrite lookup_insert_ne by lia. done.
  - done.
  - intros ref c' args' j Hn0 Hh Hj.
    destruct (decide (ref = next_ref st)) as [->|Hne].
    + rewrite lookup_insert_eq in Hh. inversion Hh as [Heq].
      destruct (Ho _ _ Heq) as [-> ->]. by apply Hargs.
    + rewrite lookup_insert_ne in Hh by done. eapply H4; [|done|done]. lia.
  - intros ref Href. simpl in *. rewrite lookup_insert_ne by lia. apply H5. lia.
  - lia.
Qed.

Lemma activate_other_keeps id v st :
  id ≠ Ctx → CInv st → Kept st (after (Kernel.activate id v) st).
Proof.
  intros Hne [H1 H2 H3 H4 H5 H6].
  pose proof (contextOf_activate_ne id v st Hne) as Hi.
  split; [|split; [done|by rewrite Hi]].
  split; rewrite ?Hi; try done.
  destruct H1 as (b & Hl & Hb). exists b. split; [|done].
  by rewrite lookup_activate_ne.
Qed.

Lemma activate_context_keeps b ref st :
  Kernel.lookup Ctx (kernel st) = [b] → isContextBinding b →
  contextOf st = None → CInv st → n0 ≤ ref < next_ref st →
  heap st !! ref = Some (ContextObject ScopeContext.empty) →
  Kept st (after (Kernel.activate Ctx (VObject ref)) st) ∧
  contextOf (after (Kernel.activate Ctx (VObject ref)) st) = Some (VObject ref).
Proof.
  intros Hl (Hid & Himpl & Hs) Hnone [H1 H2 H3 H4 H5 H6] Href Hheap.
  assert (Hi : contextOf (after (Kernel.activate Ctx (VObject ref)) st)
               = Some (VObject ref)).
  { unfold contextOf. rewrite (lookup_activate_eq _ _ _ _ Hl).
    unfold Kernel.cached. simpl. by rewrite Hs. }
  split; [|done]. split; [|split; [done|congruence]].
  split; rewrite ?Hi.
  - eexists. split; [by apply lookup_activate_eq|]. done.
  - intros v [= <-]. exists ref. rewrite (H3 Hnone). done.
  - done.
  - intros r c args j Hn0 Hh Hj. simpl in Hh.
    destruct (H4 _ _ _ _ Hn0 Hh Hj) as (v & _ & Hv). congruence.
  - done.
  - done.
Qed.

Lemma get_keeps depth : keeps (Kernel.get paramTypes depth).
Proof.
  induction depth as [|d IH]; intros id st v st' HI H; [by inversion H|].
  rewrite get_S in H.
  destruct (Kernel.lookup id (kernel st)) as [|b [|b' l]] eqn:Hl;
    [by inversion H| |by inversion H].
  unfold Kernel.resolveBinding in H.
  destruct (Kernel.cached b) as [v0|] eqn:Hc.
  { inversion H; subst. split; [by apply Kept_refl|].
    intros ->. unfold contextOf. by rewrite Hl. }
  apply bind_inv in H as [(v1 & st1 & Hinst & H)|(e & _ & [=])].
  apply bind_inv in H as [([] & st2 & Hact & H)|(e & _ & [=])].
  inversion H; subst; clear H.
  assert (Kept st st1 ∧
          (id = Ctx → contextOf st1 = None ∧
                      ∃ ref, v = VObject ref ∧ n0 ≤ ref < next_ref st1 ∧
                             heap st1 !! ref = Some (ContextObject ScopeContext.empty)))
    as (HD1 & Hkey).
  { unfold Kernel.instantiate in Hinst.
    destruct (implementation b) as [c|c|r] eqn:Himpl.
    - apply bind_inv in Hinst as [(args & sa & Hargs & Hcon)|(e & _ & [=])].
      destruct (mapM_keeps _ _ IH _ _ _ HI Hargs) as [HDa Hslots].
      destruct (construct_keeps _ _ _ _ _ (proj1 HDa) Hslots Hcon)
        as (HDc & -> & Hk & Hn & Hobj).
      split; [by eapply Kept_trans|].
      intros ->. pose proof HI as [(b0 & Hl0 & (_ & Hb0 & _)) _ _ _ _ Hnx].
      rewrite Hl in Hl0. inversion Hl0; subst b0. rewrite Himpl in Hb0.
      inversion Hb0; subst c.
      assert (args = [] ∧ sa = st) as [-> ->].
      { unfold Kernel.constructorParameters in Hargs.
        rewrite decide_True in Hargs by done. simpl in Hargs. by inversion Hargs. }
      split.
      + rewrite (contextOf_kernel _ _ Hk). unfold contextOf. by rewrite Hl.
      + exists (next_ref st). split; [done|]. split; [|by apply Hobj].
        lia.
    - inversion Hinst; subst. split; [by apply Kept_refl|].
      intros ->. destruct HI as [(b0 & Hl0 & (_ & Hb0 & _)) _ _ _ _ _].
      rewrite Hl in Hl0. inversion Hl0; subst b0. congruence.
    - apply scopeResourceValue_inv in Hinst
        as [(e & _ & [=])|(instance & sa & Hk & Hrest)].
      destruct (IH _ _ _ _ HI Hk) as [HDa Hra].
      assert (Kept sa st1) as HDb.
      { destruct Hrest as [(_ & [= ->] & ->)|(_ & r0 & Hacq & Hr0)].
        - apply Kept_refl, HDa.
        - destruct r0 as [[]|e]; [|done].
          apply acquire_Ok in Hacq as (Hkk & Hh & Hn & dd & Ht).
          eapply Kept_quiet; try done. apply HDa. }
      split; [by eapply Kept_trans|].
      intros ->. destruct HI as [(b0 & Hl0 & (_ & Hb0 & _)) _ _ _ _ _].
      rewrite Hl in Hl0. inversion Hl0; subst b0. congruence. }
  destruct (bindingScope b) eqn:Hs.
  { inversion Hact; subst. split; [done|]. intros ->.
    destruct HI as [(b0 & Hl0 & (_ & _ & Hb0)) _ _ _ _ _].
    rewrite Hl in Hl0. inversion Hl0; subst b0. congruence. }
  assert (st' = after (Kernel.activate id v) st1) as ->
    by (unfold after; by rewrite Hact).
  destruct (decide (id = Ctx)) as [->|Hne].
  - destruct (Hkey eq_refl) as (Hnone & ref & -> & Href & Hheap).
    destruct HD1 as (HI1 & Hn1 & Hk1).
    pose proof HI1 as [(b1 & Hl1 & Hb1) _ _ _ _ _].
    destruct (activate_context_keeps b1 ref st1 Hl1 Hb1 Hnone HI1 Href Hheap)
      as [HD2 Hi2].
    split; [|done]. eapply Kept_trans; [|exact HD2]. by split.
  - pose proof (activate_other_keeps id v st1 Hne (proj1 HD1)) as HD2.
    split; [by eapply Kept_trans|]. done.
Qed.

End Context.

Lemma callable_insert name val fields :
  name ≠ "hasOwnProperty" →
  ScopeContext.callable fields = true →
  ScopeContext.callable {| context := <[name := val]> (context fields);
                           contextPrototype := contextPrototype fields |} = true.
Proof.
  intros Hne [H1 H2]%callable_spec. apply callable_spec. simpl.
  by rewrite lookup_insert_ne.
Qed.

(** The loop of [bindScopeContext] over names that are all different, not
    set yet and none of them [__proto__] or [hasOwnProperty]: every entry
    becomes an own property of [context]. *)
Lemma forEach_setOnce_plain self : ∀ es st F0,
  heap st !! self = Some (ContextObject F0) →
  ScopeContext.callable F0 = true →
  NoDup es.*1 → (∀ k, k ∈ es.*1 → context F0 !! k = None) →
  "__proto__" ∉ es.*1 → "hasOwnProperty" ∉ es.*1 →
  forEach (λ entry, Scope.invokeSetOnce (VObject self) entry.1 entry.2) es st =
    (Ok tt,
     set_heap (<[self := ContextObject {| context := list_to_map es ∪ context F0;
                                          contextPrototype := contextPrototype F0 |}]>
                 (heap st)) st).
Proof.
  induction es as [|[n v] es IH]; intros st F0 Hh Hc Hnd Hnone Hproto Hown.
  - simpl. rewrite (left_id_L ∅ (∪)). unfold ret. f_equal.
    destruct st as [s k h nr tr], F0 as [C P]. unfold set_heap. simpl in *.
    by rewrite insert_id.
  - rewrite forEach_cons. rewrite fmap_cons in Hnd, Hnone, Hproto, Hown.
    apply NoDup_cons in Hnd as [Hn Hnd].
    apply not_elem_of_cons in Hproto as [Hn1 Hproto].
    apply not_elem_of_cons in Hown as [Hn2 Hown]. simpl in *.
    erewrite bind_Ok; cycle 1.
    { eapply invokeSetOnce_unset; [done|done|]. apply Hnone. left. }
    rewrite assign_key by done.
    erewrite IH; [|simpl; apply lookup_insert_eq|by apply callable_insert|done| |done|done].
    + simpl. unfold set_heap. simpl. rewrite insert_insert_eq. do 5 f_equal.
      rewrite <- insert_union_l.
      rewrite <- insert_union_r; [done|].
      by apply not_elem_of_list_to_map_1.
    + intros k Hk. simpl. rewrite lookup_insert_ne by (intros ->; done).
      apply Hnone. by right.
Qed.

Lemma overlay_not_context (resources : list ScopeResource) :
  (∀ resource, resource ∈ resources → constructor resource ≠ ScopeContext.class) →
  filter (λ b, serviceIdentifier b = IdClass ScopeContext.class)
         (flat_map (λ resource,
            [Kernel.newBinding (instanceBindName (class_name (constructor resource)))
                               (ToClass (constructor resource)) SingletonScope;
             Kernel.newBinding (IdClass (constructor resource))
                               (ToDynamicValue resource) TransientScope]) resources) = [].
Proof.
  induction resources as [|r resources IH]; intros H; [done|].
  simpl flat_map. rewrite !filter_cons.
  unfold Kernel.newBinding at 1 2. simpl serviceIdentifier.
  rewrite decide_False by done.
  rewrite decide_False.
  - apply IH. intros ? ?. apply H. by right.
  - intros [= Heq]. by apply (H r); [left|].
Qed.

Lemma lookup_bind_fresh id impl sc B S :
  Kernel.lookup id {| bindings := B; snapshots := S |} = [] →
  Kernel.lookup id {| bindings := B ++ [Kernel.newBinding id impl sc]; snapshots := S |}
    = [Kernel.newBinding id impl sc].
Proof.
  intros H. rewrite lookup_snoc, H. unfold Kernel.newBinding at 1.
  simpl serviceIdentifier. by case_decide.
Qed.

(** The fields of the scope context of a scope with plain context
    data. *)
Local Abbreviation populated data :=
  {| context := list_to_map (default [] (ownEntries <$> data));
     contextPrototype := ObjectPrototype |}.

Lemma plainData_entries data :
  plainData data →
  forEachEntries data = ownEntries data ∧
  ("__proto__" ∉ (ownEntries data).*1) ∧ ("hasOwnProperty" ∉ (ownEntries data).*1).
Proof.
  intros (Hlen & Hproto & Hown). split; [by apply forEachEntries_object|].
  by rewrite fst_ownEntries, !elem_of_ownKeys.
Qed.

Lemma populated_callable data :
  (∀ d, data = Some d → plainData d) →
  ScopeContext.callable (populated data) = true.
Proof.
  intros Hplain. apply callable_spec. split; [|done]. simpl.
  destruct data as [d|]; simpl; [|apply lookup_empty].
  apply not_elem_of_list_to_map.
  by destruct (plainData_entries d (Hplain d eq_refl)) as (_ & _ & ?).
Qed.

Lemma populated_lookup data name :
  context (populated data) !! name = data ≫= ownProperty name.
Proof.
  destruct data as [d|]; simpl; [apply lookup_ownEntries|apply lookup_empty].
Qed.

Lemma bindScopeContext_ContextInv paramTypes depth st sb :
  heapAllocated st →
  Kernel.isBound (IdClass ScopeContext.class) (kernel st) = false →
  (∀ data, objToBindScopeContext (this st) = Some data → plainData data) →
  Scope.bindScopeContext paramTypes depth st = (Ok tt, sb) →
  ContextInv paramTypes (populated (objToBindScopeContext (this st))) (next_ref st) sb.
Proof.
  intros Halloc Hb Hplain H.
  assert (Hl0 : Kernel.lookup (IdClass ScopeContext.class) (kernel st) = []).
  { apply bool_decide_eq_false in Hb.
    destruct (Kernel.lookup _ _); [done|]. by destruct Hb. }
  unfold Scope.bindScopeContext in H.
  apply bind_inv in H as [([] & s1 & H1 & H2)|(e & _ & [=])].
  unfold Kernel.bind in H1. inversion H1; subst s1. clear H1. simpl this in H2.
  set (nb := Kernel.newBinding (IdClass ScopeContext.class)
               (ToClass ScopeContext.class) SingletonScope) in *.
  assert (Hl1 : Kernel.lookup (IdClass ScopeContext.class)
                  {| bindings := bindings (kernel st) ++ [nb];
                     snapshots := snapshots (kernel st) |} = [nb]).
  { apply lookup_bind_fresh. by destruct (kernel st). }
  destruct (objToBindScopeContext (this st)) as [data|] eqn:Hdata.
  - destruct (plainData_entries data (Hplain data eq_refl)) as (Hentries & Hproto & Hown).
    rewrite Hentries in H2.
    apply bind_inv in H2 as [(v & s2 & Hget & Hfor)|(e & _ & [=])].
    destruct depth as [|d]; [done|].
    set (s1 := set_kernel {| bindings := bindings (kernel st) ++ [nb];
                             snapshots := snapshots (kernel st) |} st) in *.
    erewrite get_ScopeContext_fresh in Hget; [|reflexivity|].
    2:{ destruct (kernel st) as [B S]. exact Hl0. }
    inversion Hget; subst v s2. clear Hget.
    set (s2 := after (alloc (ContextObject ScopeContext.empty)) s1) in *.
    erewrite (forEach_setOnce_plain _ _ _ ScopeContext.empty) in Hfor;
      [|apply (lookup_insert_eq (heap s1))|done
       |rewrite fst_ownEntries; apply NoDup_ownKeys
       |intros k _; apply lookup_empty|done|done].
    inversion Hfor; subst sb. clear Hfor.
    change (next_ref s1) with (next_ref st) in *.
    set (sb := set_heap _ _).
    assert (Hl2 : Kernel.lookup (IdClass ScopeContext.class) (kernel sb) =
                  [{| serviceIdentifier := serviceIdentifier nb;
                      implementation := implementation nb;
                      bindingScope := bindingScope nb;
                      cache := Some (VObject (next_ref st)) |}]).
    { apply (lookup_activate_eq _ _ s2 nb). exact Hl1. }
    assert (Hc : contextOf sb = Some (VObject (next_ref st))).
    { unfold contextOf. by rewrite Hl2. }
    assert (Hheap' : heap sb =
              <[next_ref st := ContextObject (populated (Some data))]> (heap st)).
    { simpl. by rewrite (right_id_L ∅ (∪)), insert_insert_eq. }
    assert (Hnx' : next_ref sb = S (next_ref st)) by done.
    split; rewrite ?Hc.
    + eexists. split; [exact Hl2|done].
    + intros v [= <-]. exists (next_ref st). split; [done|]. split; [lia|].
      rewrite Hheap'. apply lookup_insert_eq.
    + done.
    + intros ref c args j Href Hh. assert (ref = next_ref st) as -> by lia.
      rewrite Hheap', lookup_insert_eq in Hh. done.
    + intros ref Href. rewrite Hheap', lookup_insert_ne by lia. apply Halloc. lia.
    + lia.
  - inversion H2; subst sb. clear H2.
    assert (Hc : contextOf (set_kernel {| bindings := bindings (kernel st) ++ [nb];
                                          snapshots := snapshots (kernel st) |} st) = None).
    { unfold contextOf. simpl. by rewrite Hl1. }
    split; simpl; rewrite ?Hc.
    + exists nb. split; [exact Hl1|done].
    + done.
    + done.
    + intros ref c args j Href. lia.
    + exact Halloc.
    + lia.
Qed.



(** ** ObjectFactory (object-factory.ts) *)
Section ObjectFactoryFacts.

Context {W : Type}.
Implicit Types (Class : ObjectFactory.WrapperClass W) (f : ObjectFactory.Factory W).

Lemma get_stored Class f instance :
  ObjectFactory.models f !! ObjectFactory.wrapper_name Class = Some instance →
  ObjectFactory.get Class f = (ObjectFactory.Object instance, f).
Proof. intros H. unfold ObjectFactory.get. by rewrite H. Qed.

Lemma get_inherited Class f :
  ObjectFactory.models f !! ObjectFactory.wrapper_name Class = None →
  inherited (ObjectFactory.wrapper_name Class) = true →
  ObjectFactory.get Class f = (Ok None, f).
Proof. intros H Hi. unfold ObjectFactory.get. by rewrite H, Hi. Qed.

(** What a [get] that finds no wrapper leaves behind. *)
Lemma get_new Class f r f' :
  ObjectFactory.models f !! ObjectFactory.wrapper_name Class = None →
  inherited (ObjectFactory.wrapper_name Class) = false →
  ObjectFactory.get Class f = (r, f') →
  (∃ e, ObjectFactory.wrapper_new Class = Throw e ∧ r = Throw e ∧
        ObjectFactory.models f' = ObjectFactory.models f ∧
        ObjectFactory.calls f' =
          ObjectFactory.calls f ++
            [ObjectFactory.CallNew (ObjectFactory.wrapper_name Class)]) ∨
  (∃ w0 w τ,
     ObjectFactory.wrapper_new Class = Ok w0 ∧
     ObjectFactory.models f' =
       <[ObjectFactory.wrapper_name Class :=
           {| ObjectFactory.wrapper_class := Class;
              ObjectFactory.wrapper_fields := w |}]> (ObjectFactory.models f) ∧
     ObjectFactory.calls f' =
       ObjectFactory.calls f ++
         ObjectFactory.CallNew (ObjectFactory.wrapper_name Class) ::
         ObjectFactory.CallInitialize (ObjectFactory.wrapper_name Class) :: τ ∧
     (τ = [] ∨ τ = [ObjectFactory.CallOnInitialized (ObjectFactory.wrapper_name Class)]) ∧
     (∀ v, r = Ok v → ObjectFactory.wrapper_Object Class w = Ok v)).
Proof.
  intros Hnone Hi. unfold ObjectFactory.get. rewrite Hnone, Hi.
  destruct (ObjectFactory.wrapper_new Class) as [w0|e] eqn:Hnew.
  - destruct (ObjectFactory.wrapper_initialize Class w0) as [[[]|e1] w1] eqn:Hinit.
    + destruct (ObjectFactory.wrapper_onInitialized Class w1) as [[[]|e2] w2] eqn:Hon;
        intros [= <- <-]; right; exists w0, w2, [ObjectFactory.CallOnInitialized
                                                   (ObjectFactory.wrapper_name Class)];
        simpl; rewrite !insert_insert_eq, <- !app_assoc; simpl;
        (repeat split; [by right|]); intros v; done.
    + intros [= <- <-]. right. exists w0, w1, []. simpl.
      rewrite !insert_insert_eq, <- !app_assoc. simpl.
      repeat split; [by left|]. intros v [=].
  - intros [= <- <-]. left. exists e. done.
Qed.

(** X11.  [ObjectFactory.get] makes a wrapper once per class name: after a
    [get] that returned, every later [get] for a class of that name, the
    same class or another one, returns the same object and changes
    nothing; in particular it calls no constructor, [initialize] or
    [onInitialized]. *)
Theorem X11_ObjectFactory_get_memoised Class Class' f v f' :
  ObjectFactory.get Class f = (Ok v, f') →
  ObjectFactory.wrapper_name Class' = ObjectFactory.wrapper_name Class →
  ObjectFactory.get Class' f' = (Ok v, f').
Proof.
  intros Hget Hname.
  destruct (ObjectFactory.models f !! ObjectFactory.wrapper_name Class)
    as [instance|] eqn:Hm.
  { rewrite (get_stored _ _ _ Hm) in Hget. inversion Hget as [[Hv Hf]]. subst f'.
    rewrite Hv. rewrite <- Hname in Hm. by rewrite (get_stored _ _ _ Hm). }
  destruct (inherited (ObjectFactory.wrapper_name Class)) eqn:Hi.
  { rewrite (get_inherited _ _ Hm Hi) in Hget. inversion Hget; subst.
    apply get_inherited; by rewrite Hname. }
  destruct (get_new _ _ _ _ Hm Hi Hget)
    as [(e & _ & [=] & _)|(w0 & w & τ & _ & Hmod & _ & _ & Hv)].
  rewrite <- (Hv v eq_refl).
  apply (get_stored Class' f' {| ObjectFactory.wrapper_class := Class;
                                 ObjectFactory.wrapper_fields := w |}).
  rewrite Hname, Hmod. apply lookup_insert_eq.
Qed.

(** X12.  [ObjectFactory.get] stores the wrapper before it initializes it.
    When [get] throws, then either the constructor of the class threw and
    nothing was stored, or the factory holds a wrapper of that name
    afterwards: the one it held before, whose getter [Object] threw, with
    nothing changed, or one made in this call, on which [initialize] was
    called, once.  Every later [get] for a class of that name then
    evaluates the getter [Object] of that wrapper, returns or throws as the
    getter does, and changes nothing: the wrapper is not made or
    initialized again. *)
Theorem X12_ObjectFactory_failed_get_is_kept Class f e f' :
  ObjectFactory.get Class f = (Throw e, f') →
  (ObjectFactory.wrapper_new Class = Throw e ∧
   ObjectFactory.models f !! ObjectFactory.wrapper_name Class = None ∧
   ObjectFactory.models f' = ObjectFactory.models f) ∨
  (∃ instance,
     ObjectFactory.models f' !! ObjectFactory.wrapper_name Class = Some instance ∧
     ((ObjectFactory.models f !! ObjectFactory.wrapper_name Class = Some instance ∧
       ObjectFactory.Object instance = Throw e ∧ f' = f) ∨
      (ObjectFactory.models f !! ObjectFactory.wrapper_name Class = None ∧
       ObjectFactory.timesCalled
         (ObjectFactory.CallInitialize (ObjectFactory.wrapper_name Class)) f' =
       S (ObjectFactory.timesCalled
            (ObjectFactory.CallInitialize (ObjectFactory.wrapper_name Class)) f))) ∧
     ∀ Class',
       ObjectFactory.wrapper_name Class' = ObjectFactory.wrapper_name Class →
       ObjectFactory.get Class' f' = (ObjectFactory.Object instance, f')).
Proof.
  intros Hget.
  destruct (ObjectFactory.models f !! ObjectFactory.wrapper_name Class)
    as [instance|] eqn:Hm.
  { rewrite (get_stored _ _ _ Hm) in Hget. inversion Hget as [[He Hf]]. subst f'.
    right. exists instance. split; [done|]. split; [by left|].
    intros Class' Hname. apply get_stored. by rewrite Hname. }
  destruct (inherited (ObjectFactory.wrapper_name Class)) eqn:Hi.
  { by rewrite (get_inherited _ _ Hm Hi) in Hget. }
  destruct (get_new _ _ _ _ Hm Hi Hget)
    as [(e' & Hnew & [= ->] & Hmod & _)|(w0 & w & τ & _ & Hmod & Hcalls & Hτ & _)].
  - by left.
  - right. eexists. split; [rewrite Hmod; apply lookup_insert_eq|].
    split.
    + right. split; [done|].
      unfold ObjectFactory.timesCalled. rewrite Hcalls, filter_app, length_app.
      rewrite filter_cons, decide_False by done.
      rewrite filter_cons, decide_True by done. simpl.
      destruct Hτ as [-> | ->]; [simpl; lia|].
      rewrite filter_cons, decide_False by done. simpl. lia.
    + intros Class' Hname. apply get_stored. rewrite Hname, Hmod.
      apply lookup_insert_eq.
Qed.

(** What every sequence of [get] calls keeps: a name without a wrapper was
    never initialized, and no name was initialized twice. *)
Local Abbreviation Once f :=
  (∀ name,
     (ObjectFactory.models f !! name = None →
      ObjectFactory.timesCalled (ObjectFactory.CallInitialize name) f = 0 ∧
      ObjectFactory.timesCalled (ObjectFactory.CallOnInitialized name) f = 0) ∧
     ObjectFactory.timesCalled (ObjectFactory.CallInitialize name) f ≤ 1 ∧
     ObjectFactory.timesCalled (ObjectFactory.CallOnInitialized name) f ≤ 1).

Lemma timesCalled_calls call f f' τ :
  ObjectFactory.calls f' = ObjectFactory.calls f ++ τ →
  ObjectFactory.timesCalled call f' =
    ObjectFactory.timesCalled call f + length (filter (λ x, x = call) τ).
Proof.
  intros H. unfold ObjectFactory.timesCalled. by rewrite H, filter_app, length_app.
Qed.

Lemma get_Once Class f : Once f → Once (ObjectFactory.get Class f).2.
Proof.
  intros HI.
  destruct (ObjectFactory.get Class f) as [r f'] eqn:Hget. simpl.
  destruct (ObjectFactory.models f !! ObjectFactory.wrapper_name Class)
    as [instance|] eqn:Hm.
  { rewrite (get_stored _ _ _ Hm) in Hget. by inversion Hget; subst. }
  destruct (inherited (ObjectFactory.wrapper_name Class)) eqn:Hin.
  { rewrite (get_inherited _ _ Hm Hin) in Hget. by inversion Hget; subst. }
  destruct (get_new _ _ _ _ Hm Hin Hget)
    as [(e' & _ & _ & Hmod & Hcalls)|(w0 & w & τ & _ & Hmod & Hcalls & Hτ & _)].
  - intros name. rewrite Hmod.
    rewrite !(timesCalled_calls _ _ _ _ Hcalls).
    rewrite !filter_cons, !decide_False by done. simpl. rewrite !Nat.add_0_r.
    apply HI.
  - intros name. rewrite Hmod.
    rewrite !(timesCalled_calls _ _ _ _ Hcalls).
    destruct (HI name) as (Hnone & Hi & Ho).
    destruct (decide (name = ObjectFactory.wrapper_name Class)) as [->|Hne].
    + destruct (Hnone Hm) as [-> ->]. rewrite lookup_insert_eq.
      split; [done|].
      destruct Hτ as [-> | ->]; rewrite !filter_cons, ?filter_nil;
        repeat case_decide; simplify_eq; simpl; lia.
    + rewrite lookup_insert_ne by done.
      destruct Hτ as [-> | ->]; rewrite !filter_cons, ?filter_nil;
        repeat case_decide; simplify_eq; simpl; rewrite ?Nat.add_0_r; done.
Qed.

Lemma getAll_Once classes : ∀ f, Once f → Once (ObjectFactory.getAll classes f).
Proof.
  induction classes as [|Class classes IH]; intros f HI; [done|].
  simpl. apply IH. by apply get_Once.
Qed.

(** X13.  Over any sequence of [ObjectFactory.get] calls on a factory that
    starts empty, whether they return or throw, [initialize] and
    [onInitialized] are each called at most once for a class name, and not
    at all for a name the factory holds no wrapper of. *)
Theorem X13_ObjectFactory_initializes_once (classes : list (ObjectFactory.WrapperClass W))
    name :
  ObjectFactory.timesCalled (ObjectFactory.CallInitialize name)
    (ObjectFactory.getAll classes ObjectFactory.empty) ≤ 1 ∧
  ObjectFactory.timesCalled (ObjectFactory.CallOnInitialized name)
    (ObjectFactory.getAll classes ObjectFactory.empty) ≤ 1 ∧
  (ObjectFactory.models (ObjectFactory.getAll classes ObjectFactory.empty) !! name = None →
   ObjectFactory.timesCalled (ObjectFactory.CallInitialize name)
     (ObjectFactory.getAll classes ObjectFactory.empty) = 0).
Proof.
  assert (Once (ObjectFactory.empty (W:=W))) as H0.
  { intros n. unfold ObjectFactory.timesCalled. simpl. split; [done|lia]. }
  destruct (getAll_Once classes _ H0 name) as (Hnone & Hi & Ho).
  split; [done|]. split; [done|]. intros Hm. by apply Hnone.
Qed.

End ObjectFactoryFacts.

Lemma X11_ObjectFactory_get_memoised_witness :
  let first := ObjectFactory.get (FixtureWrappers.FooWrapper (VObject 1))
                 ObjectFactory.empty in
  first.1 = Ok (Some (VObject 1)) ∧
  ObjectFactory.wrapper_name (FixtureWrappers.FooWrapper (VObject 2)) =
    ObjectFactory.wrapper_name (FixtureWrappers.FooWrapper (VObject 1)) ∧
  ObjectFactory.get (FixtureWrappers.FooWrapper (VObject 2)) first.2 =
    (Ok (Some (VObject 1)), first.2).
Proof.
  intros first. split; [reflexivity|]. split; [reflexivity|].
  apply (X11_ObjectFactory_get_memoised (FixtureWrappers.FooWrapper (VObject 1))
           (FixtureWrappers.FooWrapper (VObject 2)) ObjectFactory.empty);
    reflexivity.
Defined.

Lemma X12_ObjectFactory_failed_get_is_kept_witness :
  let f := ObjectFactory.empty (W:=option Value) in
  let failed := ObjectFactory.get FixtureWrappers.Guarded f in
  let name := ObjectFactory.wrapper_name FixtureWrappers.Guarded in
  failed.1 = Throw (Error "not ready") ∧
  ((ObjectFactory.wrapper_new FixtureWrappers.Guarded = Throw (Error "not ready") ∧
    ObjectFactory.models f !! name = None ∧
    ObjectFactory.models failed.2 = ObjectFactory.models f) ∨
   (∃ instance,
      ObjectFactory.models failed.2 !! name = Some instance ∧
      ((ObjectFactory.models f !! name = Some instance ∧
        ObjectFactory.Object instance = Throw (Error "not ready") ∧ failed.2 = f) ∨
       (ObjectFactory.models f !! name = None ∧
        ObjectFactory.timesCalled (ObjectFactory.CallInitialize name) failed.2 =
        S (ObjectFactory.timesCalled (ObjectFactory.CallInitialize name) f))) ∧
      ∀ Class',
        ObjectFactory.wrapper_name Class' = name →
        ObjectFactory.get Class' failed.2 = (ObjectFactory.Object instance, failed.2))).
Proof.
  intros f failed name. split; [reflexivity|].
  apply (X12_ObjectFactory_failed_get_is_kept FixtureWrappers.Guarded f
           (Error "not ready") failed.2).
  reflexivity.
Defined.

Example Unready_stays_unready :
  let failed := ObjectFactory.get FixtureWrappers.Unready ObjectFactory.empty in
  ObjectFactory.get FixtureWrappers.Unready failed.2 = (Ok None, failed.2) ∧
  ObjectFactory.calls failed.2 =
    [ObjectFactory.CallNew "Unready"; ObjectFactory.CallInitialize "Unready"].
Proof. split; reflexivity. Qed.

Example Guarded_throws_again :
  let failed := ObjectFactory.get FixtureWrappers.Guarded ObjectFactory.empty in
  failed.1 = Throw (Error "not ready") ∧
  ObjectFactory.get FixtureWrappers.Guarded failed.2 =
    (Throw (Error "not initialized"), failed.2) ∧
  ObjectFactory.calls failed.2 =
    [ObjectFactory.CallNew "Guarded"; ObjectFactory.CallInitialize "Guarded"].
Proof. repeat split; reflexivity. Qed.

Example wrapper_named_toString (foo : Value) :
  ObjectFactory.get (FixtureWrappers.toString foo) ObjectFactory.empty =
    (Ok None, ObjectFactory.empty).
Proof. reflexivity. Qed.

(** ** Decorators (di.ts, Di.inject and Di.scope) *)
Lemma assign_length index x args :
  length (Di.assign index x args) = length args `max` S index.
Proof.
  unfold Di.assign. case_decide.
  - rewrite length_insert. lia.
  - rewrite !length_app, length_replicate. simpl. lia.
Qed.

Lemma assign_lookup index x args n :
  Di.assign index x args !! n =
    if decide (n = index) then Some x
    else if decide (n < length args) then args !! n
    else if decide (n < index) then Some None else None.
Proof.
  unfold Di.assign. destruct (decide (index < length args)) as [Hlt|Hge].
  - destruct (decide (n = index)) as [->|Hne].
    + by apply list_lookup_insert_eq.
    + rewrite list_lookup_insert_ne by done.
      destruct (decide (n < length args)); [done|].
      rewrite lookup_ge_None_2 by lia. case_decide; [lia|done].
  - destruct (decide (n < length args)) as [Hn|Hn].
    + rewrite decide_False by lia. by rewrite lookup_app_l.
    + rewrite lookup_app_r by lia.
      destruct (decide (n = index)) as [->|Hne].
      * rewrite lookup_app_r by (rewrite length_replicate; lia).
        rewrite length_replicate. by rewrite Nat.sub_diag.
      * destruct (decide (n < index)) as [Hi|Hi].
        -- rewrite lookup_app_l by (rewrite length_replicate; lia).
           apply lookup_replicate_2. lia.
        -- apply lookup_ge_None_2. rewrite length_app, length_replicate. simpl. lia.
Qed.

Lemma overrideParameters_length tags : ∀ i injected args,
  length (Di.overrideParameters i tags injected args) =
    length args `max` max_list ((λ tag, S (Di.tag_index tag)) <$> tags).
Proof.
  induction tags as [|tag tags IH]; intros i injected args.
  - simpl. lia.
  - simpl Di.overrideParameters. rewrite IH, assign_length, fmap_cons.
    simpl max_list. lia.
Qed.

Lemma overrideParameters_other tags : ∀ i injected args n,
  n ∉ Di.tag_index <$> tags →
  Di.overrideParameters i tags injected args !! n =
    if decide (n < length args) then args !! n
    else if decide (n < length (Di.overrideParameters i tags injected args))
         then Some None else None.
Proof.
  induction tags as [|tag tags IH]; intros i injected args n Hn; simpl.
  - case_decide; [done|]. by apply lookup_ge_None_2; lia.
  - rewrite fmap_cons, not_elem_of_cons in Hn. destruct Hn as [Hne Hn].
    rewrite (IH _ _ _ _ Hn), assign_lookup, assign_length.
    rewrite (decide_False (P := n = Di.tag_index tag)) by done.
    rewrite !overrideParameters_length, assign_length.
    repeat case_decide; try done; try lia.
Qed.

Lemma overrideParameters_last tags : ∀ i injected args k tag,
  tags !! k = Some tag →
  (∀ k' tag', k < k' → tags !! k' = Some tag' →
              Di.tag_index tag' ≠ Di.tag_index tag) →
  Di.overrideParameters i tags injected args !! Di.tag_index tag =
    Some (injected !! (i + k)).
Proof.
  induction tags as [|t tags IH]; intros i injected args k tag Hk Hlast; [done|].
  destruct k as [|k]; simpl in *.
  - inversion Hk; subst t.
    assert (Hnotin : Di.tag_index tag ∉ Di.tag_index <$> tags).
    { intros Hin. apply list_elem_of_fmap in Hin as (tag' & Heq & Hin).
      apply list_elem_of_lookup in Hin as [k' Hk'].
      apply (Hlast (S k') tag'); [lia|done|done]. }
    rewrite (overrideParameters_other _ _ _ _ _ Hnotin).
    rewrite assign_length, assign_lookup.
    rewrite (decide_True (P := Di.tag_index tag = Di.tag_index tag)) by done.
    rewrite decide_True by lia. by rewrite Nat.add_0_r.
  - rewrite (IH _ _ _ k tag Hk).
    + do 2 f_equal. lia.
    + intros k' tag' Hlt Hk'. apply (Hlast (S k') tag'); [lia|done].
Qed.

(** X14.  The arguments a method decorated with [scope] is called with,
    made from the arguments [args] of the call: they are as many as the
    call gave, or as many as the largest tagged index needs; the parameter
    at the index of a tag is the object injected for the tag, whatever the
    call passed there (for two tags of one index, the one of the later
    tag); every other parameter is as the call passed it, and [undefined]
    past the end of [args]. *)
Theorem X14_overridden_parameters tags injected args :
  let args' := Di.overrideParameters 0 tags injected args in
  length args' = length args `max` max_list ((λ tag, S (Di.tag_index tag)) <$> tags) ∧
  (∀ k tag, tags !! k = Some tag →
     (∀ k' tag', k < k' → tags !! k' = Some tag' →
                 Di.tag_index tag' ≠ Di.tag_index tag) →
     args' !! Di.tag_index tag = Some (injected !! k)) ∧
  (∀ n, n ∉ Di.tag_index <$> tags → n < length args → args' !! n = args !! n) ∧
  (∀ n, n ∉ Di.tag_index <$> tags → length args ≤ n < length args' →
        args' !! n = Some None).
Proof.
  intros args'. split; [apply overrideParameters_length|]. split; [|split].
  - intros k tag Hk Hlast. unfold args'.
    by rewrite (overrideParameters_last _ _ _ _ k tag Hk Hlast).
  - intros n Hn Hlt. unfold args'. rewrite (overrideParameters_other _ _ _ _ _ Hn).
    by rewrite decide_True.
  - intros n Hn [Hge Hlt]. unfold args'. rewrite (overrideParameters_other _ _ _ _ _ Hn).
    rewrite decide_False by lia. by rewrite decide_True.
Qed.

Lemma tagIdentifiers_Some tags ids :
  Di.tagIdentifiers tags = Some ids → Di.tag_id <$> tags = Some <$> ids.
Proof.
  revert ids. induction tags as [|tag tags IH]; intros ids H; simpl in H.
  - by inversion H.
  - destruct (Di.tag_id tag) as [id|] eqn:Hid; [|done].
    destruct (Di.tagIdentifiers tags) as [ids'|]; [|done].
    inversion H; subst. rewrite !fmap_cons, Hid. f_equal. by apply IH.
Qed.

(** X15.  A call of a method decorated with [scope], when it returns a
    promise and no acquisition is rejected: on a new scope of the container,
    after the overlay is installed, the identifiers of the injection tags
    are resolved one after the other in the order of the tags; the method
    is applied once, to the arguments of the call overridden with the
    resolved objects at the tagged indices; the promise settles as the
    method does, and the registry is as before the call. *)
Theorem X15_scope_decorator_call
    paramTypes depth container target name method md args call st p st' :
  Di.scope paramTypes depth container target name method md args = Some call →
  call st = (Ok p, st') →
  Promise.firstRejected (disposers (this st')).*2 = None →
  let injectionTags := default [] (Di.islandInjectionTags md !! (target, name)) in
  ∃ identifiers st0 injectedObjects st1,
    Di.tag_id <$> injectionTags = Some <$> identifiers ∧
    (Kernel.snapshot ;; Scope.bindScopeContext paramTypes depth ;;
     Scope.bindScopeResources)
      (enter (Scope.inject identifiers (Container.scope container)) st) = (Ok tt, st0) ∧
    resolvedInOrder paramTypes depth identifiers st0 injectedObjects st1 ∧
    length injectedObjects = length injectionTags ∧
    p = settle (method (Di.overrideParameters 0 injectionTags injectedObjects args)) ∧
    taskCalls (drop (length (trace st)) (trace st')) = [injectedObjects] ∧
    kernel st' = kernel st.
Proof.
  intros Hscope Hcall Hrej injectionTags. unfold Di.scope in Hscope.
  fold injectionTags in Hscope.
  destruct (Di.tagIdentifiers injectionTags) as [ids|] eqn:Hids; [|done].
  inversion Hscope; subst call. clear Hscope.
  set (task := λ injectedObjects,
         method (Di.overrideParameters 0 injectionTags injectedObjects args)) in *.
  set (s := enter (Scope.inject ids (Container.scope container)) st) in *.
  apply run_returns in Hcall as (objs & st1 & Hres & Hrun).
  pose proof (resolve_spec _ _ _ _ _ Hres) as (_ & _ & _ & _ & _ & HS & _).
  destruct HS as (τ & Ht & _ & Ha). apply acquisitions_calls in Ha.
  pose proof Hres as Hres'.
  apply resolve_inv in Hres as (sa & sb & st0 & Hs & Hc & Hr & Hi).
  assert (Hinj : injections (this st0) = ids).
  { apply bindScopeContext_Calm in Hc as ([] & _).
    apply bindScopeResources_Calm in Hr as ([] & _).
    inversion Hs; subst. simpl in *. congruence. }
  unfold Scope.injectScopeParameters in Hi. rewrite Hinj in Hi.
  apply mapM_get_inOrder in Hi.
  pose proof (runTask_kernel _ _ _ _ _ Hrun) as (Hk & Hthis & _).
  simpl this in Hthis. rewrite Hthis in Hrej.
  rewrite runTask_spec in Hrun. simpl this in Hrun. rewrite Hrej in Hrun.
  inversion Hrun; subst p st'. clear Hrun.
  exists ids, st0, objs, st1. split; [by apply tagIdentifiers_Some|].
  split.
  { erewrite bind_Ok by exact Hs. erewrite bind_Ok by exact Hc. exact Hr. }
  split; [done|]. split.
  { rewrite (resolvedInOrder_length _ _ _ _ _ _ Hi).
    apply tagIdentifiers_Some in Hids.
    by rewrite <- (length_fmap Some ids), <- Hids, length_fmap. }
  split; [done|]. split; [|done].
  simpl trace. rewrite Ht, <- app_assoc, drop_app_length.
  unfold taskCalls. rewrite omap_app. simpl.
  assert (Hnone : ∀ l, Forall isFactoryCall l →
            omap (λ ev, match ev with CallTask a => Some a | _ => None end) l = []).
  { intros l Hl. induction Hl as [|x l (n & i & o & ->) _ IH]; [done|]. simpl. exact IH. }
  rewrite (Hnone τ Ha). simpl. f_equal.
  unfold cleanups. induction (filter _ _) as [|d ds IH]; [done|]. simpl. exact IH.
Qed.

Lemma X15_scope_decorator_call_witness :
  let args := [Some (VPrimitive "a")] in
  let injectionTags :=
    default [] (Di.islandInjectionTags FixtureDecorators.decorated
                  !! (FixtureDecorators.prototype, "method")) in
  let call := λ st,
    Scope.run Fixture.paramTypes 10
      (λ injectedObjects,
         FixtureDecorators.method
           (Di.overrideParameters 0 injectionTags injectedObjects args))
      (enter (Scope.inject [IdClass Fixture.Bar; IdClass Fixture.Foo]
                (Container.scope Fixture.container)) st) in
  let result := call Fixture.world in
  Di.scope Fixture.paramTypes 10 Fixture.container FixtureDecorators.prototype "method"
    FixtureDecorators.method FixtureDecorators.decorated args = Some call ∧
  result.1 = Ok (Fulfilled (VObject 2)) ∧
  Promise.firstRejected (disposers (this result.2)).*2 = None ∧
  ∃ identifiers st0 injectedObjects st1,
    Di.tag_id <$> injectionTags = Some <$> identifiers ∧
    (Kernel.snapshot ;; Scope.bindScopeContext Fixture.paramTypes 10 ;;
     Scope.bindScopeResources)
      (enter (Scope.inject identifiers (Container.scope Fixture.container)) Fixture.world)
      = (Ok tt, st0) ∧
    resolvedInOrder Fixture.paramTypes 10 identifiers st0 injectedObjects st1 ∧
    length injectedObjects = length injectionTags ∧
    Fulfilled (VObject 2) =
      settle (FixtureDecorators.method
                (Di.overrideParameters 0 injectionTags injectedObjects args)) ∧
    taskCalls (drop (length (trace Fixture.world)) (trace result.2)) = [injectedObjects] ∧
    kernel result.2 = kernel Fixture.world.
Proof.
  intros args injectionTags call result.
  assert (H1 : Di.scope Fixture.paramTypes 10 Fixture.container
                 FixtureDecorators.prototype "method" FixtureDecorators.method
                 FixtureDecorators.decorated args = Some call) by reflexivity.
  assert (H2 : call Fixture.world = (Ok (Fulfilled (VObject 2)), result.2))
    by (vm_compute; reflexivity).
  assert (H3 : Promise.firstRejected (disposers (this result.2)).*2 = None)
    by (vm_compute; reflexivity).
  split; [exact H1|]. split; [vm_compute; reflexivity|]. split; [exact H3|].
  exact (X15_scope_decorator_call Fixture.paramTypes 10 Fixture.container
           FixtureDecorators.prototype "method" FixtureDecorators.method
           FixtureDecorators.decorated args call Fixture.world _ result.2 H1 H2 H3).
Defined.

Example scoped_method_arguments :
  let injectionTags :=
    default [] (Di.islandInjectionTags FixtureDecorators.decorated
                  !! (FixtureDecorators.prototype, "method")) in
  injectionTags = [{| Di.tag_index := 2; Di.tag_id := Some (IdClass Fixture.Bar) |};
                   {| Di.tag_index := 1; Di.tag_id := Some (IdClass Fixture.Foo) |}] ∧
  Di.overrideParameters 0 injectionTags [VObject 2; VObject 3] [Some (VPrimitive "a")] =
    [Some (VPrimitive "a"); Some (VObject 3); Some (VObject 2)].
Proof. split; vm_compute; reflexivity. Qed.

(** X17.  A method with one parameter decorated with [inject], for which
    the compiler emitted the declared types, and decorated with [scope]:
    the decoration succeeds, and in every call that returns a promise
    without a rejected acquisition the declared type of the parameter is
    resolved on a new scope of the container and the method is applied to
    the arguments of the call with the resolved object at the index of the
    parameter; the promise settles as the method does and the registry is
    as before the call. *)
Theorem X17_injected_parameter
    paramTypes depth container target name method md types index id args :
  Di.islandInjectionTags md !! (target, name) = None →
  Di.designParamTypes md !! (target, Some name) = Some types →
  types !! index = Some id →
  ∃ md' call,
    Di.inject target (Some name) index md = (Ok tt, md') ∧
    Di.scope paramTypes depth container target name method md' args = Some call ∧
    ∀ st p st',
      call st = (Ok p, st') →
      Promise.firstRejected (disposers (this st')).*2 = None →
      ∃ st0 v st1,
        (Kernel.snapshot ;; Scope.bindScopeContext paramTypes depth ;;
         Scope.bindScopeResources)
          (enter (Scope.inject [id] (Container.scope container)) st) = (Ok tt, st0) ∧
        Kernel.get paramTypes depth id st0 = (Ok v, st1) ∧
        p = settle (method (Di.assign index (Some v) args)) ∧
        Di.assign index (Some v) args !! index = Some (Some v) ∧
        kernel st' = kernel st.
Proof.
  intros Htags Hdesign Hindex.
  set (tag := {| Di.tag_index := index; Di.tag_id := Some id |}).
  assert (Hinject : Di.inject target (Some name) index md =
            (Ok tt, Di.injectDecoratorFactory (Some id) target (Some name) index md)).
  { unfold Di.inject, Di.getParamType. by rewrite Hdesign, Hindex. }
  assert (Hnew : Di.islandInjectionTags
                   (Di.injectDecoratorFactory (Some id) target (Some name) index md)
                   !! (target, name) = Some [tag]).
  { simpl. rewrite Htags. simpl. apply lookup_insert_eq. }
  eexists _, _. split; [exact Hinject|]. split.
  { unfold Di.scope. rewrite Hnew. reflexivity. }
  intros st p st' Hcall Hrej. simpl in Hcall.
  apply run_returns in Hcall as (objs & st1 & Hres & Hrun).
  apply resolve_inv in Hres as (sa & sb & st0 & Hs & Hc & Hr & Hi).
  assert (Hinj : injections (this st0) = [id]).
  { apply bindScopeContext_Calm in Hc as ([] & _).
    apply bindScopeResources_Calm in Hr as ([] & _).
    inversion Hs; subst. simpl in *. congruence. }
  unfold Scope.injectScopeParameters in Hi. rewrite Hinj in Hi.
  apply mapM_get_inOrder in Hi.
  inversion Hi as [|? ? ? v s1 vs s2 Hget Hnil]; subst.
  inversion Hnil; subst.
  pose proof (runTask_kernel _ _ _ _ _ Hrun) as (Hk & Hthis & _).
  simpl this in Hthis. rewrite Hthis in Hrej.
  rewrite runTask_spec in Hrun. simpl this in Hrun. rewrite Hrej in Hrun.
  inversion Hrun; subst p st'. clear Hrun.
  exists st0, v, st1. split.
  { erewrite bind_Ok by exact Hs. erewrite bind_Ok by exact Hc. exact Hr. }
  split; [exact Hget|]. split; [reflexivity|]. split; [|done].
  rewrite assign_lookup. by rewrite decide_True.
Qed.

Lemma X17_injected_parameter_witness :
  ∃ md' call,
    Di.inject FixtureDecorators.prototype (Some "method") 1 FixtureDecorators.emitted
      = (Ok tt, md') ∧
    Di.scope Fixture.paramTypes 10 Fixture.container FixtureDecorators.prototype "method"
      FixtureDecorators.method md' [Some (VPrimitive "a")] = Some call ∧
    ∀ st p st',
      call st = (Ok p, st') →
      Promise.firstRejected (disposers (this st')).*2 = None →
      ∃ st0 v st1,
        (Kernel.snapshot ;; Scope.bindScopeContext Fixture.paramTypes 10 ;;
         Scope.bindScopeResources)
          (enter (Scope.inject [IdClass Fixture.Foo] (Container.scope Fixture.container)) st)
          = (Ok tt, st0) ∧
        Kernel.get Fixture.paramTypes 10 (IdClass Fixture.Foo) st0 = (Ok v, st1) ∧
        p = settle (FixtureDecorators.method
                      (Di.assign 1 (Some v) [Some (VPrimitive "a")])) ∧
        Di.assign 1 (Some v) [Some (VPrimitive "a")] !! 1 = Some (Some v) ∧
        kernel st' = kernel st.
Proof.
  apply (X17_injected_parameter Fixture.paramTypes 10 Fixture.container
           FixtureDecorators.prototype "method" FixtureDecorators.method
           FixtureDecorators.emitted
           [IdClass FixtureDecorators.String; IdClass Fixture.Foo;
            IdClass FixtureDecorators.Object]
           1 (IdClass Fixture.Foo) [Some (VPrimitive "a")]);
    reflexivity.
Defined.

(** ** Constants in a scope (di.ts, Container.bindConstant and Scope.run) *)

(** The arguments of the unit of work are what resolution returned. *)
Lemma run_task_arguments paramTypes depth task st p st' calls args :
  Scope.run paramTypes depth task st = (Ok p, st') →
  trace st' = trace st ++ calls →
  CallTask args ∈ calls →
  ∃ st1, Scope.resolve paramTypes depth st = (Ok args, st1).
Proof.
  intros Hrun Htr Hcall.
  apply run_returns in Hrun as (objs & st1 & Hres & Hrun).
  pose proof (resolve_spec _ _ _ _ _ Hres) as (_ & _ & _ & _ & _ & HS & _).
  destruct HS as (τ & Ht & _ & Ha). apply acquisitions_calls in Ha.
  exists st1. enough (args = objs) as -> by done.
  rewrite runTask_spec in Hrun. simpl this in Hrun.
  destruct (Promise.firstRejected _); inversion Hrun; subst; simpl in Htr;
    rewrite Ht, <- app_assoc in Htr; apply app_inv_head in Htr; subst calls;
    apply elem_of_app in Hcall as [Hcall|Hcall];
    try (exfalso; by eapply task_not_factoryCall).
  - exfalso. unfold cleanups in Hcall.
    apply list_elem_of_fmap in Hcall as (? & ? & _). done.
  - apply elem_of_cons in Hcall as [Heq|Hcall]; [by inversion Heq|].
    exfalso. unfold cleanups in Hcall.
    apply list_elem_of_fmap in Hcall as (? & ? & _). done.
Qed.

Lemma bindScopeContext_lookup paramTypes depth st r st' id :
  id ≠ IdClass ScopeContext.class →
  Scope.bindScopeContext paramTypes depth st = (r, st') →
  Forall2 sameBinding (Kernel.lookup id (kernel st)) (Kernel.lookup id (kernel st')).
Proof.
  intros Hne H. unfold Scope.bindScopeContext in H.
  apply bind_inv in H as [([] & s1 & H1 & H2)|(e & H1 & _)]; [|done].
  assert (Hs1 : Kernel.lookup id (kernel s1) = Kernel.lookup id (kernel st)).
  { unfold Kernel.bind in H1. inversion H1; subst. simpl.
    destruct (kernel st) as [B S]. simpl. rewrite lookup_snoc.
    unfold Kernel.newBinding at 1. simpl serviceIdentifier.
    rewrite decide_False by done. apply app_nil_r. }
  rewrite <- Hs1.
  destruct (objToBindScopeContext (this s1)) as [data|].
  - apply bind_inv in H2 as [(v & s2 & H2 & H3)|(e & H2 & _)].
    + apply forEach_invokeSetOnce_kernel in H3. rewrite H3.
      eapply Frame_lookup, get_Frame, H2.
    + eapply Frame_lookup, get_Frame, H2.
  - inversion H2; subst. apply Forall2_sameBinding_refl.
Qed.

Lemma get_constant paramTypes depth id b v st r st' :
  Kernel.lookup id (kernel st) = [b] →
  implementation b = ToConstantValue v →
  bindingScope b = TransientScope →
  Kernel.get paramTypes depth id st = (Ok r, st') → r = v ∧ st' = st.
Proof.
  intros Hl Hi Hs H. destruct depth as [|d]; [done|].
  rewrite get_S, Hl in H. unfold Kernel.resolveBinding, Kernel.cached in H.
  rewrite Hs in H. unfold Kernel.instantiate in H. rewrite Hi in H.
  by inversion H.
Qed.

Lemma resolved_constant paramTypes depth ids st objs st' :
  resolvedInOrder paramTypes depth ids st objs st' →
  ∀ id b v i,
    Kernel.lookup id (kernel st) = [b] →
    implementation b = ToConstantValue v →
    bindingScope b = TransientScope →
    ids !! i = Some id → objs !! i = Some v.
Proof.
  induction 1 as [|x ids st y s1 ys s2 Hget Hrest IH]; intros id b v i Hl Hi Hs Hid;
    [done|].
  destruct i as [|i]; simpl in *.
  - inversion Hid; subst x.
    by destruct (get_constant _ _ _ _ _ _ _ _ Hl Hi Hs Hget) as [-> _].
  - apply get_Frame in Hget.
    destruct (Frame_lookup_unique _ _ _ _ Hget Hl) as (b' & Hl' & _ & Hi' & Hs' & _).
    eapply (IH id b' v i); [done|congruence|congruence|done].
Qed.

(** X18.  A constant is the same in every scope: when an identifier has
    the one binding [bindConstant] makes for a value, and is neither
    [ScopeContext] nor the class or the instance name of a registered
    resource, the unit of work of every run receives that value at each
    position where the identifier was declared. *)
Theorem X18_constant_in_every_scope paramTypes depth task st p st' calls id v i args :
  Kernel.lookup id (kernel st) =
    [Kernel.newBinding id (ToConstantValue v) TransientScope] →
  id ≠ IdClass ScopeContext.class →
  (∀ resource, resource ∈ scopeResources (this st) →
     id ≠ IdClass (constructor resource) ∧
     id ≠ instanceBindName (class_name (constructor resource))) →
  injections (this st) !! i = Some id →
  Scope.run paramTypes depth task st = (Ok p, st') →
  trace st' = trace st ++ calls →
  CallTask args ∈ calls →
  args !! i = Some v.
Proof.
  intros Hl Hctx Hres Hi Hrun Htr Hcall.
  destruct (run_task_arguments _ _ _ _ _ _ _ _ Hrun Htr Hcall) as (st1 & Hresolve).
  apply resolve_inv in Hresolve as (sa & sb & st0 & Hs & Hc & Hr & Hinj).
  assert (Hthis : injections (this st0) = injections (this st) ∧
                  scopeResources (this sb) = scopeResources (this st)).
  { apply bindScopeContext_Calm in Hc as ([] & _).
    apply bindScopeResources_Calm in Hr as ([] & _).
    inversion Hs; subst. simpl in *. split; congruence. }
  destruct Hthis as [Hinjs Hrs].
  pose proof (bindScopeContext_lookup _ _ _ _ _ id Hctx Hc) as Hsb.
  inversion Hs; subst sa. clear Hs.
  change (Kernel.lookup id (kernel (set_kernel _ st)))
    with (Kernel.lookup id (kernel st)) in Hsb.
  rewrite Hl in Hsb.
  apply Forall2_cons_inv_l in Hsb as (b' & l' & (_ & Hi' & Hs' & _) & Hnil & Hsb).
  apply Forall2_nil_inv_l in Hnil. subst l'.
  rewrite bindScopeResources_spec in Hr. inversion Hr; subst st0. clear Hr.
  unfold Scope.injectScopeParameters in Hinj. rewrite Hinjs in Hinj.
  apply mapM_get_inOrder in Hinj.
  eapply (resolved_constant _ _ _ _ _ _ Hinj id b' v i); [|by rewrite <- Hi'|by rewrite <- Hs'|done].
  unfold Kernel.lookup in *. simpl. rewrite filter_app, Hsb, Hrs.
  assert (filter (λ b, serviceIdentifier b = id)
            (flat_map (λ resource,
               [Kernel.newBinding (instanceBindName (class_name (constructor resource)))
                  (ToClass (constructor resource)) SingletonScope;
                Kernel.newBinding (IdClass (constructor resource))
                  (ToDynamicValue resource) TransientScope])
               (scopeResources (this st))) = []) as ->; [|done].
  clear -Hres. induction (scopeResources (this st)) as [|r rs IH]; [done|].
  simpl flat_map. rewrite !filter_cons. unfold Kernel.newBinding at 1 2.
  simpl serviceIdentifier.
  destruct (Hres r) as [H1 H2]; [by left|].
  rewrite decide_False by (intros Heq; by apply H2).
  rewrite decide_False by (intros Heq; by apply H1).
  apply IH. intros ? ?. apply Hres. by right.
Qed.

Lemma X18_constant_in_every_scope_witness :
  let st := enter (Scope.inject [IdClass Fixture.Foo; IdString "Constant"]
                     (Container.scope Fixture.container)) Fixture.world in
  let result := Scope.run Fixture.paramTypes 10 Fixture.task st in
  let args := [VObject 1; VPrimitive "constant"] in
  let calls := [CallTask args] in
  Kernel.lookup (IdString "Constant") (kernel st) =
    [Kernel.newBinding (IdString "Constant") (ToConstantValue (VPrimitive "constant"))
                       TransientScope] ∧
  result.1 = Ok (Fulfilled (VPrimitive "done")) ∧
  trace result.2 = trace st ++ calls ∧
  args !! 1 = Some (VPrimitive "constant").
Proof.
  intros st result args calls.
  assert (H1 : Kernel.lookup (IdString "Constant") (kernel st) =
    [Kernel.newBinding (IdString "Constant") (ToConstantValue (VPrimitive "constant"))
                       TransientScope]) by (vm_compute; reflexivity).
  assert (H2 : Scope.run Fixture.paramTypes 10 Fixture.task st =
               (Ok (Fulfilled (VPrimitive "done")), result.2))
    by (vm_compute; reflexivity).
  assert (H3 : trace result.2 = trace st ++ calls) by (vm_compute; reflexivity).
  split; [exact H1|]. split; [vm_compute; reflexivity|]. split; [exact H3|].
  apply (X18_constant_in_every_scope Fixture.paramTypes 10 Fixture.task st
           (Fulfilled (VPrimitive "done")) result.2
           calls (IdString "Constant") (VPrimitive "constant") 1 args H1).
  - done.
  - intros resource Hin. apply list_elem_of_singleton in Hin. subst. split; done.
  - reflexivity.
  - exact H2.
  - exact H3.
  - apply list_elem_of_here.
Defined.

(** ** Acquisition on demand (di.ts, Scope.bindScopeResources) *)
Section Demand.

Variable paramTypes : Class → list InjectionIdentifier.
Variable name : string.

Lemma Demanded_Frame st st' id :
  Frame st st' → Demanded paramTypes st' name id → Demanded paramTypes st name id.
Proof.
  intros HF (target & b' & resource & HP & Hl & Hc & Hi & Hn).
  destruct (Frame_lookup_unique_inv _ _ _ _ HF Hl) as (b & Hlb & Hsame).
  exists target, b, resource. split; [by eapply Frame_Path|]. split; [done|].
  split; [by eapply sameBinding_cached|]. split; [|done].
  destruct Hsame as (_ & -> & _). done.
Qed.

Lemma Demanded_Link st id id' :
  Link paramTypes st id id' → Demanded paramTypes st name id' →
  Demanded paramTypes st name id.
Proof.
  intros HL (target & b & resource & HP & H). exists target, b, resource.
  split; [by eapply path_step|done].
Qed.

Lemma acquire_trace n resource instance st r st' :
  acquire n resource instance st = (r, st') →
  ∃ o, trace st' = trace st ++ [CallDisposerFactory n instance o].
Proof.
  unfold acquire, bind, callDisposerFactory.
  destruct (disposerFactory resource instance) as [p|e]; simpl.
  - intros [= <- <-]. eexists. reflexivity.
  - intros [= <- <-]. eexists. reflexivity.
Qed.

Local Abbreviation demands kernel_get :=
  (∀ id st r st' τ, kernel_get id st = (r, st') → trace st' = trace st ++ τ →
     ∀ i o, CallDisposerFactory name i o ∈ τ → Demanded paramTypes st name id).

Lemma get_trace depth id st r st' :
  Kernel.get paramTypes depth id st = (r, st') → ∃ τ, trace st' = trace st ++ τ.
Proof. intros H. apply get_Calm in H as (_ & (τ & Ht & _) & _). eauto. Qed.

Lemma mapM_demands depth ids :
  demands (Kernel.get paramTypes depth) →
  ∀ st r st' τ, mapM (Kernel.get paramTypes depth) ids st = (r, st') →
    trace st' = trace st ++ τ →
    ∀ i o, CallDisposerFactory name i o ∈ τ →
           ∃ id, id ∈ ids ∧ Demanded paramTypes st name id.
Proof.
  intros Hget. induction ids as [|x xs IH]; intros st r st' τ H Ht i o Hin; simpl in H.
  - inversion H; subst. rewrite <- (app_nil_r (trace st')) in Ht at 1.
    apply app_inv_head in Ht. subst. by apply elem_of_nil in Hin.
  - apply bind_inv in H as [(y & s1 & Hx & H)|(e & Hx & ->)].
    + destruct (get_trace _ _ _ _ _ Hx) as (τ1 & Ht1).
      apply bind_inv in H as [(ys & s2 & Hxs & H)|(e & Hxs & ->)].
      * inversion H; subst s2 r. clear H.
        destruct (mapM_get_Calm _ _ _ _ _ _ Hxs) as (_ & (τ2 & Ht2 & _) & _).
        rewrite Ht2, Ht1, <- app_assoc in Ht. apply app_inv_head in Ht. subst τ.
        apply elem_of_app in Hin as [Hin|Hin].
        -- exists x. split; [by left|]. by eapply Hget.
        -- destruct (IH _ _ _ _ Hxs Ht2 _ _ Hin) as (id & Hid & HD).
           exists id. split; [by right|].
           eapply Demanded_Frame; [by eapply get_Frame|done].
      * destruct (mapM_get_Calm _ _ _ _ _ _ Hxs) as (_ & (τ2 & Ht2 & _) & _).
        rewrite Ht2, Ht1, <- app_assoc in Ht. apply app_inv_head in Ht. subst τ.
        apply elem_of_app in Hin as [Hin|Hin].
        -- exists x. split; [by left|]. by eapply Hget.
        -- destruct (IH _ _ _ _ Hxs Ht2 _ _ Hin) as (id & Hid & HD).
           exists id. split; [by right|].
           eapply Demanded_Frame; [by eapply get_Frame|done].
    + exists x. split; [by left|]. by eapply Hget.
Qed.

Lemma get_demands depth : demands (Kernel.get paramTypes depth).
Proof.
  induction depth as [|d IH]; intros id st r st' τ H Ht i o Hin.
  { inversion H; subst. rewrite <- (app_nil_r (trace st')) in Ht at 1.
    apply app_inv_head in Ht. subst. by apply elem_of_nil in Hin. }
  rewrite get_S in H.
  assert (Hsame : ∀ s, trace s = trace st → trace s = trace st ++ τ → False).
  { intros s Hs Hs'. rewrite Hs in Hs'. rewrite <- (app_nil_r (trace st)) in Hs' at 1.
    apply app_inv_head in Hs'. subst. by apply elem_of_nil in Hin. }
  destruct (Kernel.lookup id (kernel st)) as [|b [|b' l]] eqn:Hl;
    [inversion H; subst; by destruct (Hsame st')| |inversion H; subst; by destruct (Hsame st')].
  unfold Kernel.resolveBinding in H.
  destruct (Kernel.cached b) as [v0|] eqn:Hc;
    [inversion H; subst; by destruct (Hsame st')|].
  assert (HLink : ∀ id', needs paramTypes b id' → Link paramTypes st id id').
  { intros id' Hn. by exists b. }
  (* the calls are those of the instantiation *)
  assert (∃ ri s1, Kernel.instantiate paramTypes (Kernel.get paramTypes d) b st = (ri, s1) ∧
                   trace s1 = trace st ++ τ) as (ri & s1 & Hinst & Ht1).
  { apply bind_inv in H as [(v1 & s1 & Hinst & H)|(e & Hinst & ->)]; [|eauto].
    exists (Ok v1), s1. split; [done|].
    apply bind_inv in H as [([] & s2 & Hact & H)|(e & Hact & ->)].
    - inversion H; subst. destruct (bindingScope b); inversion Hact; subst; done.
    - destruct (bindingScope b); inversion Hact. }
  clear H Ht. unfold Kernel.instantiate in Hinst.
  destruct (implementation b) as [c|c|resource] eqn:Himpl.
  - apply bind_inv in Hinst as [(args & sa & Hargs & Hcon)|(e & Hargs & ->)].
    + assert (trace s1 = trace sa) as Hts.
      { unfold Kernel.construct in Hcon. destruct (decide _); by inversion Hcon. }
      rewrite Hts in Ht1.
      destruct (mapM_demands _ _ IH _ _ _ _ Hargs Ht1 _ _ Hin) as (p & Hp & HD).
      eapply Demanded_Link; [|exact HD]. apply HLink. unfold needs. by rewrite Himpl.
    + destruct (mapM_demands _ _ IH _ _ _ _ Hargs Ht1 _ _ Hin) as (p & Hp & HD).
      eapply Demanded_Link; [|exact HD]. apply HLink. unfold needs. by rewrite Himpl.
  - inversion Hinst; subst. by destruct (Hsame s1).
  - assert (HLinst : Link paramTypes st id
                       (instanceBindName (class_name (constructor resource)))).
    { apply HLink. unfold needs. by rewrite Himpl. }
    apply scopeResourceValue_inv in Hinst
      as [(e & Hk & ->)|(instance & sa & Hk & Hrest)].
    + eapply Demanded_Link; [exact HLinst|]. by eapply IH.
    + destruct (get_trace _ _ _ _ _ Hk) as (τa & Hta).
      destruct Hrest as [(_ & Hri & Hs1)|(_ & r0 & Hacq & Hr0)].
      * subst s1. eapply Demanded_Link; [exact HLinst|].
        exact (IH _ _ _ _ _ Hk Ht1 _ _ Hin).
      * apply acquire_trace in Hacq as (o' & Hto).
        rewrite Hto, Hta, <- app_assoc in Ht1. apply app_inv_head in Ht1. subst τ.
        apply elem_of_app in Hin as [Hin|Hin].
        -- eapply Demanded_Link; [exact HLinst|]. by eapply IH.
        -- apply list_elem_of_singleton in Hin. inversion Hin; subst.
           exists id, b, resource. split; [apply path_here|]. done.
Qed.

End Demand.

Lemma bindScopeContext_trace paramTypes depth st r st' :
  Scope.bindScopeContext paramTypes depth st = (r, st') → trace st' = trace st.
Proof.
  unfold Scope.bindScopeContext. intros H.
  apply bind_inv in H as [([] & s1 & H1 & H2)|(e & H1 & _)]; [|done].
  unfold Kernel.bind in H1. inversion H1; subst s1. clear H1. simpl this in H2.
  destruct (objToBindScopeContext (this st)) as [data|]; [|by inversion H2].
  assert (Hget : ∀ rg s2,
            Kernel.get paramTypes depth (IdClass ScopeContext.class)
              (set_kernel {| bindings := bindings (kernel st) ++
                               [Kernel.newBinding (IdClass ScopeContext.class)
                                  (ToClass ScopeContext.class) SingletonScope];
                             snapshots := snapshots (kernel st) |} st) = (rg, s2) →
            trace s2 = trace st).
  { intros rg s2 Hg. destruct depth as [|d]; [by inversion Hg|].
    destruct (Kernel.lookup (IdClass ScopeContext.class) (kernel st)) as [|b0 l] eqn:Hl0.
    - erewrite get_ScopeContext_fresh in Hg; [|reflexivity|by destruct (kernel st)].
      by inversion Hg.
    - rewrite get_ambiguous in Hg; [by inversion Hg|].
      simpl. destruct (kernel st) as [B S]. rewrite lookup_snoc, length_app.
      unfold Kernel.lookup in Hl0 |- *. simpl in *. rewrite Hl0. simpl. lia. }
  apply bind_inv in H2 as [(v & s2 & Hg & Hfor)|(e & Hg & _)]; [|by eapply Hget].
  apply forEach_setOnce_Silent in Hfor as [Ht _]. rewrite Ht. by eapply Hget.
Qed.

(** X19.  A resource is acquired on demand only: when a run calls the
    disposer factory of a resource name, then, in the registry with the
    overlay installed, a declared identifier leads, through the
    constructor parameters and instance names of bindings that hold no
    instance, to an identifier bound to the closure of a resource of that
    name.  A resource that no declared identifier leads to is not
    acquired, whether the run returns or throws. *)
Theorem X19_acquired_on_demand paramTypes depth task st r st' calls name instance o :
  Scope.run paramTypes depth task st = (r, st') →
  trace st' = trace st ++ calls →
  CallDisposerFactory name instance o ∈ calls →
  ∃ st0 id,
    (Kernel.snapshot ;; Scope.bindScopeContext paramTypes depth ;;
     Scope.bindScopeResources) st = (Ok tt, st0) ∧
    id ∈ injections (this st) ∧
    Demanded paramTypes st0 name id.
Proof.
  intros Hrun Htr Hin.
  assert (Hres : ∃ rr st1 τ, Scope.resolve paramTypes depth st = (rr, st1) ∧
                   trace st1 = trace st ++ τ ∧
                   CallDisposerFactory name instance o ∈ τ) .
  { destruct r as [p|e].
    - apply run_returns in Hrun as (objs & st1 & Hres & Hrun).
      pose proof (resolve_spec _ _ _ _ _ Hres) as (_ & _ & _ & _ & _ & HS & _).
      destruct HS as (τ & Ht & _ & _).
      exists (Ok objs), st1, τ. split; [done|]. split; [done|].
      rewrite runTask_spec in Hrun. simpl this in Hrun.
      destruct (Promise.firstRejected _); inversion Hrun; subst; simpl in Htr;
        rewrite Ht, <- app_assoc in Htr; apply app_inv_head in Htr; subst calls;
        apply elem_of_app in Hin as [Hin|Hin]; try done.
      + unfold cleanups in Hin. apply list_elem_of_fmap in Hin as (? & ? & _). done.
      + apply elem_of_cons in Hin as [?|Hin]; [done|].
        unfold cleanups in Hin. apply list_elem_of_fmap in Hin as (? & ? & _). done.
    - apply run_throws_trace in Hrun as (Hres & _).
      exists (Throw e), st', calls. done. }
  destruct Hres as (rr & st1 & τ & Hres & Ht & Hτ). clear Hrun Htr Hin.
  assert (Hnil : ∀ s, trace s = trace st → s = st1 → False).
  { intros s Hs ->. rewrite Hs in Ht. rewrite <- (app_nil_r (trace st)) in Ht at 1.
    apply app_inv_head in Ht. subst. by apply elem_of_nil in Hτ. }
  unfold Scope.resolve in Hres.
  apply bind_inv in Hres as [([] & sa & Hs & Hres)|(e & Hs & _)]; [|done].
  inversion Hs; subst sa.
  apply bind_inv in Hres as [([] & sb & Hc & Hres)|(e & Hc & _)].
  2:{ exfalso. apply (Hnil st1); [|done]. by apply bindScopeContext_trace in Hc. }
  apply bind_inv in Hres as [([] & st0 & Hr & Hi)|(e & Hr & _)].
  2:{ by rewrite bindScopeResources_spec in Hr. }
  assert (Hinj : injections (this st0) = injections (this st) ∧ trace st0 = trace st).
  { pose proof (bindScopeContext_trace _ _ _ _ _ Hc) as Htc.
    apply bindScopeContext_Calm in Hc as ([] & _).
    rewrite bindScopeResources_spec in Hr. inversion Hr; subst st0. simpl in *.
    split; congruence. }
  destruct Hinj as [Hinj Ht0].
  unfold Scope.injectScopeParameters in Hi. rewrite Hinj in Hi.
  rewrite <- Ht0 in Ht.
  destruct (mapM_demands paramTypes name depth _ (get_demands paramTypes name depth)
              _ _ _ _ Hi Ht _ _ Hτ) as (id & Hid & HD).
  exists st0, id. split; [|done].
  erewrite bind_Ok by exact Hs. erewrite bind_Ok by exact Hc. exact Hr.
Qed.

Lemma X19_acquired_on_demand_witness :
  let st := enter (Scope.inject [IdClass Fixture.Baz] (Container.scope Fixture.container))
                  Fixture.world in
  let result := Scope.run Fixture.paramTypes 10 Fixture.task st in
  let d := {| disposer_ref := 2; disposer_promise := Fulfilled (VObject 1) |} in
  let calls := [CallDisposerFactory "Resource" (VObject 1) (Ok d);
                CallTask [VObject 3]; CallCleanup d] in
  trace result.2 = trace st ++ calls ∧
  ∃ st0 id,
    (Kernel.snapshot ;; Scope.bindScopeContext Fixture.paramTypes 10 ;;
     Scope.bindScopeResources) st = (Ok tt, st0) ∧
    id ∈ injections (this st) ∧
    Demanded Fixture.paramTypes st0 "Resource" id.
Proof.
  intros st result d calls.
  assert (H : trace result.2 = trace st ++ calls) by (vm_compute; reflexivity).
  split; [exact H|].
  apply (X19_acquired_on_demand Fixture.paramTypes 10 Fixture.task st result.1 result.2
           calls "Resource" (VObject 1) (Ok d) (surjective_pairing _) H).
  apply list_elem_of_here.
Defined.
